(** * Lattigo: sparse ternary sampling, CKKS evaluator and collective key switching

  A shallow embedding of the Go sources
    - [ring] ternary sampler  ([sampleSparse], [initializeMatrix]),
    - [dckks/keyswitching.go] ([genShareDelta], [AggregateShares], [KeySwitch]),
    - the [ckks] evaluator    ([Add], [Sub], [MulRelin], [Rescale], [RescaleMany],
      [RotateColumns], [switchKeysInPlace], ...).

  Conventions.  A [uint64] is a [Z] with the wrap-around written out ([wrap64]);
  a [float64] is a primitive binary64 [float]; a slice is a [list]; a call that
  panics yields [None] (or [Panicked]); pointers to ciphertext elements are
  addresses into an explicit store, so that receiver/operand aliasing is visible. *)

From Stdlib Require Import ZArith Floats Lia.
From stdpp Require Import base option list gmap.

Open Scope Z_scope.

(** ** Machine integers *)

Definition wrap64 (z : Z) : Z := z mod 2 ^ 64.

Definition MinUint64 (a b : Z) : Z := if a <=? b then a else b.
Definition MaxUint64 (a b : Z) : Z := if a <=? b then b else a.

(** [bits.Len64]: the number of bits needed to write [x]. *)
Definition Len64 (x : Z) : Z := if x <=? 0 then 0 else Z.log2 x + 1.

(** [utils.HammingWeight64]: the number of set bits among the low 64. *)
Definition HammingWeight64 (x : Z) : Z :=
Z.of_nat (length (filter (fun i => Is_true (Z.testbit x (Z.of_nat i))) (seq 0 64))).

(** ** Polynomials in RNS form ([ring.Poly]) *)

Module RingPkg.

(** One residue row: the [N] coefficients modulo one prime. *)
Abbreviation Row := (list Z).

(** [Poly.Coeffs [][]uint64]: one row per modulus. *)
Abbreviation Poly := (list (list Z)).

(** The part of [ring.Ring] (v2) / [ring.Context] (v1) the code reads. *)
Record Ring := mkRing {
  N : Z;
  Modulus : list Z
}.

(** Modelled from the spec: [NewPoly] is absent from src; a new polynomial has
    one all-zero row of [N] coefficients per modulus of its ring. *)
Definition NewPoly (r : Ring) : Poly :=
  map (fun _ => replicate (Z.to_nat (N r)) 0) (Modulus r).

(** Modelled from the spec: [Poly.Zero] is absent from src; it sets every
    coefficient of every row to zero and keeps the shape. *)
Definition Zero (p : Poly) : Poly := map (map (fun _ => 0)) p.

(** Modelled from the spec: [CRed] ("conditional reduction that subtracts q at
    most once from a value known to be < 2q"). *)
Definition CRed (a q : Z) : Z := if a <? q then a else a - q.

(** Modelled from the spec: [MForm] ("Montgomery form a*R mod q", R = 2^64). *)
Definition MForm (a q : Z) : Z := (a * 2 ^ 64) mod q.

(** The number of rows an "Lvl" routine touches: [i < level+1] over uint64. *)
Definition rowsOf (level : Z) : nat := Z.to_nat (wrap64 (level + 1)).

(** Modelled from the spec: the "Lvl" routines of the ring package are absent
    from src ("all Lvl variants operate only on the first level+1 rows, leaving
    higher rows untouched").  [lvl2 f] runs the row kernel [f q a b] on rows
    [0..level] of the two sources and stores them in the destination; indexing
    a row that an operand or the destination does not have panics, as Go's
    slice indexing does. *)
Definition lvl2 (f : Z -> Row -> Row -> Row) (r : Ring) (level : Z)
    (p1 p2 p3 : Poly) : option Poly :=
  let n := rowsOf level in
  if decide (n ≤ length (Modulus r) ∧ n ≤ length p1 ∧ n ≤ length p2 ∧ n ≤ length p3)%nat
  then Some (zip_with (fun q ab => f q ab.1 ab.2) (take n (Modulus r))
             (zip (take n p1) (take n p2)) ++ drop n p3)
  else None.

(** The one-source variant ([CopyLvl], [NegLvl], [MFormLvl], [InvNTTLvl], ...). *)
Definition lvl1 (f : Z -> Row -> Row) (r : Ring) (level : Z)
    (p1 p2 : Poly) : option Poly :=
  let n := rowsOf level in
  if decide (n ≤ length (Modulus r) ∧ n ≤ length p1 ∧ n ≤ length p2)%nat
  then Some (zip_with f (take n (Modulus r)) (take n p1) ++ drop n p2)
  else None.

(** Coefficient-wise kernels. *)
Definition addRow (q : Z) (a b : Row) : Row :=
  zip_with (fun x y => CRed (wrap64 (x + y)) q) a b.
Definition subRow (q : Z) (a b : Row) : Row :=
  zip_with (fun x y => CRed (wrap64 (x + q - y)) q) a b.
Definition negRow (q : Z) (a : Row) : Row := map (fun x => wrap64 (q - x)) a.
Definition copyRow (q : Z) (a : Row) : Row := a.

Definition AddLvl := lvl2 addRow.
Definition SubLvl := lvl2 subRow.
Definition NegLvl := lvl1 negRow.
Definition CopyLvl := lvl1 copyRow.

(** A polynomial of the ring: one row per modulus (up to its level), [N]
    coefficients per row, every coefficient reduced. *)
Definition reducedRow (n : Z) (q : Z) (row : Row) : Prop :=
  length row = Z.to_nat n ∧ Forall (fun x => 0 <= x < q) row.

Definition wfPoly (r : Ring) (p : Poly) : Prop :=
  (length p ≤ length (Modulus r))%nat ∧
  ∀ i row q, p !! i = Some row → Modulus r !! i = Some q → reducedRow (N r) q row.

Definition validModuli (r : Ring) : Prop :=
  Forall (fun q => 1 < q < 2 ^ 61) (Modulus r).

End RingPkg.

(** ** The ternary sampler (package ring, sampler_ternary) *)

Module Sampler.
Import RingPkg.

(** [utils.PRNG] is an interface of another package: a deterministic byte
    source.  [bytes] is the whole output stream and [cursor] the number of
    bytes already handed out. *)
Record PRNG := mkPRNG {
  bytes : nat → Z;
  cursor : nat
}.

(** [prng.Clock(buf)]: fills a buffer of [n] bytes and advances the source. *)
Definition Clock (prng : PRNG) (n : nat) : list Z * PRNG :=
  (map (fun k => bytes prng (cursor prng + k)%nat mod 256) (seq 0 n),
   mkPRNG (bytes prng) (cursor prng + n)).

(** Modelled from the spec: [randInt32] is absent from src; it draws four
    bytes from the source, reads them as a big-endian 32-bit value and keeps
    the bits selected by [mask]. *)
Definition randInt32 (prng : PRNG) (mask : Z) : Z * PRNG :=
  let '(bs, prng') := Clock prng 4 in
  (Z.land mask (fold_left (fun acc b => acc * 256 + b) bs 0), prng').

Record TernarySampler := mkTS {
  prng : PRNG;
  baseRing : Ring;
  matrixValues : list (list Z);
  hw : Z
}.

(** [initializeMatrix]: per modulus, the images of 0, 1 and -1. *)
Definition initializeMatrix (r : Ring) (montgomery : bool) : list (list Z) :=
  map (fun Qi =>
         if montgomery then [0; MForm 1 Qi; MForm (wrap64 (Qi - 1)) Qi]
         else [0; 1; wrap64 (Qi - 1)])
      (Modulus r).

(** [NewTernarySamplerSparse]. *)
Definition NewTernarySamplerSparse (g : PRNG) (r : Ring) (h : Z)
    (montgomery : bool) : TernarySampler :=
  mkTS g r (initializeMatrix r montgomery) h.

(** The rejection loop [j = randInt32(..); for j >= bound { j = randInt32(..) }].
    [fuel] bounds the number of draws; [None] when it is used up. *)
Fixpoint drawBelow (fuel : nat) (g : PRNG) (mask bound : Z) : option (Z * PRNG) :=
  match fuel with
  | O => None
  | S fuel' =>
      let '(j, g') := randInt32 g mask in
      if bound <=? j then drawBelow fuel' g' mask bound else Some (j, g')
  end.

(** [pol.Coeffs[i][c] = v], panicking out of range. *)
Definition setCoeff (pol : Poly) (i c : nat) (v : Z) : option Poly :=
  row ← pol !! i;
  if decide (c < length row)%nat then Some (<[i := <[c := v]> row]> pol) else None.

(** [for i := range Modulus { pol.Coeffs[i][c] = matrixValues[i][coeff] }]. *)
Definition writeColumn (mv : list (list Z)) (nrows : nat) (c coeff : nat)
    (pol : Poly) : option Poly :=
  foldl (fun acc i => p ← acc; vals ← mv !! i; v ← vals !! coeff; setCoeff p i c v)
        (Some pol) (seq 0 nrows).

(** The mutable locals of [sampleSparse]. *)
Record SparseState := mkSparse {
  pol : Poly;
  index : list Z;
  randomBytes : list Z;
  pointer : Z;
  gen : PRNG
}.

(** One iteration of the main loop of [sampleSparse], for loop counter [i]. *)
Definition sparseStep (fuel : nat) (n : Z) (nrows : nat) (mv : list (list Z)) (i : Z)
    (st : SparseState) : option SparseState :=
  let mask := wrap64 (wrap64 (Z.shiftl 1 (Len64 (wrap64 (n - i)))) - 1) in
  '(j, g') ← drawBelow fuel (gen st) mask (wrap64 (n - i));
  b0 ← randomBytes st !! 0%nat;
  let coeff := Z.land (Z.shiftr b0 (Z.land i 7)) 1 in
  idx ← index st !! Z.to_nat j;
  pol' ← writeColumn mv nrows (Z.to_nat idx) (Z.to_nat coeff) (pol st);
  lastIdx ← last (index st);
  let index' := take (length (index st) - 1) (<[Z.to_nat j := lastIdx]> (index st)) in
  let pointer' := (pointer st + 1) mod 256 in
  if pointer' =? 8
  then Some (mkSparse pol' index' (drop 1 (randomBytes st)) 0 g')
  else Some (mkSparse pol' index' (randomBytes st) pointer' g').

(** [for i := uint64(0); i < ts.hw; i++ { ... }]: [k] iterations from [i]. *)
Fixpoint sparseLoop (fuel : nat) (n : Z) (nrows : nat) (mv : list (list Z)) (k : nat) (i : Z)
    (st : SparseState) : option SparseState :=
  match k with
  | O => Some st
  | S k' =>
      st' ← sparseStep fuel n nrows mv i st;
      sparseLoop fuel n nrows mv k' (i + 1) st'
  end.

(** [sampleSparse]: returns the sampled polynomial and the sampler with its
    capped weight and advanced source.  The byte count [ceil(hw/8)] is
    computed in floating point in the source; it is exact for [hw < 2^53]. *)
Definition sampleSparse (fuel : nat) (ts : TernarySampler) (p : Poly)
    : option (Poly * TernarySampler) :=
  let n := N (baseRing ts) in
  let h := if n <? hw ts then n else hw ts in
  let index0 := map Z.of_nat (seq 0 (Z.to_nat n)) in
  let '(rb, g) := Clock (prng ts) (Z.to_nat ((h + 7) / 8)) in
  st ← sparseLoop fuel n (length (Modulus (baseRing ts))) (matrixValues ts) (Z.to_nat h) 0
         (mkSparse p index0 rb 0 g);
  Some (pol st, mkTS (gen st) (baseRing ts) (matrixValues ts) h).

(** [Read] of a sparse sampler. *)
Definition Read := sampleSparse.

(** The number of nonzero coefficients of a residue row. *)
Definition hammingWeight (row : Row) : nat :=
  length (filter (fun x => x ≠ 0) row).

(** A source whose every byte is zero. *)
Definition zeroSource : PRNG := mkPRNG (fun _ => 0) 0.

End Sampler.


(** ** float64 *)

(** [float64(x)] of a [uint64]; exact rounding for [x < 2^63], which covers the
    moduli (at most 61 bits). *)
Definition float64_of_uint64 (z : Z) : float := PrimFloat.of_uint63 (Uint63.of_Z z).

(** The integer part of a finite float, truncated toward zero. *)
Definition truncFloat (f : float) : Z :=
  match Prim2SF f with
  | S754_finite sgn m e =>
      let a := if 0 <=? e then Z.pos m * 2 ^ e else Z.pos m / 2 ^ (- e) in
      if sgn then - a else a
  | _ => 0
  end.

(** [uint64(f)]: truncation toward zero.  Go leaves the conversion of values
    outside the range of [uint64] implementation-dependent; the model follows
    the amd64 compiler: values in [[-2^63, 2^64)] wrap, everything else
    (larger magnitudes, infinities, NaN) yields [2^63]. *)
Definition uint64_of_float64 (f : float) : Z :=
  match Prim2SF f with
  | S754_infinity _ | S754_nan => 2 ^ 63
  | _ =>
      let t := truncFloat f in
      if (t <? - 2 ^ 63) || (2 ^ 64 <=? t) then 2 ^ 63 else wrap64 t
  end.

(** [utils.MaxFloat64]. *)
Definition MaxFloat64 (a b : float) : float := if (a <=? b)%float then b else a.

(** ** Arithmetic of the ring package that is not part of the sources

    The number-theoretic kernels below belong to package ring, which is not
    among the sources.  They are taken as parameters. *)

Class Kernels := {
  (** [MRed(a, b, q, mredParams)]: Montgomery product modulo [q]. *)
  MRed : Z → Z → Z → Z;
  (** The forward and inverse NTT of one row modulo [q]. *)
  nttRow : Z → list Z → list Z;
  invNTTRow : Z → list Z → list Z;
  (** [GetNttPsi()[i][1]] of the modulus [q]. *)
  nttPsi1 : Z → Z;
  (** [MulScalarBigint]: one row times a big scalar, modulo [q]. *)
  mulScalarRow : Z → Z → list Z → list Z;
  (** [DivRoundByLastModulusNTT]: the new row [i] from the row and the last row. *)
  divRoundRow : nat → list Z → list Z → list Z;
  (** [DecomposeAndSplit(level, digit, p0, ..)]: the Q rows and the P rows of
      digit [digit] of the level-[level] polynomial [p0]. *)
  decomposeRows : Z → Z → list (list Z) → list (list Z) * list (list Z);
  (** [ModDownSplitedNTT] / [ModDownSplitNTTPQ] at [level]: the rows of
      [(pQ - pP)/P mod Q]. *)
  modDownRows : Z → list (list Z) → list (list Z) → list (list Z);
  (** [PermuteNTTWithIndex]: one row permuted by a Galois index table. *)
  permuteRow : list Z → list Z → list Z;
  (** [GaussianSampler.Read]: the row sampled modulo [q] from the sampler
      state, and the state after the draw. *)
  gaussianRow : Z → Z → list Z;
  gaussianNext : Z → Z
}.

(** ** Ciphertext elements (package ckks) *)

Module Elem.
Import RingPkg.

(** Modelled from the spec: [ckksElement] / [Ciphertext] / [Plaintext] are absent
    from src.  "Ciphertext: an ordered sequence of 1+ Polynomials ..., each sharing
    a Level (number of active moduli - 1) and a Scale"; "a polynomial carries an
    implicit domain flag". *)
Record Element := mkElement {
  value : list Poly;
  scale : float;
  isNTT : bool
}.

(** Modelled from the spec: [Degree()] is the number of parts minus one. *)
Definition Degree (el : Element) : Z := wrap64 (Z.of_nat (length (value el)) - 1).

(** Modelled from the spec: [Level()] is the number of rows of the first part
    minus one; it panics on an element without parts. *)
Definition Level (el : Element) : option Z :=
  p ← value el !! 0%nat; Some (wrap64 (Z.of_nat (length p) - 1)).

Definition SetScale (el : Element) (s : float) : Element :=
  mkElement (value el) s (isNTT el).

(** Modelled from the spec: [DivScale] divides the tracked scale ("rescale:
    divide by a chain modulus"). *)
Definition DivScale (el : Element) (s : float) : Element :=
  SetScale el (scale el / s)%float.

Definition setPart (el : Element) (i : nat) (p : Poly) : Element :=
  mkElement (<[i := p]> (value el)) (scale el) (isNTT el).

(** Modelled from the spec: [Copy] is absent from src; it "copies the input
    ciphertext into the output unchanged (identical residues, level, degree, and
    scale)". *)
Definition Copy (receiver src : Element) : Element := src.

(** Modelled from the spec: [Resize] is absent from src; it brings the element to
    the given degree, dropping the parts above it or appending zero parts at the
    element's level. *)
Definition Resize (n : Z) (el : Element) (degree : Z) : option Element :=
  lvl ← Level el;
  let k := Z.to_nat (degree + 1) in
  let fresh := replicate (rowsOf lvl) (replicate (Z.to_nat n) 0) in
  Some (mkElement (take k (value el) ++ replicate (k - length (value el)) fresh)
                  (scale el) (isNTT el)).

End Elem.

(** ** The collective key-switching protocol (dckks/keyswitching.go) *)

Module Dckks.
Import RingPkg Elem.

Record CKSProtocol := mkCKS {
  ringQ : Ring;
  ringP : Ring;
  ringQP : Ring;
  tmp : Poly;
  tmpDelta : Poly;
  hP : Poly;
  gaussianSampler : Z
}.

Abbreviation CKSShare := (list (list Z)).

(** [NewCKSProtocol]: the scratch polynomials start out zero. *)
Definition NewCKSProtocol (q p : Ring) (seed : Z) : CKSProtocol :=
  let qp := mkRing (N q) (Modulus q ++ Modulus p) in
  mkCKS q p qp (NewPoly qp) (NewPoly q) (NewPoly p) seed.

(** [AllocateShare]. *)
Definition AllocateShare (cks : CKSProtocol) : CKSShare := NewPoly (ringQ cks).

(** The level of a whole ring: the full-ring routines ([Sub], [NTT]) run over
    every modulus. *)
Definition topLevel (r : Ring) : Z := Z.of_nat (length (Modulus r)) - 1.

(** [tmp1[j] += tmp0[j]] for [j < N], on the P rows of [tmp]. *)
Definition accumulateP (nQ nQP : nat) (n : nat) (tmp hP : Poly) : option Poly :=
  foldl (fun acc x =>
           h ← acc;
           tmp0 ← tmp !! (nQ + x)%nat;
           tmp1 ← h !! x;
           if decide (n ≤ length tmp0 ∧ n ≤ length tmp1)%nat
           then Some (<[x := zip_with (fun a b => wrap64 (a + b)) (take n tmp1) (take n tmp0)
                               ++ drop n tmp1]> h)
           else None)
        (Some hP) (seq 0 (nQP - nQ)).

Section WithKernels.
Context `{K : Kernels}.

Definition mulMontRow (q : Z) (a b : Row) : Row := zip_with (fun x y => MRed x y q) a b.

(** [genShareDelta]. *)
Definition genShareDelta (cks : CKSProtocol) (skDelta : Poly) (ct : Element)
    (shareOut : CKSShare) : option (CKSShare * CKSProtocol) :=
  let rQ := ringQ cks in
  let rP := ringP cks in
  lvl ← Level ct;
  ct1 ← value ct !! 1%nat;
  s1 ← lvl2 mulMontRow rQ lvl ct1 skDelta shareOut;
  s2 ← lvl1 (fun q => mulScalarRow q (fold_right Z.mul 1 (Modulus rP))) rQ lvl s1 s1;
  let g' := gaussianNext (gaussianSampler cks) in
  tmp1 ← lvl1 (fun q _ => gaussianRow (gaussianSampler cks) q) (ringQP cks)
          (topLevel (ringQP cks)) (tmp cks) (tmp cks);
  tmp2 ← lvl1 nttRow (ringQP cks) (topLevel (ringQP cks)) tmp1 tmp1;
  s3 ← AddLvl rQ lvl s2 tmp2 s2;
  hP1 ← accumulateP (length (Modulus rQ)) (length (Modulus (ringQP cks)))
          (Z.to_nat (N rQ)) tmp2 (hP cks);
  let n := rowsOf lvl in
  let s4 := modDownRows lvl (take n s3) hP1 ++ drop n s3 in
  Some (s4, mkCKS rQ rP (ringQP cks) (Zero tmp2) (tmpDelta cks) (Zero hP1) g').

(** [GenShare]. *)
Definition GenShare (cks : CKSProtocol) (skInput skOutput : Poly) (ct : Element)
    (shareOut : CKSShare) : option (CKSShare * CKSProtocol) :=
  delta ← SubLvl (ringQ cks) (topLevel (ringQ cks)) skInput skOutput (tmpDelta cks);
  '(share, cks') ← genShareDelta cks delta ct shareOut;
  Some (share, mkCKS (ringQ cks') (ringP cks') (ringQP cks') (tmp cks') delta
                     (hP cks') (gaussianSampler cks')).

End WithKernels.

(** [AggregateShares]. *)
Definition AggregateShares (cks : CKSProtocol) (share1 share2 shareOut : CKSShare)
    : option CKSShare :=
  AddLvl (ringQ cks) (wrap64 (Z.of_nat (length share1) - 1)) share1 share2 shareOut.

(** [KeySwitch].  The receiver may be the input ciphertext itself: every step
    is coefficient-wise and reads a part before it stores the same part. *)
Definition KeySwitch (cks : CKSProtocol) (combined : CKSShare) (ct ctOut : Element)
    : option Element :=
  let ctOut1 := SetScale ctOut (scale ct) in
  lvl ← Level ct;
  ct0 ← value ct !! 0%nat;
  out0 ← value ctOut1 !! 0%nat;
  v0 ← AddLvl (ringQ cks) lvl ct0 combined out0;
  let ctOut2 := setPart ctOut1 0 v0 in
  ct1 ← value ct !! 1%nat;
  out1 ← value ctOut2 !! 1%nat;
  v1 ← CopyLvl (ringQ cks) lvl ct1 out1;
  Some (setPart ctOut2 1 v1).

(** Aggregation of a list of shares, left to right, into a fresh receiver. *)
Definition aggregateList (cks : CKSProtocol) (first : CKSShare) (rest : list CKSShare)
    : option CKSShare :=
  foldl (fun acc s => a ← acc; AggregateShares cks a s (AllocateShare cks))
        (Some first) rest.

(** Aggregation along a binary tree of parties. *)
Inductive AggTree :=
| Leaf (s : CKSShare)
| Node (l r : AggTree).

Fixpoint aggregateTree (cks : CKSProtocol) (t : AggTree) : option CKSShare :=
  match t with
  | Leaf s => Some s
  | Node l r =>
      a ← aggregateTree cks l;
      b ← aggregateTree cks r;
      AggregateShares cks a b (AllocateShare cks)
  end.

Fixpoint leaves (t : AggTree) : list CKSShare :=
  match t with
  | Leaf s => [s]
  | Node l r => leaves l ++ leaves r
  end.

End Dckks.

(** ** The evaluator (package ckks) *)

Module Ckks.
Import RingPkg Elem.

(** The fields of [Context] the evaluator reads. *)
Record Context := mkContext {
  logN : Z;
  ctxScale : float;
  contextQ : Ring;
  contextP : Ring;
  alpha : Z;
  levels : Z;
  xalpha : list Z
}.

(** [ckksContext.n]: the ring degree, [1 << logN]. *)
Definition n (c : Context) : Z := wrap64 (Z.shiftl 1 (logN c)).

(** [SwitchingKey.evakey [][2]*ring.Poly]: one pair per decomposition digit. *)
Abbreviation SwitchingKey := (list (list (list Z) * list (list Z))).

Record RotationKeys := mkRotationKeys {
  permuteNTTLeftIndex : gmap Z (list Z);
  permuteNTTRightIndex : gmap Z (list Z);
  permuteNTTConjugateIndex : list Z;
  evakeyRotColLeft : gmap Z SwitchingKey;
  evakeyRotColRight : gmap Z SwitchingKey;
  evakeyConjugate : option SwitchingKey
}.

(** The scratch space of an [Evaluator].  [ringpool] is declared with six
    entries, of which [NewEvaluator] fills five. *)
Record Evaluator := mkEvaluator {
  ckksContext : Context;
  ringpool : list Poly;
  keyswitchpool : list Poly;
  poolQ : list Poly;
  poolP : list Poly;
  ctxpool : Element
}.

(** Modelled from the spec: [NewCiphertextFromParams] is absent from src; a new
    ciphertext of the given degree, level and scale has zero parts and is in
    the NTT domain. *)
Definition NewCiphertextFromParams (c : Context) (degree level : Z) (s : float)
    : Element :=
  mkElement (replicate (Z.to_nat (degree + 1))
               (replicate (rowsOf level) (replicate (Z.to_nat (n c)) 0)))
            s true.

(** [NewEvaluator]. *)
Definition NewEvaluator (c : Context) : Evaluator :=
  let keys := mkRing (N (contextQ c)) (Modulus (contextQ c) ++ Modulus (contextP c)) in
  mkEvaluator c
    (replicate 5 (NewPoly (contextQ c)))
    (replicate 4 (NewPoly keys))
    (replicate 3 (NewPoly (contextQ c)))
    (replicate 3 (NewPoly (contextP c)))
    (NewCiphertextFromParams c 1 (wrap64 (levels c - 1)) (ctxScale c)).

(** The store: the evaluator with its pools, and the ciphertext elements that
    the caller's pointers designate. *)
Record Store := mkStore {
  ev : Evaluator;
  heap : list Element
}.

(** A [*ckksElement]: a caller's element, or the evaluator's [ctxpool]. *)
Inductive eptr :=
| Addr (a : nat)
| CtxPool.

#[global] Instance eptr_eq_dec : EqDecision eptr.
Proof. solve_decision. Defined.

(** A [*ring.Poly]: a part of an element, or an entry of a pool. *)
Inductive pref :=
| Part (e : eptr) (i : nat)
| RingPool (i : nat)
| KeySwitchPool (i : nat)
| PoolQ (i : nat)
| PoolP (i : nat)
| KeyPoly (p : Poly).

#[global] Instance pref_eq_dec : EqDecision pref.
Proof. solve_decision. Defined.

(** Go's [error] results. *)
Inductive GoError :=
| ErrNil
| ErrNew.

(** *** A state-and-panic monad over the store *)

Definition M (A : Type) : Type := Store → option (A * Store).

Definition ret {A} (a : A) : M A := fun s => Some (a, s).
Definition bind {A B} (m : M A) (f : A → M B) : M B :=
  fun s => match m s with Some (a, s') => f a s' | None => None end.
Definition panic {A} : M A := fun _ => None.
Definition lift {A} (o : option A) : M A :=
  fun s => match o with Some a => Some (a, s) | None => None end.

Notation "'do' x <- m ; k" := (bind m (fun x => k))
  (at level 10, x pattern, m at level 100, k at level 200).
Notation "'run' m ; k" := (bind m (fun _ => k))
  (at level 10, m at level 100, k at level 200).

Definition setEv (s : Store) (e : Evaluator) : Store := mkStore e (heap s).

Definition getEl (p : eptr) : M Element :=
  fun s => match p with
           | Addr a => lift (heap s !! a) s
           | CtxPool => Some (ctxpool (ev s), s)
           end.

Definition putEl (p : eptr) (el : Element) : M unit :=
  fun s => match p with
           | Addr a =>
               if decide (a < length (heap s))%nat
               then Some (tt, mkStore (ev s) (<[a := el]> (heap s))) else None
           | CtxPool =>
               let e := ev s in
               Some (tt, setEv s (mkEvaluator (ckksContext e) (ringpool e) (keyswitchpool e)
                                    (poolQ e) (poolP e) el))
           end.

Definition readP (r : pref) : M Poly :=
  match r with
  | Part e i => do el <- getEl e; lift (value el !! i)
  | RingPool i => fun s => lift (ringpool (ev s) !! i) s
  | KeySwitchPool i => fun s => lift (keyswitchpool (ev s) !! i) s
  | PoolQ i => fun s => lift (poolQ (ev s) !! i) s
  | PoolP i => fun s => lift (poolP (ev s) !! i) s
  | KeyPoly p => ret p
  end.

Definition checkedInsert {A} (i : nat) (x : A) (l : list A) : option (list A) :=
  if decide (i < length l)%nat then Some (<[i := x]> l) else None.

Definition writeP (r : pref) (p : Poly) : M unit :=
  match r with
  | Part e i =>
      do el <- getEl e;
      do v <- lift (checkedInsert i p (value el));
      putEl e (mkElement v (scale el) (isNTT el))
  | RingPool i => fun s =>
      let e := ev s in
      match checkedInsert i p (ringpool e) with
      | Some l => Some (tt, setEv s (mkEvaluator (ckksContext e) l (keyswitchpool e)
                                       (poolQ e) (poolP e) (ctxpool e)))
      | None => None
      end
  | KeySwitchPool i => fun s =>
      let e := ev s in
      match checkedInsert i p (keyswitchpool e) with
      | Some l => Some (tt, setEv s (mkEvaluator (ckksContext e) (ringpool e) l
                                       (poolQ e) (poolP e) (ctxpool e)))
      | None => None
      end
  | PoolQ i => fun s =>
      let e := ev s in
      match checkedInsert i p (poolQ e) with
      | Some l => Some (tt, setEv s (mkEvaluator (ckksContext e) (ringpool e) (keyswitchpool e)
                                       l (poolP e) (ctxpool e)))
      | None => None
      end
  | PoolP i => fun s =>
      let e := ev s in
      match checkedInsert i p (poolP e) with
      | Some l => Some (tt, setEv s (mkEvaluator (ckksContext e) (ringpool e) (keyswitchpool e)
                                       (poolQ e) l (ctxpool e)))
      | None => None
      end
  | KeyPoly _ => panic
  end.

Definition getCtx : M Context := fun s => Some (ckksContext (ev s), s).

(** [for i := from; i < from + count; i++ { body i }]. *)
Fixpoint forRange (count : nat) (from : Z) (body : Z → M unit) : M unit :=
  match count with
  | O => ret tt
  | S k => run body from; forRange k (from + 1) body
  end.

(** A ring routine with two sources and a destination, on polynomial pointers. *)
Definition polyOp2 (f : Poly → Poly → Poly → option Poly) (a b dst : pref) : M unit :=
  do pa <- readP a;
  do pb <- readP b;
  do pd <- readP dst;
  do r <- lift (f pa pb pd);
  writeP dst r.

(** A ring routine with one source and a destination. *)
Definition polyOp1 (f : Poly → Poly → option Poly) (a dst : pref) : M unit :=
  do pa <- readP a;
  do pd <- readP dst;
  do r <- lift (f pa pd);
  writeP dst r.

(** *** Level and degree bookkeeping *)

(** [DropLevel].  Re-slicing [Coeffs[:k]] beyond the current length depends on
    the capacity of the backing array; the model treats it as a panic. *)
Definition DropLevel (p : eptr) (lvls : Z) : M GoError :=
  do el <- getEl p;
  do lvl <- lift (Level el);
  if lvl =? 0 then ret ErrNew
  else
    let k := Z.to_nat (wrap64 (lvl + 1 - lvls)) in
    if decide (Forall (fun part : Poly => (k ≤ length part)%nat) (value el))
    then run putEl p (mkElement (map (take k) (value el)) (scale el) (isNTT el));
         ret ErrNil
    else panic.

(** [el.Resize(params, degree)] through a pointer. *)
Definition resizeAt (p : eptr) (degree : Z) : M unit :=
  do c <- getCtx;
  do el <- getEl p;
  do el' <- lift (Resize (n c) el degree);
  putEl p el'.

Definition setScaleAt (p : eptr) (s : float) : M unit :=
  do el <- getEl p; putEl p (SetScale el s).

(** [getElemAndCheckBinary]: a pointer that designates no element is [nil]. *)
Definition getElemAndCheckBinary (op0 op1 opOut : eptr) (opOutMinDegree : Z)
    : M unit :=
  do e0 <- getEl op0;
  do e1 <- getEl op1;
  do eo <- getEl opOut;
  if wrap64 (Degree e0 + Degree e1) =? 0 then panic
  else if Degree eo <? opOutMinDegree then panic
  else ret tt.

(** [getElemAndCheckUnary]. *)
Definition getElemAndCheckUnary (op0 opOut : eptr) (opOutMinDegree : Z) : M unit :=
  do e0 <- getEl op0;
  do eo <- getEl opOut;
  if Degree e0 =? 0 then panic
  else if Degree eo <? opOutMinDegree then panic
  else ret tt.

(** *** Multiplication by a constant (utils.go, evaluator) *)

(** [scaleUpExact] (utils.go): [n*value] is a float64 product; it is truncated
    to an integer exactly and reduced modulo [q].  [big.NewFloat] panics on NaN;
    an infinite product has no integer part. *)
Definition scaleUpExact (v : float) (nn : float) (q : Z) : option Z :=
  let isNegative := (v <? 0)%float in
  let x := if isNegative then (- nn * v)%float else (nn * v)%float in
  match Prim2SF x with
  | S754_nan | S754_infinity _ => None
  | _ =>
      let res := wrap64 (truncFloat x mod q) in
      Some (if isNegative then wrap64 (q - res) else res)
  end.

(** The dynamic type of the [constant interface{}] argument. *)
Inductive Const :=
| CComplex128 (re im : float)
| CFloat64 (f : float)
| CUint64 (z : Z)
| CInt64 (z : Z)
| CInt (z : Z).

(** [float64(x)] of a signed integer. *)
Definition float64_of_int64 (z : Z) : float :=
  if z <? 0 then (- float64_of_uint64 (- z))%float else float64_of_uint64 z.

(** [int64(f)]: truncation toward zero, wrapped into the signed range. *)
Definition int64_of_float64 (f : float) : Z :=
  let u := uint64_of_float64 f in if u <? 2 ^ 63 then u else u - 2 ^ 64.

(** Whether a non-zero float has a fractional part
    ([valueFloat := c - float64(int64(c)); valueFloat != 0]). *)
Definition hasFraction (c : float) : bool :=
  if (c =? 0)%float then false
  else negb (c - float64_of_int64 (int64_of_float64 c) =? 0)%float.

(** The [switch constant.(type)] of [MultByConst]: real part, imaginary part and
    the scale by which the constant is multiplied. *)
Definition constParts (defaultScale : float) (c : Const) : float * float * float :=
  match c with
  | CComplex128 re im =>
      (re, im, if hasFraction re || hasFraction im then defaultScale else 1%float)
  | CFloat64 f => (f, 0%float, if hasFraction f then defaultScale else 1%float)
  | CUint64 z => (float64_of_uint64 z, 0%float, 1%float)
  | CInt64 z => (float64_of_int64 z, 0%float, 1%float)
  | CInt z => (float64_of_int64 z, 0%float, 1%float)
  end.

Section WithKernels.
Context `{K : Kernels}.

(** The two Montgomery-form constants of [MultByConst] for the modulus [qi]:
    the one for the first half of a row and the one for the second half. *)
Definition scaledConsts (cReal cImag sc : float) (qi : Z) : option (Z * Z) :=
  re ← (if (cReal =? 0)%float then Some 0 else scaleUpExact cReal sc qi);
  if (cImag =? 0)%float then Some (MForm re qi, MForm re qi)
  else
    im0 ← scaleUpExact cImag sc qi;
    let im := MRed im0 (nttPsi1 qi) qi in
    Some (MForm (CRed (wrap64 (re + im)) qi) qi,
          MForm (CRed (wrap64 (re + wrap64 (qi - im))) qi) qi).

(** One row of [MultByConst]: columns [0 .. n/2) by the first constant, columns
    [n/2 .. n) by the second; the rows must hold [n] coefficients. *)
Definition multRow (nn : Z) (k1 k2 qi : Z) (p0 p1 : Row) : option Row :=
  let h := Z.to_nat (Z.shiftr nn 1) in
  let m := Z.to_nat nn in
  if decide (m ≤ length p0 ∧ m ≤ length p1)%nat
  then Some (map (fun x => MRed x k1 qi) (take h p0)
             ++ map (fun x => MRed x k2 qi) (drop h (take m p0))
             ++ drop m p1)
  else None.

(** Rows [0 .. level] of one part. *)
Fixpoint multRows (nn : Z) (cReal cImag sc : float) (moduli : list Z) (k : nat)
    (p0 p1 : Poly) : option Poly :=
  match k with
  | O => Some p1
  | S k' =>
      match moduli, p0, p1 with
      | qi :: moduli', r0 :: p0', r1 :: p1' =>
          '(k1, k2) ← scaledConsts cReal cImag sc qi;
          r ← multRow nn k1 k2 qi r0 r1;
          rest ← multRows nn cReal cImag sc moduli' k' p0' p1';
          Some (r :: rest)
      | _, _, _ => None
      end
  end.

(** Every part of [ct0] into the same part of [ctOut]. *)
Fixpoint multParts (nn : Z) (cReal cImag sc : float) (moduli : list Z) (k : nat)
    (v0 vOut : list Poly) : option (list Poly) :=
  match v0 with
  | [] => Some vOut
  | p0 :: v0' =>
      match vOut with
      | p1 :: vOut' =>
          p ← multRows nn cReal cImag sc moduli k p0 p1;
          rest ← multParts nn cReal cImag sc moduli k v0' vOut';
          Some (p :: rest)
      | [] => None
      end
  end.

(** [MultByConst] on element values.  The routine is coefficient-wise, so the
    result is the same when the receiver is the input itself. *)
Definition multByConst (c : Context) (ct0 : Element) (constant : Const)
    (ctOut : Element) : option Element :=
  l0 ← Level ct0;
  lo ← Level ctOut;
  let level := MinUint64 l0 lo in
  let '(cReal, cImag, sc) := constParts (ctxScale c) constant in
  v ← (if decide (rowsOf level = 0%nat) then Some (value ctOut)
       else multParts (n c) cReal cImag sc (Modulus (contextQ c)) (rowsOf level)
              (value ct0) (value ctOut));
  Some (mkElement v (scale ct0 * sc)%float (isNTT ctOut)).

Definition MultByConst (ct0 : eptr) (constant : Const) (ctOut : eptr) : M unit :=
  do c <- getCtx;
  do e0 <- getEl ct0;
  do eo <- getEl ctOut;
  do r <- lift (multByConst c e0 constant eo);
  putEl ctOut r.

(** *** Addition and subtraction *)

Definition levelOf (p : eptr) : M Z := do el <- getEl p; lift (Level el).
Definition degreeOf (p : eptr) : M Z := do el <- getEl p; ret (Degree el).
Definition scaleOf (p : eptr) : M float := do el <- getEl p; ret (scale el).

(** The scale alignment [if uint64(hi/lo) != 0 { MultByConst(src, uint64(hi/lo), dst) }]. *)
Definition alignScale (hi lo : float) (src dst : eptr) : M unit :=
  let ratio := uint64_of_float64 (hi / lo)%float in
  if ratio =? 0 then ret tt else MultByConst src (CUint64 ratio) dst.

(** [evaluateInPlace]. *)
Definition evaluateInPlace (c0 c1 ctOut : eptr)
    (evaluate : Ring → Z → Poly → Poly → Poly → option Poly) : M unit :=
  do c <- getCtx;
  do l0 <- levelOf c0;
  do l1 <- levelOf c1;
  do lo <- levelOf ctOut;
  let level := MinUint64 (MinUint64 l0 l1) lo in
  do d0 <- degreeOf c0;
  do d1 <- degreeOf c1;
  let maxDegree := MaxUint64 d0 d1 in
  let minDegree := MinUint64 d0 d1 in
  run resizeAt ctOut maxDegree;
  do lo' <- levelOf ctOut;
  do l0' <- levelOf c0;
  do l1' <- levelOf c1;
  do _ <- DropLevel ctOut (wrap64 (lo' - MinUint64 l0' l1'));
  do s0 <- scaleOf c0;
  do s1 <- scaleOf c1;
  do tmps <-
    (if decide (ctOut = c0) then
       do tmp1 <-
         (if (s1 <? s0)%float then
            run alignScale s0 s1 c1 CtxPool; ret CtxPool
          else if (s0 <? s1)%float then
            run alignScale s1 s0 c0 c0;
            do s1' <- scaleOf c1;
            run setScaleAt c0 s1';
            ret c1
          else ret c1);
       ret (c0, tmp1)
     else if decide (ctOut = c1) then
       do tmp0 <-
         (if (s0 <? s1)%float then
            run alignScale s1 s0 c0 CtxPool; ret CtxPool
          else if (s1 <? s0)%float then
            run alignScale s0 s1 c1 ctOut;
            do s0' <- scaleOf c0;
            run setScaleAt ctOut s0';
            ret c0
          else ret c0);
       ret (tmp0, c1)
     else
       if (s0 <? s1)%float then
         run alignScale s1 s0 c0 CtxPool; ret (CtxPool, c1)
       else if (s1 <? s0)%float then
         run alignScale s0 s1 c1 CtxPool; ret (c0, CtxPool)
       else ret (c0, c1));
  let '(tmp0, tmp1) := tmps in
  run forRange (Z.to_nat (wrap64 (minDegree + 1))) 0 (fun i =>
        polyOp2 (evaluate (contextQ c) level)
            (Part tmp0 (Z.to_nat i)) (Part tmp1 (Z.to_nat i)) (Part ctOut (Z.to_nat i)));
  do s0'' <- scaleOf c0;
  do s1'' <- scaleOf c1;
  run setScaleAt ctOut (MaxFloat64 s0'' s1'');
  do d0' <- degreeOf c0;
  do d1' <- degreeOf c1;
  if (d1' <? d0') && bool_decide (tmp0 ≠ ctOut) then
    forRange (Z.to_nat (maxDegree - minDegree)) (minDegree + 1) (fun i =>
      polyOp1 (CopyLvl (contextQ c) level) (Part tmp0 (Z.to_nat i)) (Part ctOut (Z.to_nat i)))
  else if (d0' <? d1') && bool_decide (tmp1 ≠ ctOut) then
    forRange (Z.to_nat (maxDegree - minDegree)) (minDegree + 1) (fun i =>
      polyOp1 (CopyLvl (contextQ c) level) (Part tmp1 (Z.to_nat i)) (Part ctOut (Z.to_nat i)))
  else ret tt.

(** [Add]. *)
Definition Add (op0 op1 ctOut : eptr) : M unit :=
  do d0 <- degreeOf op0;
  do d1 <- degreeOf op1;
  run getElemAndCheckBinary op0 op1 ctOut (MaxUint64 d0 d1);
  evaluateInPlace op0 op1 ctOut AddLvl.

(** [Sub]. *)
Definition Sub (op0 op1 ctOut : eptr) : M unit :=
  do d0 <- degreeOf op0;
  do d1 <- degreeOf op1;
  run getElemAndCheckBinary op0 op1 ctOut (MaxUint64 d0 d1);
  run evaluateInPlace op0 op1 ctOut SubLvl;
  do c <- getCtx;
  do l0 <- levelOf op0;
  do l1 <- levelOf op1;
  do lo <- levelOf ctOut;
  let level := MinUint64 (MinUint64 l0 l1) lo in
  do d0' <- degreeOf op0;
  do d1' <- degreeOf op1;
  if d0' <? d1' then
    forRange (Z.to_nat (d1' - d0')) (d0' + 1) (fun i =>
      polyOp1 (NegLvl (contextQ c) level) (Part ctOut (Z.to_nat i)) (Part ctOut (Z.to_nat i)))
  else ret tt.

(** *** Rescaling *)

(** Modelled from the spec: [DivRoundByLastModulusNTT] is absent from src; it
    "divides every row's NTT-domain values by the last active modulus with
    rounding" and drops the last row.  It panics on a polynomial without rows. *)
Definition DivRoundByLastModulusNTT (p : Poly) : option Poly :=
  lastRow ← last p;
  Some (imap (fun i row => divRoundRow i row lastRow) (take (length p - 1) p)).

(** Modelled from the spec: [DivRoundByLastModulusManyNTT] is absent from src;
    "RescaleMany performs exactly n such steps". *)
Fixpoint DivRoundByLastModulusManyNTT (nb : nat) (p : Poly) : option Poly :=
  match nb with
  | O => Some p
  | S k => p' ← DivRoundByLastModulusNTT p; DivRoundByLastModulusManyNTT k p'
  end.

(** [for i := range c1.Value() { f(c1.Value()[i]) }]. *)
Definition eachPart (f : Poly → option Poly) (el : Element) : option Element :=
  v ← mapM f (value el); Some (mkElement v (scale el) (isNTT el)).

(** [x >= (threshold*float64(q))/2]. *)
Definition aboveThreshold (x threshold : float) (q : Z) : bool :=
  ((threshold * float64_of_uint64 q) / 2 <=? x)%float.

(** The loop of [Rescale] on the receiver; each round drops one level, so
    [fuel] rounds are enough when [fuel] exceeds the level. *)
Fixpoint rescaleLoop (fuel : nat) (moduli : list Z) (threshold : float)
    (c1 : Element) : option Element :=
  match fuel with
  | O => None
  | S fuel' =>
      lvl ← Level c1;
      q ← moduli !! Z.to_nat lvl;
      if aboveThreshold (scale c1) threshold q && negb (lvl =? 0) then
        c1' ← eachPart DivRoundByLastModulusNTT (DivScale c1 (float64_of_uint64 q));
        rescaleLoop fuel' moduli threshold c1'
      else Some c1
  end.

(** [Rescale]. *)
Definition Rescale (ct0 : eptr) (threshold : float) (c1 : eptr) : M GoError :=
  do c <- getCtx;
  let ringContext := contextQ c in
  do l0 <- levelOf ct0;
  if l0 =? 0 then ret ErrNew
  else
    do l1 <- levelOf c1;
    if negb (l0 =? l1) then panic
    else
      do e0 <- getEl ct0;
      do q <- lift (Modulus ringContext !! Z.to_nat l1);
      if aboveThreshold (scale e0) threshold q then
        if negb (isNTT e0) then panic
        else
          do e1 <- getEl c1;
          run putEl c1 (Copy e1 e0);
          do e1' <- getEl c1;
          do r <- lift (rescaleLoop (S (Z.to_nat l0)) (Modulus ringContext) threshold e1');
          run putEl c1 r;
          ret ErrNil
      else
        do e1 <- getEl c1;
        run putEl c1 (Copy e1 e0);
        ret ErrNil.

(** The scale updates of [RescaleMany]:
    [for i < nbRescales { c1.DivScale(float64(Modulus[c1.Level()-i])) }]. *)
Fixpoint divScales (k : nat) (i : Z) (moduli : list Z) (c1 : Element)
    : option Element :=
  match k with
  | O => Some c1
  | S k' =>
      lvl ← Level c1;
      q ← moduli !! Z.to_nat (wrap64 (lvl - i));
      divScales k' (i + 1) moduli (DivScale c1 (float64_of_uint64 q))
  end.

(** [RescaleMany]. *)
Definition RescaleMany (ct0 : eptr) (nbRescales : Z) (c1 : eptr) : M GoError :=
  do c <- getCtx;
  do l0 <- levelOf ct0;
  if l0 <? nbRescales then ret ErrNew
  else
    do l1 <- levelOf c1;
    if negb (l0 =? l1) then panic
    else
      do e0 <- getEl ct0;
      if negb (isNTT e0) then panic
      else
        do e1 <- getEl c1;
        run putEl c1 (Copy e1 e0);
        do e1' <- getEl c1;
        do e2 <- lift (divScales (Z.to_nat nbRescales) 0 (Modulus (contextQ c)) e1');
        do e3 <- lift (eachPart (DivRoundByLastModulusManyNTT (Z.to_nat nbRescales)) e2);
        run putEl c1 e3;
        ret ErrNil.

(** Allocation of a new element; the result designates it. *)
Definition alloc (el : Element) : M eptr :=
  fun s => Some (Addr (length (heap s)), mkStore (ev s) (heap s ++ [el])).

(** [RescaleNew]. *)
Definition RescaleNew (ct0 : eptr) (threshold : float) : M (eptr * GoError) :=
  do c <- getCtx;
  do e0 <- getEl ct0;
  do l0 <- lift (Level e0);
  do ctOut <- alloc (NewCiphertextFromParams c (Degree e0) l0 (scale e0));
  do err <- Rescale ct0 threshold ctOut;
  ret (ctOut, err).

(** *** The key-switching primitive *)

Record EvaluationKey := mkEvaluationKey {
  evakey : SwitchingKey
}.

(** Modelled from the spec: the Montgomery "Lvl" routines of the ring package
    are absent from src; they are coefficient-wise on rows [0..level]. *)
Definition MFormLvl := lvl1 (fun q row => map (fun x => MForm x q) row).
Definition MulCoeffsMontgomeryLvl := lvl2 (fun q a b => zip_with (fun x y => MRed x y q) a b).
Definition InvNTTLvl := lvl1 invNTTRow.
Definition ReduceLvl := lvl1 (fun q row => map (fun x => x mod q) row).

(** [MulCoeffsMontgomeryAndAddNoModLvl]: [p3[j] += MRed(p1[j], p2[j])] on rows
    [0..level], without reduction. *)
Definition MulCoeffsMontgomeryAndAddNoModLvl (r : Ring) (level : Z)
    (p1 p2 p3 : Poly) : option Poly :=
  let k := rowsOf level in
  if decide (k ≤ length (Modulus r) ∧ k ≤ length p1 ∧ k ≤ length p2 ∧ k ≤ length p3)%nat
  then Some (zip_with (fun q abc => zip_with (fun c ab => wrap64 (c + MRed ab.1 ab.2 q))
                                      abc.2 (zip abc.1.1 abc.1.2))
               (take k (Modulus r)) (zip (zip (take k p1) (take k p2)) (take k p3))
             ++ drop k p3)
  else None.

(** The full-ring routines run over every modulus of the ring. *)
Definition fullLevel (r : Ring) : Z := wrap64 (Z.of_nat (length (Modulus r)) - 1).
Definition NTT (r : Ring) := lvl1 nttRow r (fullLevel r).
Definition Reduce (r : Ring) := ReduceLvl r (fullLevel r).

(** [Poly.Zero] through a pointer. *)
Definition zeroAt (r : pref) : M unit := do p <- readP r; writeP r (Zero p).

(** [dst[j] = src[j]] for [j < nn]. *)
Definition copyCols (nn : nat) (src dst : Row) : option Row :=
  if decide (nn ≤ length src ∧ nn ≤ length dst)%nat
  then Some (take nn src ++ drop nn dst) else None.

(** Modelled from the spec: [DecomposeAndSplit] is absent from src; it "splits
    a level-L polynomial's coefficients into digit groups" and stores the Q rows
    [0..level] and the P rows of one digit. *)
Definition DecomposeAndSplit (c : Context) (level digit : Z)
    (c2InvNTT c2QiQ c2QiP : Poly) : option (Poly * Poly) :=
  let k := rowsOf level in
  let '(qRows, pRows) := decomposeRows level digit (take k c2InvNTT) in
  if decide (k ≤ length c2InvNTT ∧ length qRows = k ∧ k ≤ length c2QiQ
             ∧ length pRows = length c2QiP)%nat
  then Some (qRows ++ drop k c2QiQ, pRows) else None.

(** The row loop of [decomposeAndSplitNTT]: row [x] of the digit is the input
    row itself inside the digit's own moduli, and goes back to the NTT domain
    elsewhere. *)
Fixpoint splitRows (c : Context) (k : nat) (x : Z) (p0idxst p0idxed : Z)
    (c2NTT c2QiQ : Poly) : option Poly :=
  match k with
  | O => Some c2QiQ
  | S k' =>
      qi ← Modulus (contextQ c) !! Z.to_nat x;
      row ← c2QiQ !! Z.to_nat x;
      row' ← (if (p0idxst <=? x) && (x <? p0idxed) then
                src ← c2NTT !! Z.to_nat x;
                copyCols (Z.to_nat (N (contextQ c))) src row
              else Some (nttRow qi row));
      splitRows c k' (x + 1) p0idxst p0idxed c2NTT (<[Z.to_nat x := row']> c2QiQ)
  end.

(** [decomposeAndSplitNTT]. *)
Definition decomposeAndSplitNTT (level digit : Z) (c2NTT c2InvNTT c2QiQ c2QiP : pref)
    : M unit :=
  do c <- getCtx;
  do pNTT <- readP c2NTT;
  do pInv <- readP c2InvNTT;
  do pQ <- readP c2QiQ;
  do pP <- readP c2QiP;
  do qp <- lift (DecomposeAndSplit c level digit pInv pQ pP);
  let '(pQ1, pP1) := qp in
  let p0idxst := wrap64 (digit * alpha c) in
  do xa <- lift (xalpha c !! Z.to_nat digit);
  let p0idxed := wrap64 (p0idxst + xa) in
  do pQ2 <- lift (splitRows c (rowsOf level) 0 p0idxst p0idxed pNTT pQ1);
  run writeP c2QiQ pQ2;
  do pP2 <- lift (NTT (contextP c) pP1 pP1);
  writeP c2QiP pP2.

(** The special-prime rows of one digit:
    [p2tmp[y] += MRed(key[y], c2tmp[y], pj)] for every modulus [pj] of P. *)
Definition accumulateKeyP (c : Context) (key c2QiP pool : Poly) : option Poly :=
  let nn := Z.to_nat (N (contextP c)) in
  foldl (fun acc j =>
           p ← acc;
           pj ← Modulus (contextP c) !! j;
           keyRow ← key !! (Z.to_nat (levels c) + j)%nat;
           c2tmp ← c2QiP !! j;
           ptmp ← p !! j;
           if decide (nn ≤ length keyRow ∧ nn ≤ length c2tmp ∧ nn ≤ length ptmp)%nat
           then Some (<[j := zip_with (fun acc kc => wrap64 (acc + MRed kc.1 kc.2 pj))
                               (take nn ptmp) (zip (take nn keyRow) (take nn c2tmp))
                             ++ drop nn ptmp]> p)
           else None)
        (Some pool) (seq 0 (length (Modulus (contextP c)))).

(** The four reductions of the accumulators. *)
Definition reducePools (level : Z) : M unit :=
  do c <- getCtx;
  run polyOp1 (ReduceLvl (contextQ c) level) (PoolQ 1) (PoolQ 1);
  run polyOp1 (ReduceLvl (contextQ c) level) (PoolQ 2) (PoolQ 2);
  run polyOp1 (Reduce (contextP c)) (PoolP 1) (PoolP 1);
  polyOp1 (Reduce (contextP c)) (PoolP 2) (PoolP 2).

(** One round of the digit loop of [switchKeysInPlace]. *)
Definition switchDigit (level : Z) (cx : pref) (key : option SwitchingKey)
    (i : Z) (reduce : Z) : M unit :=
  do c <- getCtx;
  run decomposeAndSplitNTT level i cx (KeySwitchPool 0) (PoolQ 0) (PoolP 0);
  do k <- lift key;
  do kp <- lift (k !! Z.to_nat i);
  run polyOp2 (MulCoeffsMontgomeryAndAddNoModLvl (contextQ c) level)
        (KeyPoly kp.1) (PoolQ 0) (PoolQ 1);
  run polyOp2 (MulCoeffsMontgomeryAndAddNoModLvl (contextQ c) level)
        (KeyPoly kp.2) (PoolQ 0) (PoolQ 2);
  run polyOp2 (accumulateKeyP c) (KeyPoly kp.1) (PoolP 0) (PoolP 1);
  run polyOp2 (accumulateKeyP c) (KeyPoly kp.2) (PoolP 0) (PoolP 2);
  if Z.land reduce 7 =? 1 then reducePools level else ret tt.

(** Modelled from the spec: [ModDownSplitedNTT] is absent from src; it computes
    "(valueQ - valueP)/P mod Q" on rows [0..level], using the last argument as
    scratch space that it overwrites. *)
Definition ModDownSplitedNTT (level : Z) (pQ pP out scratch : pref) : M unit :=
  do p1Q <- readP pQ;
  do p1P <- readP pP;
  do p2 <- readP out;
  do sc <- readP scratch;
  let k := rowsOf level in
  if decide (k ≤ length p1Q ∧ k ≤ length p2 ∧ k ≤ length sc
             ∧ length (modDownRows level (take k p1Q) p1P) = k)%nat
  then writeP out (modDownRows level (take k p1Q) p1P ++ drop k p2)
  else panic.

(** [switchKeysInPlace]. The digit count [ceil((level+1)/alpha)] is computed in
    floating point in the source; it is exact for the sizes that occur. *)
Definition switchKeysInPlace (cx : pref) (key : option SwitchingKey) (ctOut : eptr)
    : M unit :=
  do c <- getCtx;
  do level <- levelOf ctOut;
  run forRange 3 0 (fun i => zeroAt (PoolQ (Z.to_nat i)));
  run forRange 3 0 (fun i => zeroAt (PoolP (Z.to_nat i)));
  run polyOp1 (InvNTTLvl (contextQ c) level) cx (KeySwitchPool 0);
  let beta := (wrap64 (level + 1) + alpha c - 1) / alpha c in
  run forRange (Z.to_nat beta) 0 (fun i => switchDigit level cx key i i);
  run (if Z.land (wrap64 (beta - 1)) 7 =? 1 then ret tt else reducePools level);
  run ModDownSplitedNTT level (PoolQ 1) (PoolP 1) (PoolQ 1) (KeySwitchPool 0);
  run ModDownSplitedNTT level (PoolQ 2) (PoolP 2) (PoolQ 2) (KeySwitchPool 0);
  run polyOp2 (AddLvl (contextQ c) level) (Part ctOut 0) (PoolQ 1) (Part ctOut 0);
  polyOp2 (AddLvl (contextQ c) level) (Part ctOut 1) (PoolQ 2) (Part ctOut 1).

(** [SwitchKeys]. *)
Definition SwitchKeys (ct0 : eptr) (switchingKey : option SwitchingKey) (ctOut : eptr)
    : M unit :=
  do d0 <- degreeOf ct0;
  do dOut <- degreeOf ctOut;
  if negb (d0 =? 1) || negb (dOut =? 1) then panic
  else
    do c <- getCtx;
    do l0 <- levelOf ct0;
    do lo <- levelOf ctOut;
    let level := MinUint64 l0 lo in
    run polyOp1 (CopyLvl (contextQ c) level) (Part ct0 0) (Part ctOut 0);
    run polyOp1 (CopyLvl (contextQ c) level) (Part ct0 1) (Part ctOut 1);
    switchKeysInPlace (Part ct0 1) switchingKey ctOut.

(** *** Multiplication and relinearization *)

(** The three Montgomery products of a ciphertext-ciphertext multiplication. *)
Definition tensor (level : Z) (op0 op1 : eptr) (c00 c01 c0 c1 c2 : pref) : M unit :=
  do c <- getCtx;
  let context := contextQ c in
  run polyOp1 (MFormLvl context level) (Part op0 0) c00;
  run polyOp1 (MFormLvl context level) (Part op0 1) c01;
  if decide (op0 = op1) then
    run polyOp2 (MulCoeffsMontgomeryLvl context level) c00 (Part op1 0) c0;
    run polyOp2 (MulCoeffsMontgomeryLvl context level) c00 (Part op1 1) c1;
    run polyOp2 (AddLvl context level) c1 c1 c1;
    polyOp2 (MulCoeffsMontgomeryLvl context level) c01 (Part op1 1) c2
  else
    run polyOp2 (MulCoeffsMontgomeryLvl context level) c00 (Part op1 0) c0;
    run polyOp2 (MulCoeffsMontgomeryLvl context level) c00 (Part op1 1) c1;
    run polyOp2 (MulCoeffsMontgomeryAndAddNoModLvl context level) c01 (Part op1 0) c1;
    polyOp2 (MulCoeffsMontgomeryLvl context level) c01 (Part op1 1) c2.

(** [MulRelin]. *)
Definition MulRelin (op0 op1 : eptr) (evk : option EvaluationKey) (ctOut : eptr)
    : M unit :=
  do d0 <- degreeOf op0;
  do d1 <- degreeOf op1;
  run getElemAndCheckBinary op0 op1 ctOut (MaxUint64 d0 d1);
  do l0 <- levelOf op0;
  do l1 <- levelOf op1;
  do lo <- levelOf ctOut;
  let level := MinUint64 (MinUint64 l0 l1) lo in
  run (if level <? lo then do _ <- DropLevel ctOut (wrap64 (lo - level)); ret tt
       else ret tt);
  do e0 <- getEl op0;
  do e1 <- getEl op1;
  if (1 <? Degree e0) || (1 <? Degree e1) then panic
  else if negb (isNTT e0) then panic
  else if negb (isNTT e1) then panic
  else
    run setScaleAt ctOut (scale e0 * scale e1)%float;
    do c <- getCtx;
    let context := contextQ c in
    if wrap64 (Degree e0 + Degree e1) =? 2 then
      let c00 := RingPool 0 in
      let c01 := RingPool 1 in
      do dst <-
        (if decide (ctOut ≠ op0 ∧ ctOut ≠ op1) then
           match evk with
           | None => run resizeAt ctOut 2; ret (Part ctOut 0, Part ctOut 1, Part ctOut 2)
           | Some _ => ret (Part ctOut 0, Part ctOut 1, RingPool 4)
           end
         else ret (RingPool 2, RingPool 3, RingPool 4));
      let '(c0, c1, c2) := dst in
      run tensor level op0 op1 c00 c01 c0 c1 c2;
      match evk with
      | Some k =>
          run polyOp1 (CopyLvl context level) c0 (Part ctOut 0);
          run polyOp1 (CopyLvl context level) c1 (Part ctOut 1);
          switchKeysInPlace c2 (Some (evakey k)) ctOut
      | None =>
          if decide (ctOut = op0 ∨ ctOut = op1) then
            run resizeAt ctOut 2;
            run polyOp1 (CopyLvl context level) c0 (Part ctOut 0);
            run polyOp1 (CopyLvl context level) c1 (Part ctOut 1);
            polyOp1 (CopyLvl context level) c2 (Part ctOut 2)
          else ret tt
      end
    else
      let '(tmp0, tmp1) := if Degree e0 =? 1 then (op1, op0) else (op0, op1) in
      let c00 := RingPool 0 in
      run zeroAt c00;
      run polyOp1 (MFormLvl context level) (Part tmp0 0) c00;
      run polyOp2 (MulCoeffsMontgomeryLvl context level) c00 (Part tmp1 0) (Part ctOut 0);
      polyOp2 (MulCoeffsMontgomeryLvl context level) c00 (Part tmp1 1) (Part ctOut 1).

(** [MulRelinNew]. *)
Definition MulRelinNew (op0 op1 : eptr) (evk : option EvaluationKey) : M eptr :=
  do c <- getCtx;
  do e0 <- getEl op0;
  do e1 <- getEl op1;
  do l0 <- lift (Level e0);
  do l1 <- lift (Level e1);
  do ctOut <- alloc (NewCiphertextFromParams c 1 (MinUint64 l0 l1)
                       (scale e0 + scale e1)%float);
  run MulRelin op0 op1 evk ctOut;
  ret ctOut.

(** [Relinearize]. *)
Definition Relinearize (ct0 : eptr) (evk : option EvaluationKey) (ctOut : eptr)
    : M unit :=
  do d0 <- degreeOf ct0;
  if negb (d0 =? 2) then panic
  else
    run (if decide (ctOut ≠ ct0) then do s0 <- scaleOf ct0; setScaleAt ctOut s0
         else ret tt);
    do c <- getCtx;
    do l0 <- levelOf ct0;
    do lo <- levelOf ctOut;
    let level := MinUint64 l0 lo in
    run polyOp1 (CopyLvl (contextQ c) level) (Part ct0 0) (Part ctOut 0);
    run polyOp1 (CopyLvl (contextQ c) level) (Part ct0 1) (Part ctOut 1);
    do k <- lift evk;
    run switchKeysInPlace (Part ct0 2) (Some (evakey k)) ctOut;
    resizeAt ctOut 1.

(** *** Rotations *)

(** Modelled from the spec: [PermuteNTTWithIndex] is absent from src; it
    "applies a Galois automorphism index permutation" to every row of the input
    and stores the rows in the output. *)
Definition PermuteNTTWithIndex (index : option (list Z)) (polIn polOut : Poly)
    : option Poly :=
  idx ← index;
  if decide (length polIn ≤ length polOut)%nat
  then Some (map (permuteRow idx) polIn ++ drop (length polIn) polOut)
  else None.

(** [permuteNTT]. *)
Definition permuteNTT (ct0 : eptr) (index : option (list Z))
    (key : option SwitchingKey) (ctOut : eptr) : M unit :=
  let '(el0, el1) :=
    if decide (ct0 ≠ ctOut) then (Part ctOut 0, Part ctOut 1)
    else (RingPool 0, RingPool 1) in
  run polyOp1 (PermuteNTTWithIndex index) (Part ct0 0) el0;
  run polyOp1 (PermuteNTTWithIndex index) (Part ct0 1) el1;
  do c <- getCtx;
  do l0 <- levelOf ct0;
  do lo <- levelOf ctOut;
  let level := MinUint64 l0 lo in
  run polyOp1 (CopyLvl (contextQ c) level) el0 (Part ctOut 0);
  run polyOp1 (CopyLvl (contextQ c) level) el1 (Part ctOut 1);
  switchKeysInPlace (Part ctOut 1) key ctOut.

(** The loop [for k > 0] of [rotateColumnsPow2]; a [uint64] has 64 bits. *)
Fixpoint pow2Loop (fuel : nat) (k evakeyIndex : Z) (permuteNTTIndex : gmap Z (list Z))
    (evakeyRotCol : gmap Z SwitchingKey) (ctOut : eptr) : M unit :=
  match fuel with
  | O => if 0 <? k then panic else ret tt
  | S fuel' =>
      if 0 <? k then
        run (if Z.land k 1 =? 1 then
               permuteNTT ctOut (permuteNTTIndex !! evakeyIndex)
                 (evakeyRotCol !! evakeyIndex) ctOut
             else ret tt);
        pow2Loop fuel' (Z.shiftr k 1) (wrap64 (Z.shiftl evakeyIndex 1))
                 permuteNTTIndex evakeyRotCol ctOut
      else ret tt
  end.

(** [rotateColumnsPow2]. *)
Definition rotateColumnsPow2 (ct0 : eptr) (k : Z) (permuteNTTIndex : gmap Z (list Z))
    (evakeyRotCol : gmap Z SwitchingKey) (ctOut : eptr) : M unit :=
  do c <- getCtx;
  do l0 <- levelOf ct0;
  do lo <- levelOf ctOut;
  let level := MinUint64 l0 lo in
  run polyOp1 (CopyLvl (contextQ c) level) (Part ct0 0) (Part ctOut 0);
  run polyOp1 (CopyLvl (contextQ c) level) (Part ct0 1) (Part ctOut 1);
  pow2Loop 64 k 1 permuteNTTIndex evakeyRotCol ctOut.

Definition rotateColumnsLPow2 (ct0 : eptr) (k : Z) (rk : RotationKeys) (ctOut : eptr)
    : M unit :=
  rotateColumnsPow2 ct0 k (permuteNTTLeftIndex rk) (evakeyRotColLeft rk) ctOut.

Definition rotateColumnsRPow2 (ct0 : eptr) (k : Z) (rk : RotationKeys) (ctOut : eptr)
    : M unit :=
  rotateColumnsPow2 ct0 k (permuteNTTRightIndex rk) (evakeyRotColRight rk) ctOut.

(** The check [for i := 1; i < n>>1; i <<= 1] that every power-of-two rotation
    key exists on both sides. *)
Fixpoint hasPow2Rotations (fuel : nat) (i half : Z) (rk : RotationKeys) : bool :=
  match fuel with
  | O => true
  | S fuel' =>
      if i <? half then
        match evakeyRotColLeft rk !! i, evakeyRotColRight rk !! i with
        | Some _, Some _ => hasPow2Rotations fuel' (wrap64 (Z.shiftl i 1)) half rk
        | _, _ => false
        end
      else true
  end.

(** [RotateColumns]. *)
Definition RotateColumns (ct0 : eptr) (k : Z) (rotKeys : option RotationKeys)
    (ctOut : eptr) : M unit :=
  do d0 <- degreeOf ct0;
  do dOut <- degreeOf ctOut;
  if negb (d0 =? 1) || negb (dOut =? 1) then panic
  else
    do c <- getCtx;
    let half := Z.shiftr (n c) 1 in
    let k := Z.land k (wrap64 (half - 1)) in
    if k =? 0 then
      do e0 <- getEl ct0;
      do eo <- getEl ctOut;
      putEl ctOut (Copy eo e0)
    else
      do s0 <- scaleOf ct0;
      run setScaleAt ctOut s0;
      do rk <- lift rotKeys;
      match evakeyRotColLeft rk !! k with
      | Some key => permuteNTT ct0 (permuteNTTLeftIndex rk !! k) (Some key) ctOut
      | None =>
          if hasPow2Rotations 64 1 half rk then
            if HammingWeight64 k <=? HammingWeight64 (wrap64 (half - k)) then
              rotateColumnsLPow2 ct0 k rk ctOut
            else rotateColumnsRPow2 ct0 (wrap64 (half - k)) rk ctOut
          else panic
      end.

(** [RotateColumnsNew]. *)
Definition RotateColumnsNew (ct0 : eptr) (k : Z) (rotKeys : option RotationKeys)
    : M eptr :=
  do c <- getCtx;
  do e0 <- getEl ct0;
  do l0 <- lift (Level e0);
  do ctOut <- alloc (NewCiphertextFromParams c (Degree e0) l0 (scale e0));
  run RotateColumns ct0 k rotKeys ctOut;
  ret ctOut.

End WithKernels.

End Ckks.

(** ** Helpers of package ckks (ckks/utils.go) *)

Module Utils.

(** How a call that contains an unbounded loop ends. *)
Inductive Outcome (A : Type) : Type :=
| Returns (a : A)
| Panics
| OutOfFuel.

Arguments Returns {A} a.
Arguments Panics {A}.
Arguments OutOfFuel {A}.

(** *** [genBigIntChain] *)

(** The loop [for i := 1; i < len(Q); i++]: entry [i] is [Q[i]] times entry
    [i-1].  An entry of the slice made by [make] is a nil pointer until it is
    stored; multiplying by a nil entry panics. *)
Fixpoint chainLoop (Q : list Z) (count i : nat) (chain : list (option Z))
    : option (list (option Z)) :=
  match count with
  | O => Some chain
  | S count' =>
      qi ← Q !! i;
      match chain !! (i - 1)%nat with
      | Some (Some prev) =>
          if decide (i < length chain)%nat
          then chainLoop Q count' (S i) (<[i := Some (qi * prev)]> chain)
          else None
      | _ => None
      end
  end.

(** [genBigIntChain]: [bigintChain[0] = Q[0]] panics on an empty [Q]. *)
Definition genBigIntChain (Q : list Z) : option (list (option Z)) :=
  let chain := replicate (length Q) None in
  q0 ← Q !! 0%nat;
  if decide (0 < length chain)%nat
  then chainLoop Q (length Q - 1) 1 (<[0%nat := Some q0]> chain)
  else None.

(** *** [modVec] *)

(** [modVec]: [coeffs[i] = values[i] mod q] for every index of [values].
    [big.Int.Mod] is the Euclidean modulus and panics on a zero modulus. *)
Definition modVec (values : list Z) (q : Z) (coeffs : list Z) : option (list Z) :=
  foldl (fun acc i =>
           cs ← acc;
           v ← values !! i;
           if q =? 0 then None
           else if decide (i < length cs)%nat
                then Some (<[i := wrap64 (v mod q)]> cs) else None)
        (Some coeffs) (seq 0 (length values)).

(** *** [generateCKKSPrimes] *)

Section Primes.

(** [ring.IsPrime] belongs to package ring, which is not among the sources. *)
Variable IsPrime : Z → bool.

(** The search loop [for true { ... }]: the candidate [y] walks down from
    [2^logQ + 1] and the candidate [x] walks up from it, both in steps of
    [2N].  [None] when the fuel is used up. *)
Fixpoint primesLoop (fuel : nat) (levels _2N x y : Z) (primes : list Z)
    : option (list Z) :=
  match fuel with
  | O => None
  | S fuel' =>
      let primes1 := if IsPrime y then primes ++ [y] else primes in
      if IsPrime y && (wrap64 (Z.of_nat (length primes1)) =? levels)
      then Some primes1
      else
        let y' := wrap64 (y - _2N) in
        let primes2 := if IsPrime x then primes1 ++ [x] else primes1 in
        if IsPrime x && (wrap64 (Z.of_nat (length primes2)) =? levels)
        then Some primes2
        else primesLoop fuel' levels _2N (wrap64 (x + _2N)) y' primes2
  end.

(** [generateCKKSPrimes]. *)
Definition generateCKKSPrimes (fuel : nat) (logQ logN levels : Z)
    : Outcome (list Z) :=
  if 60 <? logQ then Panics
  else
    let Qpow2 := wrap64 (Z.shiftl 1 logQ) in
    let _2N := wrap64 (Z.shiftl 2 logN) in
    let x := wrap64 (Qpow2 + 1) in
    let y := wrap64 (Qpow2 + 1) in
    match primesLoop fuel levels _2N x y [] with
    | Some primes => Returns primes
    | None => OutOfFuel
    end.

(** *** [genModuli] *)

(** The loops [primesbitlen[uint64(qi)]++] over the bit sizes: an absent key
    reads as 0, and a bit size above 60 panics. *)
Definition countBitLen (m : gmap Z Z) (sizes : list Z) : option (gmap Z Z) :=
  foldl (fun acc qi =>
           m ← acc;
           let m' := <[qi := wrap64 (default 0 (m !! qi) + 1)]> m in
           if 60 <? qi then None else Some m')
        (Some m) sizes.

(** [for key, value := range primesbitlen { primes[key] = generateCKKSPrimes(key, LogN, value) }].
    Go visits the entries of a map in an unspecified order; here they are
    visited in the order of [map_to_list]. *)
Definition genPrimes (fuel : nat) (logN : Z) (entries : list (Z * Z))
    : Outcome (gmap Z (list Z)) :=
  foldl (fun acc kv =>
           match acc with
           | Returns pm =>
               match generateCKKSPrimes fuel kv.1 logN kv.2 with
               | Returns l => Returns (<[kv.1 := l]> pm)
               | Panics => Panics
               | OutOfFuel => OutOfFuel
               end
           | o => o
           end)
        (Returns ∅) entries.

(** [Q[i] = primes[qi][0]; primes[qi] = primes[qi][1:]] for every bit size.
    An absent key reads as the nil slice, whose entry 0 is out of range. *)
Fixpoint assignPrimes (pm : gmap Z (list Z)) (sizes : list Z)
    : option (list Z * gmap Z (list Z)) :=
  match sizes with
  | [] => Some ([], pm)
  | qi :: rest =>
      match default [] (pm !! qi) with
      | [] => None
      | x :: tl =>
          '(out, pm') ← assignPrimes (<[qi := tl]> pm) rest;
          Some (x :: out, pm')
      end
  end.

(** [genModuli], on the fields [Q], [P] and [LogN] of the parameters. *)
Definition genModuli (fuel : nat) (paramsQ paramsP : list Z) (logN : Z)
    : Outcome (list Z * list Z) :=
  match countBitLen ∅ paramsQ with
  | None => Panics
  | Some m1 =>
      match countBitLen m1 paramsP with
      | None => Panics
      | Some primesbitlen =>
          match genPrimes fuel logN (map_to_list primesbitlen) with
          | Returns primes =>
              match assignPrimes primes paramsQ with
              | None => Panics
              | Some (Q, primes') =>
                  match assignPrimes primes' paramsP with
                  | None => Panics
                  | Some (P, _) => Returns (Q, P)
                  end
              end
          | Panics => Panics
          | OutOfFuel => OutOfFuel
          end
      end
  end.

End Primes.

(** *** [sliceBitReverseInPlaceComplex128] *)

(** The inner loop [for j >= bit { j -= bit; bit >>= 1 }].  [bit] starts below
    [2^63] and is halved in every round, so after 64 rounds it is 0 and the
    loop condition stays true for ever: with 65 units of fuel, running out of
    fuel means that the loop does not end. *)
Fixpoint revIncLoop (fuel : nat) (j bit : Z) : option (Z * Z) :=
  match fuel with
  | O => None
  | S fuel' =>
      if bit <=? j then revIncLoop fuel' (j - bit) (Z.shiftr bit 1)
      else Some (j, bit)
  end.

(** [slice[i], slice[j] = slice[j], slice[i]]. *)
Definition swap {A} (slice : list A) (i j : nat) : option (list A) :=
  a ← slice !! i;
  b ← slice !! j;
  Some (<[j := a]> (<[i := b]> slice)).

(** The outer loop [for i := uint64(1); i < N; i++]. *)
Fixpoint bitRevLoop {A} (count : nat) (i j N : Z) (slice : list A)
    : Outcome (list A) :=
  match count with
  | O => Returns slice
  | S count' =>
      match revIncLoop 65 j (Z.shiftr N 1) with
      | None => OutOfFuel
      | Some (j1, bit) =>
          let j2 := wrap64 (j1 + bit) in
          if i <? j2 then
            match swap slice (Z.to_nat i) (Z.to_nat j2) with
            | Some slice' => bitRevLoop count' (i + 1) j2 N slice'
            | None => Panics
            end
          else bitRevLoop count' (i + 1) j2 N slice
      end
  end.

(** [sliceBitReverseInPlaceComplex128]; the element type plays no role. *)
Definition sliceBitReverseInPlace {A} (slice : list A) (N : Z) : Outcome (list A) :=
  bitRevLoop (Z.to_nat (N - 1)) 1 0 N slice.

End Utils.

(** ** More routines of the evaluator (package ckks) *)

Module CkksMore.
Import RingPkg Elem Ckks.

Section WithKernels.
Context `{K : Kernels}.

(** *** Negation and reduction *)

(** [Neg]. *)
Definition Neg (ct0 ctOut : eptr) : M unit :=
  do c <- getCtx;
  do l0 <- levelOf ct0;
  do lo <- levelOf ctOut;
  let level := MinUint64 l0 lo in
  do d0 <- degreeOf ct0;
  do dOut <- degreeOf ctOut;
  if negb (d0 =? dOut) then panic
  else
    do e0 <- getEl ct0;
    forRange (length (value e0)) 0 (fun i =>
      polyOp1 (NegLvl (contextQ c) level)
        (Part ct0 (Z.to_nat i)) (Part ctOut (Z.to_nat i))).

(** [Reduce] of the evaluator: a degree mismatch is an error, not a panic. *)
Definition Reduce (ct0 ctOut : eptr) : M GoError :=
  do d0 <- degreeOf ct0;
  do dOut <- degreeOf ctOut;
  if negb (d0 =? dOut) then ret ErrNew
  else
    do c <- getCtx;
    do e0 <- getEl ct0;
    run forRange (length (value e0)) 0 (fun i =>
          do l0 <- levelOf ct0;
          do lo <- levelOf ctOut;
          polyOp1 (ReduceLvl (contextQ c) (MinUint64 l0 lo))
            (Part ct0 (Z.to_nat i)) (Part ctOut (Z.to_nat i)));
    ret ErrNil.

(** *** Addition of a constant *)






(** *** Conjugation *)

(** [Conjugate]: a nil key set is dereferenced, which panics. *)
Definition Conjugate (ct0 : eptr) (rotKeys : option RotationKeys) (ctOut : eptr)
    : M unit :=
  do d0 <- degreeOf ct0;
  do dOut <- degreeOf ctOut;
  if negb (d0 =? 1) || negb (dOut =? 1) then panic
  else
    do rk <- lift rotKeys;
    match evakeyConjugate rk with
    | None => panic
    | Some key =>
        do s0 <- scaleOf ct0;
        run setScaleAt ctOut s0;
        permuteNTT ct0 (Some (permuteNTTConjugateIndex rk)) (Some key) ctOut
    end.

(** *** Results in newly created elements *)

(** [newCiphertextBinary]. *)
Definition newCiphertextBinary (op0 op1 : eptr) : M eptr :=
  do c <- getCtx;
  do e0 <- getEl op0;
  do e1 <- getEl op1;
  let maxDegree := MaxUint64 (Degree e0) (Degree e1) in
  let maxScale := MaxFloat64 (scale e0) (scale e1) in
  do l0 <- lift (Level e0);
  do l1 <- lift (Level e1);
  alloc (NewCiphertextFromParams c maxDegree (MinUint64 l0 l1) maxScale).

(** [AddNew]. *)
Definition AddNew (op0 op1 : eptr) : M eptr :=
  do ctOut <- newCiphertextBinary op0 op1;
  run Add op0 op1 ctOut;
  ret ctOut.

(** [SubNew]. *)
Definition SubNew (op0 op1 : eptr) : M eptr :=
  do ctOut <- newCiphertextBinary op0 op1;
  run Sub op0 op1 ctOut;
  ret ctOut.

(** [SwitchKeysNew]. *)
Definition SwitchKeysNew (ct0 : eptr) (switchingKey : option SwitchingKey) : M eptr :=
  do c <- getCtx;
  do e0 <- getEl ct0;
  do l0 <- lift (Level e0);
  do ctOut <- alloc (NewCiphertextFromParams c (Degree e0) l0 (scale e0));
  run SwitchKeys ct0 switchingKey ctOut;
  ret ctOut.

(** *** Scaling up *)


End WithKernels.

End CkksMore.

(** * Properties *)

(** ** The sparse ternary sampler *)

Module SamplerProofs.
Import RingPkg Sampler.

(** The ring and the sampler of the example: degree 8, two moduli, weight 3,
    and a source whose bytes are all zero. *)
Definition exampleRing : Ring := mkRing 8 [17; 97].
Definition exampleSampler : TernarySampler :=
  NewTernarySamplerSparse zeroSource exampleRing 3 false.

(** C1 (the code departs from the claim).  [sampleSparse] selects the stored
    value with [matrixValues[i][coeff]], where [coeff] is the sign bit, 0 or 1.
    Entry 0 of the table is the image of 0 and entry 2, the image of -1, is
    never selected.  With a source whose sign bits are all 0 the sampler of
    weight 3 over degree 8 returns the zero polynomial: no coefficient is
    nonzero, whereas the claim requires exactly min(3, 8) = 3 of them. *)
Theorem sampleSparse_zero_sign_bits_lose_weight :
  ∃ ts', sampleSparse 5 exampleSampler (NewPoly exampleRing)
         = Some (NewPoly exampleRing, ts')
       ∧ hw ts' = 3
       ∧ Forall (fun row => hammingWeight row = 0%nat) (NewPoly exampleRing)
       ∧ Z.min 3 (N exampleRing) = 3.
Proof.
  eexists. split; [vm_compute; reflexivity|].
  repeat split; repeat constructor.
Qed.

End SamplerProofs.

(** ** The collective key-switching protocol *)

Module DckksProofs.
Import RingPkg Elem Dckks.

(** Row-wise sum of two polynomials over a list of moduli. *)
Definition polyAdd (moduli : list Z) (a b : Poly) : Poly :=
  zip_with (fun q ab => addRow q ab.1 ab.2) moduli (zip a b).

(** A full-level share of the ring: one reduced row of [N] coefficients per
    modulus. *)
Definition wfShare (r : Ring) (s : Poly) : Prop :=
  Forall2 (reducedRow (N r)) (Modulus r) s.

(** The ring of the protocol: word-sized moduli, fewer than [2^64] of them. *)
Definition wfRing (r : Ring) : Prop :=
  validModuli r ∧ Z.of_nat (length (Modulus r)) < 2 ^ 64 ∧ 0 <= N r.

(** The sum of a list of shares. *)
Definition polySum (r : Ring) (l : list Poly) : Poly :=
  foldr (polyAdd (Modulus r)) (NewPoly r) l.

Lemma rowsOf_pred_length (k : nat) :
  Z.of_nat k < 2 ^ 64 → rowsOf (wrap64 (Z.of_nat k - 1)) = k.
Proof.
  intros Hk. unfold rowsOf, wrap64.
  destruct k as [|k].
  - reflexivity.
  - rewrite (Z.mod_small (Z.of_nat (S k) - 1)) by lia.
    rewrite Z.mod_small by lia. lia.
Qed.

Lemma CRed_add_reduced x y q :
  0 <= x < q → 0 <= y < q → q < 2 ^ 61 →
  CRed (wrap64 (x + y)) q = (x + y) mod q.
Proof.
  intros Hx Hy Hq. unfold CRed, wrap64.
  rewrite (Z.mod_small (x + y) (2 ^ 64)) by lia.
  destruct (Z.ltb_spec (x + y) q).
  - rewrite Z.mod_small; lia.
  - apply Z.mod_unique with (q := 1); lia.
Qed.

Lemma addRow_comm q (a b : Row) : addRow q a b = addRow q b a.
Proof.
  unfold addRow. revert b. induction a as [|x a IH]; intros [|y b]; simpl; try done.
  by rewrite IH, (Z.add_comm x y).
Qed.

Lemma addRow_reduced n q (a b : Row) :
  1 < q < 2 ^ 61 → reducedRow n q a → reducedRow n q b → reducedRow n q (addRow q a b).
Proof.
  intros Hq [Hla Ha] [Hlb Hb]. split.
  - unfold addRow. rewrite length_zip_with. lia.
  - unfold addRow. clear Hla Hlb. revert b Hb.
    induction Ha as [|x a Hx Ha IH]; intros b Hb; [constructor|].
    destruct Hb as [|y b Hy Hb]; simpl; constructor; [|by apply IH].
    rewrite CRed_add_reduced by lia. apply Z.mod_pos_bound. lia.
Qed.

Lemma addRow_assoc n q (a b c : Row) :
  1 < q < 2 ^ 61 → reducedRow n q a → reducedRow n q b → reducedRow n q c →
  addRow q (addRow q a b) c = addRow q a (addRow q b c).
Proof.
  intros Hq [_ Ha] [_ Hb] [_ Hc]. unfold addRow.
  revert b c Hb Hc. induction Ha as [|x a Hx Ha IH]; intros b c Hb Hc; [done|].
  destruct Hb as [|y b Hy Hb]; [done|].
  destruct Hc as [|z c Hz Hc]; [done|]. simpl. f_equal; [|by apply IH].
  rewrite (CRed_add_reduced x y), (CRed_add_reduced y z) by lia.
  rewrite !CRed_add_reduced by (try apply Z.mod_pos_bound; lia).
  rewrite Z.add_mod_idemp_l, Z.add_mod_idemp_r by lia. f_equal. lia.
Qed.

Lemma addRow_zero_l n q (a : Row) :
  1 < q < 2 ^ 61 → reducedRow n q a →
  addRow q (replicate (Z.to_nat n) 0) a = a.
Proof.
  intros Hq [Hl Ha]. rewrite <- Hl. clear Hl. unfold addRow.
  induction Ha as [|x a Hx Ha IH]; [done|]. simpl. f_equal; [|done].
  rewrite CRed_add_reduced by lia. apply Z.mod_small. lia.
Qed.

Section Shares.
Variable r : Ring.
Hypothesis Hr : wfRing r.

Lemma polyAdd_wf a b : wfShare r a → wfShare r b → wfShare r (polyAdd (Modulus r) a b).
Proof.
  destruct Hr as (Hv & _ & _). unfold wfShare, polyAdd, validModuli in *.
  intros Ha. revert b Hv. induction Ha as [|q x qs a Hx Ha IH]; intros b Hv Hb.
  - inversion Hb. constructor.
  - inversion Hb as [|? y ? b' Hy Hb']; subst. inversion Hv; subst. simpl.
    constructor; [by apply addRow_reduced | by apply IH].
Qed.

Lemma polyAdd_comm a b : polyAdd (Modulus r) a b = polyAdd (Modulus r) b a.
Proof.
  unfold polyAdd. generalize (Modulus r) as qs. revert b.
  induction a as [|x a IH]; intros [|y b] [|q qs]; simpl; try done.
  by rewrite addRow_comm, IH.
Qed.

Lemma polyAdd_assoc a b c :
  wfShare r a → wfShare r b → wfShare r c →
  polyAdd (Modulus r) (polyAdd (Modulus r) a b) c
  = polyAdd (Modulus r) a (polyAdd (Modulus r) b c).
Proof.
  destruct Hr as (Hv & _ & _). unfold wfShare, polyAdd, validModuli in *.
  intros Ha. revert b c Hv. induction Ha as [|q x qs a Hx Ha IH]; intros b c Hv Hb Hc.
  - done.
  - inversion Hb as [|? y ? b' Hy Hb']; subst.
    inversion Hc as [|? z ? c' Hz Hc']; subst. inversion Hv; subst. simpl.
    f_equal; [by eapply addRow_assoc | by apply IH].
Qed.

Lemma NewPoly_wf : wfShare r (NewPoly r).
Proof.
  destruct Hr as (Hv & _ & HN). unfold wfShare, NewPoly, validModuli in *.
  induction Hv as [|q qs Hq Hv IH]; simpl; constructor; [|done].
  split; [by rewrite length_replicate|].
  apply Forall_replicate. lia.
Qed.

Lemma polyAdd_zero_l a : wfShare r a → polyAdd (Modulus r) (NewPoly r) a = a.
Proof.
  destruct Hr as (Hv & _ & _). unfold wfShare, polyAdd, NewPoly, validModuli in *.
  intros Ha. induction Ha as [|q x qs a Hx Ha IH]; [done|].
  inversion Hv; subst. simpl. f_equal; [by eapply addRow_zero_l | by apply IH].
Qed.

Lemma polySum_wf l : Forall (wfShare r) l → wfShare r (polySum r l).
Proof.
  induction 1; simpl; [apply NewPoly_wf | by apply polyAdd_wf].
Qed.

Lemma polySum_perm l1 l2 :
  Forall (wfShare r) l1 → l1 ≡ₚ l2 → polySum r l1 = polySum r l2.
Proof.
  intros Hwf Hp. induction Hp as [|x l1 l2 Hp IH|x y l|l1 l2 l3 Hp1 IH1 Hp2 IH2].
  - done.
  - simpl. f_equal. apply IH. by inversion Hwf.
  - simpl. inversion Hwf as [|? ? Hy Hwf']; subst. inversion Hwf' as [|? ? Hx Hl]; subst.
    rewrite <- !polyAdd_assoc by (done || by apply polySum_wf).
    f_equal. apply polyAdd_comm.
  - rewrite IH1 by done. apply IH2. by rewrite <- Hp1.
Qed.

Lemma polySum_app l1 l2 :
  Forall (wfShare r) l1 → Forall (wfShare r) l2 →
  polySum r (l1 ++ l2) = polyAdd (Modulus r) (polySum r l1) (polySum r l2).
Proof.
  intros H1 H2. induction H1 as [|x l1 Hx H1 IH]; simpl.
  - symmetry. apply polyAdd_zero_l. by apply polySum_wf.
  - rewrite IH. symmetry. apply polyAdd_assoc; auto using polySum_wf.
Qed.

End Shares.


Lemma AggregateShares_rows (cks : CKSProtocol) (s1 s2 out : CKSShare) :
  Z.of_nat (length s1) < 2 ^ 64 →
  (length s1 ≤ length (Modulus (ringQ cks)))%nat →
  (length s1 ≤ length s2)%nat → (length s1 ≤ length out)%nat →
  AggregateShares cks s1 s2 out
  = Some (polyAdd (Modulus (ringQ cks)) s1 s2 ++ drop (length s1) out).
Proof.
  intros Hlt Hq H2 Ho. unfold AggregateShares, AddLvl, lvl2.
  rewrite rowsOf_pred_length by done.
  rewrite decide_True by done. f_equal. f_equal.
  unfold polyAdd. rewrite (take_ge s1) by done.
  rewrite zip_with_take_l' by (rewrite length_zip_with, length_take; lia).
  f_equal. unfold zip. apply zip_with_take_r'. lia.
Qed.

Lemma AggregateShares_short (cks : CKSProtocol) (s1 s2 out : CKSShare) :
  Z.of_nat (length s1) < 2 ^ 64 →
  (length s2 < length s1 ∨ length out < length s1)%nat →
  AggregateShares cks s1 s2 out = None.
Proof.
  intros Hlt Hs. unfold AggregateShares, AddLvl, lvl2.
  rewrite rowsOf_pred_length by done.
  apply decide_False. lia.
Qed.

Lemma wfShare_length r s : wfShare r s → length s = length (Modulus r).
Proof. intros H. symmetry. by eapply Forall2_length. Qed.

Lemma AggregateShares_full (cks : CKSProtocol) (s1 s2 out : CKSShare) :
  wfRing (ringQ cks) → wfShare (ringQ cks) s1 → wfShare (ringQ cks) s2 →
  length out = length (Modulus (ringQ cks)) →
  AggregateShares cks s1 s2 out = Some (polyAdd (Modulus (ringQ cks)) s1 s2).
Proof.
  intros Hr H1 H2 Ho. pose proof (wfShare_length _ _ H1) as L1.
  pose proof (wfShare_length _ _ H2) as L2. destruct Hr as (_ & Hlen & _).
  rewrite AggregateShares_rows by lia.
  rewrite drop_ge by lia. by rewrite app_nil_r.
Qed.

Lemma AllocateShare_length cks :
  length (AllocateShare cks) = length (Modulus (ringQ cks)).
Proof. unfold AllocateShare, NewPoly. by rewrite length_map. Qed.

Lemma aggregateTree_sum (cks : CKSProtocol) (t : AggTree) :
  wfRing (ringQ cks) → Forall (wfShare (ringQ cks)) (leaves t) →
  aggregateTree cks t = Some (polySum (ringQ cks) (leaves t)).
Proof.
  intros Hr. induction t as [s|l IHl r IHr]; simpl; intros Hwf.
  - inversion Hwf; subst. f_equal.
    rewrite polyAdd_comm. symmetry. by apply polyAdd_zero_l.
  - apply Forall_app in Hwf as [Hl Hrr].
    rewrite IHl, IHr by done. simpl.
    rewrite AggregateShares_full;
      auto using polySum_wf, AllocateShare_length.
    by rewrite polySum_app.
Qed.

(** The claim as it is written: whatever the two lengths, the call returns and
    its first [min] rows are the row-wise sums. *)
Definition aggregatesOverMin (cks : CKSProtocol) (s1 s2 out : CKSShare) : Prop :=
  ∃ res, AggregateShares cks s1 s2 out = Some res
         ∧ take (length s1 `min` length s2) res
           = polyAdd (Modulus (ringQ cks)) s1 s2.

(** A protocol instance over two small moduli, degree 1. *)
Definition exampleCKS : CKSProtocol :=
  NewCKSProtocol (mkRing 1 [5; 7]) (mkRing 1 [11]) 0.

(** C2 (counterexample to the claim as stated).  [AggregateShares] takes its
    level from [share1] alone: with a two-row [share1] and a one-row [share2] it
    indexes a row that [share2] does not have and panics, instead of adding
    over the first min(2, 1) = 1 rows. *)
Lemma AggregateShares_not_over_min :
  ¬ aggregatesOverMin exampleCKS [[1]; [1]] [[1]] [[0]; [0]].
Proof. intros (res & H & _). vm_compute in H. discriminate. Qed.

(** C2 (amended).  [AggregateShares] adds row-wise, modulo each prime, over the
    first [len(share1)] rows, which requires [share2] and the receiver to have
    at least that many rows (so that this count is the minimum of the
    lengths); it panics when one of them is shorter.  On full-level shares
    with reduced coefficients the operation is commutative and associative, and
    every aggregation tree over the same multiset of shares returns the same
    combined share. *)
Theorem AggregateShares_amended (cks : CKSProtocol) :
  wfRing (ringQ cks) →
  let Q := Modulus (ringQ cks) in
  let wf := wfShare (ringQ cks) in
  (∀ s1 s2 out : CKSShare,
     Z.of_nat (length s1) < 2 ^ 64 → (length s1 ≤ length Q)%nat →
     (length s1 ≤ length s2)%nat → (length s1 ≤ length out)%nat →
     AggregateShares cks s1 s2 out = Some (polyAdd Q s1 s2 ++ drop (length s1) out)
     ∧ length s1 = (length s1 `min` length s2)%nat)
  ∧ (∀ s1 s2 out : CKSShare,
       Z.of_nat (length s1) < 2 ^ 64 →
       (length s2 < length s1 ∨ length out < length s1)%nat →
       AggregateShares cks s1 s2 out = None)
  ∧ (∀ s1 s2 out : CKSShare,
       wf s1 → wf s2 → length out = length Q →
       AggregateShares cks s1 s2 out = AggregateShares cks s2 s1 out
       ∧ ∃ res, AggregateShares cks s1 s2 out = Some res ∧ wf res)
  ∧ (∀ s1 s2 s3 o1 o2 o3 o4 : CKSShare,
       wf s1 → wf s2 → wf s3 →
       length o1 = length Q → length o2 = length Q →
       length o3 = length Q → length o4 = length Q →
       (AggregateShares cks s1 s2 o1 ≫= λ a, AggregateShares cks a s3 o2)
       = (AggregateShares cks s2 s3 o3 ≫= λ b, AggregateShares cks s1 b o4))
  ∧ (∀ t1 t2 : AggTree,
       Forall wf (leaves t1) → leaves t1 ≡ₚ leaves t2 →
       aggregateTree cks t1 = aggregateTree cks t2
       ∧ is_Some (aggregateTree cks t1)).
Proof.
  intros Hr Q wf. repeat split.
  - by apply AggregateShares_rows.
  - lia.
  - intros. by apply AggregateShares_short.
  - rewrite !AggregateShares_full by done. f_equal. apply polyAdd_comm.
  - eexists. split; [by apply AggregateShares_full|]. by apply polyAdd_wf.
  - intros s1 s2 s3 o1 o2 o3 o4 H1 H2 H3 L1 L2 L3 L4.
    rewrite (AggregateShares_full cks s1 s2), (AggregateShares_full cks s2 s3) by done.
    simpl. rewrite !AggregateShares_full by (done || by apply polyAdd_wf).
    f_equal. by apply polyAdd_assoc.
  - assert (Forall wf (leaves t2)) by (by rewrite <- H0).
    rewrite !aggregateTree_sum by done. f_equal. by apply polySum_perm.
  - rewrite aggregateTree_sum by done. by eexists.
Qed.

(** The amended statement at the example instance: three parties' shares,
    aggregated along two different trees. *)
Lemma AggregateShares_amended_witness :
  wfRing (ringQ exampleCKS)
  ∧ aggregateTree exampleCKS (Node (Node (Leaf [[1]; [6]]) (Leaf [[4]; [3]])) (Leaf [[2]; [5]]))
    = aggregateTree exampleCKS (Node (Leaf [[2]; [5]]) (Node (Leaf [[4]; [3]]) (Leaf [[1]; [6]]))).
Proof.
  assert (Hr : wfRing (ringQ exampleCKS)).
  { split; [|split]; [|vm_compute; reflexivity|vm_compute; discriminate].
    repeat constructor. }
  split; [exact Hr|].
  pose proof (AggregateShares_amended exampleCKS Hr) as (_ & _ & _ & _ & Htree).
  apply Htree.
  - simpl. repeat (constructor; [repeat (constructor || split || lia)|]). constructor.
  - simpl. apply (Permutation_rev [[[1]; [6]]; [[4]; [3]]; [[2]; [5]]]).
Defined.


Lemma CopyLvl_rows (r : Ring) (level : Z) (p1 p2 : Poly) :
  (rowsOf level ≤ length (Modulus r))%nat →
  (rowsOf level ≤ length p1)%nat → (rowsOf level ≤ length p2)%nat →
  CopyLvl r level p1 p2 = Some (take (rowsOf level) p1 ++ drop (rowsOf level) p2).
Proof.
  intros Hq H1 H2. unfold CopyLvl, lvl1. rewrite decide_True by done.
  f_equal. f_equal. unfold copyRow.
  assert (Hl : (length (take (rowsOf level) p1) ≤ length (take (rowsOf level) (Modulus r)))%nat)
    by (rewrite !length_take; lia).
  revert Hl. generalize (take (rowsOf level) (Modulus r)) as qs.
  induction (take (rowsOf level) p1) as [|x l IH]; intros [|q qs] Hl; simpl in *;
    try done; try lia.
  f_equal. apply IH. lia.
Qed.

Lemma AddLvl_rows (r : Ring) (level : Z) (p1 p2 p3 : Poly) :
  (rowsOf level ≤ length (Modulus r))%nat →
  (rowsOf level ≤ length p1)%nat → (rowsOf level ≤ length p2)%nat →
  (rowsOf level ≤ length p3)%nat →
  AddLvl r level p1 p2 p3
  = Some (polyAdd (Modulus r) (take (rowsOf level) p1) p2 ++ drop (rowsOf level) p3).
Proof.
  intros Hq H1 H2 H3. unfold AddLvl, lvl2. rewrite decide_True by done.
  f_equal. f_equal. unfold polyAdd.
  rewrite zip_with_take_l' by (rewrite length_zip_with, !length_take; lia).
  f_equal. unfold zip. apply zip_with_take_r'. rewrite length_take. lia.
Qed.

(** C3.  [KeySwitch] on a degree-1 ciphertext [ct] (parts [ct0], [ct1], each of
    [ct.Level()+1] rows) with a combined share and a receiver that have at
    least these rows: the first part of the output is the row-wise modular sum
    [ct0 + combined] over the first [ct.Level()+1] rows, the second part is
    [ct1], and the scale is the scale of [ct]. *)
Theorem KeySwitch_output (cks : CKSProtocol) (combined : CKSShare)
    (ct ctOut : Element) (ct0 ct1 out0 out1 : Poly) :
  value ct = [ct0; ct1] → value ctOut = [out0; out1] →
  Z.of_nat (length ct0) < 2 ^ 64 → length ct1 = length ct0 →
  (length ct0 ≤ length (Modulus (ringQ cks)))%nat →
  (length ct0 ≤ length combined)%nat →
  (length ct0 ≤ length out0)%nat → (length ct0 ≤ length out1)%nat →
  ∃ res,
    KeySwitch cks combined ct ctOut = Some res
    ∧ Level ct = Some (wrap64 (Z.of_nat (length ct0) - 1))
    ∧ rowsOf (wrap64 (Z.of_nat (length ct0) - 1)) = length ct0
    ∧ value res = [polyAdd (Modulus (ringQ cks)) ct0 combined ++ drop (length ct0) out0;
                   ct1 ++ drop (length ct0) out1]
    ∧ (length out1 = length ct0 → value res !! 1%nat = Some ct1)
    ∧ scale res = scale ct.
Proof.
  intros Hct Hout Hlt Hl1 Hq Hc Ho0 Ho1.
  pose proof (rowsOf_pred_length _ Hlt) as Hrows.
  destruct ct as [v s b], ctOut as [vo so bo]. simpl in *. subst v vo.
  unfold KeySwitch, Level. simpl.
  rewrite AddLvl_rows by (rewrite Hrows; lia). simpl.
  rewrite CopyLvl_rows by (rewrite Hrows; lia). simpl.
  eexists. split; [reflexivity|]. split; [done|]. split; [done|].
  simpl. rewrite Hrows.
  rewrite (take_ge ct0), (take_ge ct1) by lia. split; [done|]. split; [|done].
  intros Hl. rewrite drop_ge by lia. by rewrite app_nil_r.
Qed.

(** A two-row ciphertext over the example instance, switched into itself. *)
Definition exampleCt : Element :=
  mkElement [[[1]; [2]]; [[3]; [4]]] 1024%float true.

Lemma KeySwitch_output_witness :
  ∃ res, KeySwitch exampleCKS [[4]; [6]] exampleCt exampleCt = Some res
         ∧ value res = [[[0]; [1]]; [[3]; [4]]] ∧ scale res = 1024%float.
Proof.
  destruct (KeySwitch_output exampleCKS [[4]; [6]] exampleCt exampleCt
              [[1]; [2]] [[3]; [4]] [[1]; [2]] [[3]; [4]])
    as (res & Hres & _ & _ & Hv & _ & Hs);
    try reflexivity; try (simpl; lia).
  exists res. split; [exact Hres|]. split; [exact Hv|exact Hs].
Defined.

End DckksProofs.

(** ** The evaluator *)

Module CkksProofs.
Import RingPkg Elem Ckks.

(** Every part of the element has [k] rows. *)
Definition rowsEl (k : nat) (el : Element) : Prop :=
  value el ≠ [] ∧ Forall (fun p : Poly => length p = k) (value el).

(** One round of the rescaling loop, as the claim words it: divide the tracked
    scale by the last active modulus and divide it out of every part. *)
Definition rescaleStep `{K : Kernels} (moduli : list Z) (el : Element)
    : option Element :=
  lvl ← Level el;
  q ← moduli !! Z.to_nat lvl;
  eachPart DivRoundByLastModulusNTT (DivScale el (float64_of_uint64 q)).

Fixpoint rescaleSteps `{K : Kernels} (k : nat) (moduli : list Z) (el : Element)
    : option Element :=
  match k with
  | O => Some el
  | S k' => el' ← rescaleStep moduli el; rescaleSteps k' moduli el'
  end.

(** The loop condition: the scale is at least [threshold * lastModulus / 2]
    and the level is not 0. *)
Definition continues (moduli : list Z) (threshold : float) (el : Element)
    : option bool :=
  lvl ← Level el;
  q ← moduli !! Z.to_nat lvl;
  Some (aboveThreshold (scale el) threshold q && negb (lvl =? 0)).

(** The scale after [k] divisions by the moduli at levels [lvl, lvl-1, ...]. *)
Fixpoint scaleAfter (k : nat) (lvl : Z) (moduli : list Z) (s : float) : option float :=
  match k with
  | O => Some s
  | S k' =>
      q ← moduli !! Z.to_nat lvl;
      scaleAfter k' (lvl - 1) moduli (s / float64_of_uint64 q)%float
  end.

(** Kernels for the examples: the rows are left as they are, except that the
    Montgomery product is the product modulo [q]. *)
Definition exampleKernels : Kernels := {|
  MRed := fun a b q => (a * b) mod q;
  nttRow := fun _ row => row;
  invNTTRow := fun _ row => row;
  nttPsi1 := fun _ => 1;
  mulScalarRow := fun q x row => map (fun a => (a * x) mod q) row;
  divRoundRow := fun _ row _ => row;
  decomposeRows := fun _ _ p => (p, take 1 p);
  modDownRows := fun _ pQ _ => pQ;
  permuteRow := fun _ row => row;
  gaussianRow := fun g q => [g mod q];
  gaussianNext := fun g => g + 1
|}.

Section WithKernels.
Context `{K : Kernels}.

(** *** Running the monad *)

Lemma bind_Some {A B} (m : M A) (f : A → M B) s a s' :
  m s = Some (a, s') → bind m f s = f a s'.
Proof. unfold bind. by intros ->. Qed.

Lemma bind_None {A B} (m : M A) (f : A → M B) s :
  m s = None → bind m f s = None.
Proof. unfold bind. by intros ->. Qed.

Lemma getEl_Addr s a el : heap s !! a = Some el → getEl (Addr a) s = Some (el, s).
Proof. unfold getEl, lift. by intros ->. Qed.

Lemma putEl_Addr s a el el' :
  heap s !! a = Some el' →
  putEl (Addr a) el s = Some (tt, mkStore (ev s) (<[a := el]> (heap s))).
Proof.
  intros H. unfold putEl. rewrite decide_True; [done|]. by eapply lookup_lt_Some.
Qed.

Lemma Level_rowsEl k el :
  rowsEl k el → Z.of_nat k < 2 ^ 64 → Level el = Some (wrap64 (Z.of_nat k - 1)).
Proof.
  intros [Hne Hall] Hk. unfold Level. destruct (value el) as [|p v]; [done|].
  simpl. inversion Hall; subst. done.
Qed.

Lemma Level_rowsEl_pos k el :
  rowsEl k el → (1 ≤ k)%nat → Z.of_nat k < 2 ^ 64 → Level el = Some (Z.of_nat k - 1).
Proof.
  intros H H1 Hk. rewrite (Level_rowsEl k) by done. f_equal.
  unfold wrap64. apply Z.mod_small. lia.
Qed.

Lemma DivRound_rows (p : Poly) :
  p ≠ [] →
  ∃ p', DivRoundByLastModulusNTT p = Some p' ∧ length p' = (length p - 1)%nat.
Proof.
  intros Hne. unfold DivRoundByLastModulusNTT.
  destruct (last p) as [lr|] eqn:Hl.
  - simpl. eexists. split; [done|]. rewrite length_imap, length_take. lia.
  - apply last_None in Hl. done.
Qed.

Lemma eachPart_DivRound k el :
  rowsEl k el → (1 ≤ k)%nat →
  ∃ el', eachPart DivRoundByLastModulusNTT el = Some el'
         ∧ rowsEl (k - 1) el' ∧ scale el' = scale el ∧ isNTT el' = isNTT el
         ∧ length (value el') = length (value el).
Proof.
  intros [Hne Hall] Hk. unfold eachPart.
  assert (Hm : ∃ v, mapM DivRoundByLastModulusNTT (value el) = Some v
                    ∧ Forall (fun p : Poly => length p = (k - 1)%nat) v
                    ∧ length v = length (value el)).
  { clear Hne. induction Hall as [|p v Hp Hall IH].
    - exists []. by repeat split.
    - destruct IH as (v' & Hv' & Hall' & Hlen).
      destruct (DivRound_rows p) as (p' & Hp' & Hl').
      { intros ->. simpl in Hp. lia. }
      exists (p' :: v'). simpl. rewrite Hp'. simpl. rewrite Hv'. simpl.
      split; [done|]. split; [constructor; [lia|done] | by rewrite Hlen]. }
  destruct Hm as (v & Hv & Hall' & Hlen). rewrite Hv. simpl.
  eexists. split; [done|]. simpl. repeat split; try done.
  simpl. intros ->. simpl in Hlen. destruct (value el); [done|simpl in Hlen; lia].
Qed.


(** *** Rescale *)

Lemma moduli_lookup (moduli : list Z) (k : nat) :
  (1 ≤ k ≤ length moduli)%nat → ∃ q, moduli !! Z.to_nat (Z.of_nat k - 1) = Some q.
Proof.
  intros Hk. apply lookup_lt_is_Some. lia.
Qed.

Lemma rescaleStep_rows moduli k el :
  rowsEl k el → (1 ≤ k ≤ length moduli)%nat → Z.of_nat k < 2 ^ 64 →
  ∃ q el', moduli !! Z.to_nat (Z.of_nat k - 1) = Some q
           ∧ rescaleStep moduli el = Some el'
           ∧ rowsEl (k - 1) el'
           ∧ scale el' = (scale el / float64_of_uint64 q)%float
           ∧ isNTT el' = isNTT el.
Proof.
  intros Hrows Hk Hlt. destruct (moduli_lookup moduli k Hk) as [q Hq].
  unfold rescaleStep. rewrite (Level_rowsEl_pos k) by (done || lia). simpl.
  rewrite Hq. simpl.
  destruct (eachPart_DivRound k (DivScale el (float64_of_uint64 q)))
    as (el' & Hel' & Hrows' & Hs & Hn & _); [exact Hrows|lia|].
  exists q, el'. simpl in *. split_and!; done.
Qed.

Lemma rescaleLoop_spec moduli threshold fuel : ∀ el k,
  rowsEl k el → (1 ≤ k ≤ length moduli)%nat → Z.of_nat k < 2 ^ 64 → (k ≤ fuel)%nat →
  ∃ j r, rescaleLoop fuel moduli threshold el = Some r
         ∧ rescaleSteps j moduli el = Some r
         ∧ continues moduli threshold r = Some false
         ∧ (∀ i, (i < j)%nat → ∃ ei, rescaleSteps i moduli el = Some ei
                                     ∧ continues moduli threshold ei = Some true)
         ∧ (j < k)%nat ∧ rowsEl (k - j) r
         ∧ isNTT r = isNTT el
         ∧ scaleAfter j (Z.of_nat k - 1) moduli (scale el) = Some (scale r).
Proof.
  induction fuel as [|fuel IH]; intros el k Hrows Hk Hlt Hfuel; [lia|].
  destruct (moduli_lookup moduli k Hk) as [q Hq].
  pose proof (Level_rowsEl_pos k el Hrows (proj1 Hk) Hlt) as HL.
  simpl. rewrite HL. simpl. rewrite Hq. simpl.
  destruct (aboveThreshold (scale el) threshold q && negb (Z.of_nat k - 1 =? 0)) eqn:Hc.
  - apply andb_true_iff in Hc as [Ha Hnz]. apply negb_true_iff, Z.eqb_neq in Hnz.
    destruct (rescaleStep_rows moduli k el) as (q' & el' & Hq' & Hstep & Hrows' & Hs' & Hn');
      try done.
    assert (q' = q) as -> by congruence.
    unfold rescaleStep in Hstep. rewrite HL in Hstep. simpl in Hstep.
    rewrite Hq in Hstep. simpl in Hstep. rewrite Hstep. simpl.
    destruct (IH el' (k - 1)%nat) as (j & r & Hloop & Hsteps & Hstop & Hcont & Hj & Hr & Hn & Hsc);
      try done; try lia.
    exists (S j), r. split; [done|]. split.
    { simpl. unfold rescaleStep. rewrite HL. simpl. rewrite Hq. simpl.
      rewrite Hstep. simpl. done. }
    split; [done|]. split.
    { intros [|i] Hi.
      - exists el. split; [done|]. unfold continues. rewrite HL. simpl. rewrite Hq. simpl.
        f_equal. apply andb_true_iff. split; [done|]. by apply negb_true_iff, Z.eqb_neq.
      - destruct (Hcont i) as (ei & Hei & Hci); [lia|]. exists ei. split; [|done].
        simpl. unfold rescaleStep. rewrite HL. simpl. rewrite Hq. simpl.
        rewrite Hstep. simpl. done. }
    split; [lia|]. split.
    { replace (k - S j)%nat with (k - 1 - j)%nat by lia. done. }
    split; [congruence|].
    simpl. rewrite Hq. simpl. rewrite <- Hs'.
    replace (Z.of_nat k - 1 - 1) with (Z.of_nat (k - 1) - 1) by lia. done.
  - exists O, el. split; [done|]. split; [done|]. split.
    { unfold continues. rewrite HL. simpl. rewrite Hq. simpl. by rewrite Hc. }
    split; [intros i Hi; lia|]. split; [lia|]. split.
    { by replace (k - 0)%nat with k by lia. }
    done.
Qed.


Lemma levelOf_Addr s a el l :
  heap s !! a = Some el → Level el = Some l → levelOf (Addr a) s = Some (l, s).
Proof.
  intros Hh Hl. unfold levelOf. rewrite (bind_Some _ _ _ _ _ (getEl_Addr _ _ _ Hh)).
  unfold lift. by rewrite Hl.
Qed.

(** C6.  On a ciphertext at level at least 1 and in the NTT domain, with a
    receiver at the same level, [Rescale] returns without error and leaves in
    the receiver the element [r] reached from the input by [j] rounds of
    [rescaleStep] (divide the scale by the last active modulus, divide every
    part by it with [DivRoundByLastModulusNTT], one level less): before each
    of the [j] rounds the scale is at least [threshold * lastModulus / 2] and
    the level is not 0, and at [r] the scale is below that bound or the level
    is 0.  When the initial scale is already below the bound, [r] is the
    input, unchanged. *)
Theorem Rescale_loop (s : Store) (a0 a1 : nat) (e0 e1 : Element)
    (threshold : float) (k : nat) :
  let moduli := Modulus (contextQ (ckksContext (ev s))) in
  heap s !! a0 = Some e0 → heap s !! a1 = Some e1 →
  rowsEl k e0 → rowsEl k e1 →
  (2 ≤ k ≤ length moduli)%nat → Z.of_nat k < 2 ^ 64 →
  isNTT e0 = true →
  ∃ (j : nat) (r : Element),
    Rescale (Addr a0) threshold (Addr a1) s
    = Some (ErrNil, mkStore (ev s) (<[a1 := r]> (heap s)))
    ∧ rescaleSteps j moduli e0 = Some r
    ∧ (∀ i, (i < j)%nat → ∃ ei, rescaleSteps i moduli e0 = Some ei
                                ∧ continues moduli threshold ei = Some true)
    ∧ continues moduli threshold r = Some false
    ∧ (continues moduli threshold e0 = Some false → r = e0)
    ∧ Level r = Some (Z.of_nat (k - 1 - j))
    ∧ scaleAfter j (Z.of_nat k - 1) moduli (scale e0) = Some (scale r).
Proof.
  intros moduli H0 H1 Hr0 Hr1 Hk Hlt Hntt.
  assert (Hk1 : (1 ≤ k ≤ length moduli)%nat) by lia.
  destruct (moduli_lookup moduli k Hk1) as [q Hq].
  pose proof (Level_rowsEl_pos k e0 Hr0 (proj1 Hk1) Hlt) as HL0.
  pose proof (Level_rowsEl_pos k e1 Hr1 (proj1 Hk1) Hlt) as HL1.
  destruct (rescaleLoop_spec moduli threshold (S (Z.to_nat (Z.of_nat k - 1))) e0 k)
    as (j & r & Hloop & Hsteps & Hstop & Hcont & Hj & Hrr & Hn & Hsc); try done; try lia.
  assert (HLr : Level r = Some (Z.of_nat (k - 1 - j))).
  { rewrite (Level_rowsEl_pos (k - j)) by (done || lia). f_equal. lia. }
  unfold Rescale.
  rewrite (bind_Some getCtx _ s (ckksContext (ev s)) s) by done.
  rewrite (bind_Some _ _ _ _ _ (levelOf_Addr _ _ _ _ H0 HL0)).
  destruct (Z.eqb_spec (Z.of_nat k - 1) 0) as [Hz|_]; [lia|].
  rewrite (bind_Some _ _ _ _ _ (levelOf_Addr _ _ _ _ H1 HL1)).
  rewrite Z.eqb_refl. cbn [negb].
  rewrite (bind_Some _ _ _ _ _ (getEl_Addr _ _ _ H0)).
  fold moduli. unfold lift at 1. rewrite Hq.
  unfold bind at 1.
  destruct (aboveThreshold (scale e0) threshold q) eqn:Ha.
  - rewrite Hntt. cbn [negb].
    rewrite (bind_Some _ _ _ _ _ (getEl_Addr _ _ _ H1)).
    rewrite (bind_Some _ _ _ _ _ (putEl_Addr _ _ _ _ H1)).
    unfold Copy.
    assert (Hput : heap (mkStore (ev s) (<[a1 := e0]> (heap s))) !! a1 = Some e0).
    { simpl. apply list_lookup_insert_eq. by eapply lookup_lt_Some. }
    rewrite (bind_Some _ _ _ _ _ (getEl_Addr _ _ _ Hput)).
    unfold lift at 1. simpl ckksContext. simpl ev. fold moduli. rewrite Hloop.
    unfold bind at 1.
    rewrite (bind_Some _ _ _ _ _ (putEl_Addr _ _ _ _ Hput)).
    simpl. rewrite list_insert_insert_eq.
    exists j, r. split_and!; try done.
    intros Hc0. destruct j as [|j]; [by inversion Hsteps|].
    destruct (Hcont O) as (ei & Hei & Hci); [lia|]. inversion Hei; subst. congruence.
  - rewrite (bind_Some _ _ _ _ _ (getEl_Addr _ _ _ H1)).
    rewrite (bind_Some _ _ _ _ _ (putEl_Addr _ _ _ _ H1)).
    unfold Copy, ret.
    assert (Hc0 : continues moduli threshold e0 = Some false).
    { unfold continues. rewrite HL0. simpl. rewrite Hq. simpl. by rewrite Ha. }
    exists O, e0. split_and!; try done.
    + intros i Hi. lia.
    + rewrite HL0. f_equal. lia.
Qed.


(** *** RescaleMany *)

Lemma mapM_compose {A} (f g : A → option A) (l : list A) :
  mapM (fun x => f x ≫= g) l = mapM f l ≫= mapM g.
Proof.
  induction l as [|x l IH]; [done|]. simpl. rewrite IH.
  destruct (f x) as [y|]; simpl; [|done].
  destruct (mapM f l) as [l'|]; simpl; [done|]. by destruct (g y).
Qed.

Lemma divScales_spec moduli k : ∀ nb i el,
  rowsEl k el → (1 ≤ k ≤ length moduli)%nat → Z.of_nat k < 2 ^ 64 →
  0 <= i → i + Z.of_nat nb <= Z.of_nat k →
  ∃ s', scaleAfter nb (Z.of_nat k - 1 - i) moduli (scale el) = Some s'
        ∧ divScales nb i moduli el = Some (SetScale el s').
Proof.
  induction nb as [|nb IH]; intros i el Hrows Hk Hlt Hi Hn.
  - exists (scale el). split; [done|]. by destruct el.
  - simpl. rewrite (Level_rowsEl_pos k) by (done || lia). simpl.
    assert (Hw : wrap64 (Z.of_nat k - 1 - i) = Z.of_nat k - 1 - i).
    { unfold wrap64. apply Z.mod_small. lia. }
    rewrite Hw.
    destruct (lookup_lt_is_Some_2 moduli (Z.to_nat (Z.of_nat k - 1 - i))) as [q Hq]; [lia|].
    rewrite Hq. simpl.
    destruct (IH (i + 1) (DivScale el (float64_of_uint64 q))) as (s' & Hs' & Hd);
      try done; try lia.
    exists s'. simpl in Hs'.
    replace (Z.of_nat k - 1 - i - 1) with (Z.of_nat k - 1 - (i + 1)) by lia.
    split; [done|]. rewrite Hd. done.
Qed.

Lemma rescaleSteps_many moduli : ∀ nb k el,
  rowsEl k el → (nb ≤ k ≤ length moduli)%nat → Z.of_nat k < 2 ^ 64 →
  ∃ v s', mapM (DivRoundByLastModulusManyNTT nb) (value el) = Some v
          ∧ scaleAfter nb (Z.of_nat k - 1) moduli (scale el) = Some s'
          ∧ rescaleSteps nb moduli el = Some (mkElement v s' (isNTT el))
          ∧ rowsEl (k - nb) (mkElement v s' (isNTT el)).
Proof.
  induction nb as [|nb IH]; intros k el Hrows Hk Hlt.
  - exists (value el), (scale el). simpl. split_and!.
    + clear. induction (value el) as [|p v IHv]; [done|]. simpl. by rewrite IHv.
    + done.
    + by destruct el.
    + by replace (k - 0)%nat with k by lia.
  - destruct (rescaleStep_rows moduli k el) as (q & el1 & Hq & Hstep & Hrows1 & Hs1 & Hn1);
      try done; try lia.
    destruct (IH (k - 1)%nat el1) as (v & s' & Hv & Hs' & Hsteps & Hrows'); try done; try lia.
    exists v, s'. split_and!.
    + simpl. rewrite mapM_compose.
      unfold rescaleStep, eachPart in Hstep.
      rewrite (Level_rowsEl_pos k) in Hstep by (done || lia). simpl in Hstep.
      rewrite Hq in Hstep. simpl in Hstep.
      destruct (mapM DivRoundByLastModulusNTT (value el)) as [v1|]; [|done].
      simpl in *. inversion Hstep; subst. done.
    + simpl. rewrite Hq. simpl. rewrite <- Hs1.
      replace (Z.of_nat k - 1 - 1) with (Z.of_nat (k - 1) - 1) by lia. done.
    + simpl. rewrite Hstep. simpl. rewrite Hsteps. by rewrite Hn1.
    + replace (k - S nb)%nat with (k - 1 - nb)%nat by lia. by rewrite <- Hn1.
Qed.

Lemma RescaleMany_run (s : Store) (a0 a1 : nat) (e0 e1 : Element) (nb k : nat) :
  let moduli := Modulus (contextQ (ckksContext (ev s))) in
  heap s !! a0 = Some e0 → heap s !! a1 = Some e1 →
  rowsEl k e0 → rowsEl k e1 →
  (nb < k ≤ length moduli)%nat → Z.of_nat k < 2 ^ 64 →
  isNTT e0 = true →
  ∃ r : Element,
    RescaleMany (Addr a0) (Z.of_nat nb) (Addr a1) s
    = Some (ErrNil, mkStore (ev s) (<[a1 := r]> (heap s)))
    ∧ rescaleSteps nb moduli e0 = Some r
    ∧ mapM (DivRoundByLastModulusManyNTT nb) (value e0) = Some (value r)
    ∧ scaleAfter nb (Z.of_nat k - 1) moduli (scale e0) = Some (scale r)
    ∧ Level r = Some (Z.of_nat k - 1 - Z.of_nat nb).
Proof.
  intros moduli H0 H1 Hr0 Hr1 Hk Hlt Hntt.
  pose proof (Level_rowsEl_pos k e0 Hr0 ltac:(lia) Hlt) as HL0.
  pose proof (Level_rowsEl_pos k e1 Hr1 ltac:(lia) Hlt) as HL1.
  destruct (rescaleSteps_many moduli nb k e0) as (v & s' & Hv & Hs' & Hsteps & Hrows');
    try done; try lia.
  destruct (divScales_spec moduli k nb 0 e0) as (s'' & Hs'' & Hd); try done; try lia.
  rewrite Z.sub_0_r in Hs''. assert (s'' = s') as -> by congruence.
  unfold RescaleMany.
  rewrite (bind_Some getCtx _ s (ckksContext (ev s)) s) by done.
  rewrite (bind_Some _ _ _ _ _ (levelOf_Addr _ _ _ _ H0 HL0)).
  destruct (Z.ltb_spec (Z.of_nat k - 1) (Z.of_nat nb)) as [Hz|_]; [lia|].
  rewrite (bind_Some _ _ _ _ _ (levelOf_Addr _ _ _ _ H1 HL1)).
  rewrite Z.eqb_refl. cbn [negb].
  rewrite (bind_Some _ _ _ _ _ (getEl_Addr _ _ _ H0)).
  rewrite Hntt. cbn [negb].
  rewrite (bind_Some _ _ _ _ _ (getEl_Addr _ _ _ H1)).
  rewrite (bind_Some _ _ _ _ _ (putEl_Addr _ _ _ _ H1)).
  unfold Copy.
  assert (Hput : heap (mkStore (ev s) (<[a1 := e0]> (heap s))) !! a1 = Some e0).
  { simpl. apply list_lookup_insert_eq. by eapply lookup_lt_Some. }
  rewrite (bind_Some _ _ _ _ _ (getEl_Addr _ _ _ Hput)).
  rewrite Nat2Z.id.
  unfold lift at 1. simpl ckksContext. simpl ev. fold moduli. rewrite Hd.
  unfold bind at 1.
  unfold eachPart, lift at 1. simpl value. rewrite Hv. simpl.
  unfold bind at 1.
  rewrite (bind_Some _ _ _ _ _ (putEl_Addr _ _ _ _ Hput)).
  simpl. rewrite list_insert_insert_eq. unfold ret.
  eexists. split; [reflexivity|]. split_and!; try done.
  rewrite (Level_rowsEl_pos (k - nb) _ Hrows') by lia. f_equal. lia.
Qed.


(** *** Errors and panics of the rescaling routines *)

Lemma getEl_state p s el s' : getEl p s = Some (el, s') → s' = s.
Proof.
  unfold getEl, lift. destruct p as [a|]; [|by intros [= _ <-]].
  destruct (heap s !! a); [by intros [= _ <-]|done].
Qed.

Lemma levelOf_inv p s l s' :
  levelOf p s = Some (l, s') →
  ∃ el, getEl p s = Some (el, s) ∧ Level el = Some l ∧ s' = s.
Proof.
  unfold levelOf, bind. destruct (getEl p s) as [[el s1]|] eqn:Hg; [|done].
  pose proof (getEl_state _ _ _ _ Hg) as ->.
  unfold lift. destruct (Level el) as [l'|] eqn:HL; [|done].
  intros [= <- <-]. by exists el.
Qed.

Lemma levelOf_run p s el l :
  getEl p s = Some (el, s) → Level el = Some l → levelOf p s = Some (l, s).
Proof.
  intros Hg HL. unfold levelOf. rewrite (bind_Some _ _ _ _ _ Hg).
  unfold lift. by rewrite HL.
Qed.

(** Case analysis on the next step of a monadic run in a hypothesis. *)
Ltac run_inv H :=
  repeat match type of H with
  | bind ?m _ ?s = Some _ =>
      let a := fresh "a" in let s1 := fresh "s" in let E := fresh "E" in
      unfold bind at 1 in H; destruct (m s) as [[a s1]|] eqn:E; [|discriminate H]
  | (if ?b then _ else _) ?s = Some _ =>
      let E := fresh "E" in destruct b eqn:E
  | ret _ _ = Some _ => unfold ret in H; injection H as H; subst
  | panic _ = Some _ => discriminate H
  end.

Lemma Rescale_level0 ct0 threshold c1 s e0 :
  getEl ct0 s = Some (e0, s) → Level e0 = Some 0 →
  Rescale ct0 threshold c1 s = Some (ErrNew, s).
Proof.
  intros Hg HL. unfold Rescale.
  rewrite (bind_Some getCtx _ s (ckksContext (ev s)) s) by done.
  rewrite (bind_Some _ _ _ _ _ (levelOf_run _ _ _ _ Hg HL)). done.
Qed.

Lemma Rescale_ErrNew_inv ct0 threshold c1 s s' :
  Rescale ct0 threshold c1 s = Some (ErrNew, s') →
  ∃ e0, getEl ct0 s = Some (e0, s) ∧ Level e0 = Some 0 ∧ s' = s.
Proof.
  intros H. unfold Rescale in H.
  rewrite (bind_Some getCtx _ s (ckksContext (ev s)) s) in H by done.
  unfold bind at 1 in H.
  destruct (levelOf ct0 s) as [[l0 s1]|] eqn:E0; [|done].
  apply levelOf_inv in E0 as (e0 & Hg & HL & ->).
  destruct (Z.eqb_spec l0 0) as [->|Hnz].
  - injection H as <-. by exists e0.
  - exfalso. run_inv H; try discriminate; congruence.
Qed.

Lemma Rescale_not_NTT ct0 threshold c1 s e0 e1 l q :
  getEl ct0 s = Some (e0, s) → getEl c1 s = Some (e1, s) →
  Level e0 = Some l → Level e1 = Some l → l ≠ 0 →
  Modulus (contextQ (ckksContext (ev s))) !! Z.to_nat l = Some q →
  aboveThreshold (scale e0) threshold q = true → isNTT e0 = false →
  Rescale ct0 threshold c1 s = None.
Proof.
  intros Hg0 Hg1 HL0 HL1 Hnz Hq Ha Hntt. unfold Rescale.
  rewrite (bind_Some getCtx _ s (ckksContext (ev s)) s) by done.
  rewrite (bind_Some _ _ _ _ _ (levelOf_run _ _ _ _ Hg0 HL0)).
  destruct (Z.eqb_spec l 0) as [|_]; [done|].
  rewrite (bind_Some _ _ _ _ _ (levelOf_run _ _ _ _ Hg1 HL1)).
  rewrite Z.eqb_refl. cbn [negb].
  rewrite (bind_Some _ _ _ _ _ Hg0).
  unfold lift at 1. rewrite Hq. unfold bind at 1.
  by rewrite Ha, Hntt.
Qed.

Lemma RescaleMany_low ct0 nb c1 s e0 l :
  getEl ct0 s = Some (e0, s) → Level e0 = Some l → l < nb →
  RescaleMany ct0 nb c1 s = Some (ErrNew, s).
Proof.
  intros Hg HL Hlt. unfold RescaleMany.
  rewrite (bind_Some getCtx _ s (ckksContext (ev s)) s) by done.
  rewrite (bind_Some _ _ _ _ _ (levelOf_run _ _ _ _ Hg HL)).
  destruct (Z.ltb_spec l nb); [done|lia].
Qed.

Lemma RescaleMany_ErrNew_inv ct0 nb c1 s s' :
  RescaleMany ct0 nb c1 s = Some (ErrNew, s') →
  ∃ e0 l, getEl ct0 s = Some (e0, s) ∧ Level e0 = Some l ∧ l < nb ∧ s' = s.
Proof.
  intros H. unfold RescaleMany in H.
  rewrite (bind_Some getCtx _ s (ckksContext (ev s)) s) in H by done.
  unfold bind at 1 in H.
  destruct (levelOf ct0 s) as [[l0 s1]|] eqn:E0; [|done].
  apply levelOf_inv in E0 as (e0 & Hg & HL & ->).
  destruct (Z.ltb_spec l0 nb) as [Hlt|Hge].
  - injection H as <-. by exists e0, l0.
  - exfalso. run_inv H; try discriminate; congruence.
Qed.

(** C5.  [Rescale] returns an error, with the store (hence the receiver) as it
    was, exactly when the level of the input is 0; when the level is not 0,
    the receiver is at the same level, the scale meets the rescale condition
    and the input is not in the NTT domain, it panics.  [RescaleMany] returns
    an error, with the store as it was, exactly when the level of the input is
    smaller than the number [nb] of rescales; on an input in the NTT domain
    with at least [nb] levels and a receiver at the same level it returns
    without error the element reached by exactly [nb] rounds of
    [rescaleStep], whatever the scale: no threshold is consulted. *)
Theorem Rescale_errors (s : Store) (ct0 c1 : eptr) (e0 : Element) :
  getEl ct0 s = Some (e0, s) →
  (∀ threshold,
     (Level e0 = Some 0 → Rescale ct0 threshold c1 s = Some (ErrNew, s))
     ∧ (∀ s', Rescale ct0 threshold c1 s = Some (ErrNew, s') →
              Level e0 = Some 0 ∧ s' = s)
     ∧ (∀ e1 l q, getEl c1 s = Some (e1, s) →
          Level e0 = Some l → Level e1 = Some l → l ≠ 0 →
          Modulus (contextQ (ckksContext (ev s))) !! Z.to_nat l = Some q →
          aboveThreshold (scale e0) threshold q = true → isNTT e0 = false →
          Rescale ct0 threshold c1 s = None))
  ∧ (∀ nb,
       (∀ l, Level e0 = Some l → l < nb → RescaleMany ct0 nb c1 s = Some (ErrNew, s))
       ∧ (∀ s', RescaleMany ct0 nb c1 s = Some (ErrNew, s') →
                ∃ l, Level e0 = Some l ∧ l < nb ∧ s' = s))
  ∧ (∀ a0 a1 e1 (nb k : nat),
       ct0 = Addr a0 → c1 = Addr a1 → heap s !! a1 = Some e1 →
       rowsEl k e0 → rowsEl k e1 →
       (nb < k ≤ length (Modulus (contextQ (ckksContext (ev s)))))%nat →
       Z.of_nat k < 2 ^ 64 → isNTT e0 = true →
       ∃ r, RescaleMany ct0 (Z.of_nat nb) c1 s
            = Some (ErrNil, mkStore (ev s) (<[a1 := r]> (heap s)))
            ∧ rescaleSteps nb (Modulus (contextQ (ckksContext (ev s)))) e0 = Some r
            ∧ Level r = Some (Z.of_nat k - 1 - Z.of_nat nb)).
Proof.
  intros Hg. split_and!.
  - intros threshold. split_and!.
    + intros HL. by eapply Rescale_level0.
    + intros s' H. apply Rescale_ErrNew_inv in H as (e0' & Hg' & HL & ->).
      split; [congruence|done].
    + intros e1 l q Hg1 HL0 HL1 Hnz Hq Ha Hntt. by eapply Rescale_not_NTT.
  - intros nb. split_and!.
    + intros l HL Hlt. by eapply RescaleMany_low.
    + intros s' H. apply RescaleMany_ErrNew_inv in H as (e0' & l & Hg' & HL & Hlt & ->).
      exists l. split_and!; congruence || done.
  - intros a0 a1 e1 nb k -> -> H1 Hr0 Hr1 Hk Hlt Hntt.
    assert (H0 : heap s !! a0 = Some e0).
    { unfold getEl, lift in Hg. destruct (heap s !! a0); [congruence|done]. }
    destruct (RescaleMany_run s a0 a1 e0 e1 nb k) as (r & Hrun & Hsteps & _ & _ & HL);
      try done.
    by exists r.
Qed.


End WithKernels.

(** *** Examples *)

(** A context of degree 2 with a chain of three moduli and one special prime. *)
Definition exampleContext : Context :=
  mkContext 1 1024%float (mkRing 2 [17; 97; 193]) (mkRing 2 [257]) 1 3 [1; 1; 1].

(** A degree-1 ciphertext at level 2 with scale [2^20], and one at level 0. *)
Definition exampleCt : Element :=
  mkElement [[[1; 2]; [3; 4]; [5; 6]]; [[7; 8]; [9; 10]; [11; 12]]] 1048576%float true.
Definition exampleCtLevel0 : Element :=
  mkElement [[[1; 2]]; [[7; 8]]] 1024%float true.

Definition exampleStore : Store :=
  mkStore (NewEvaluator exampleContext) [exampleCt; exampleCtLevel0].

Lemma rowsEl_exampleCt : rowsEl 3 exampleCt.
Proof. split; [discriminate|]. repeat constructor. Qed.

Lemma Rescale_loop_witness :
  ∃ (j : nat) (r : Element),
    Rescale (K := exampleKernels) (Addr 0) 1024%float (Addr 0) exampleStore
    = Some (ErrNil, mkStore (ev exampleStore) (<[0%nat := r]> (heap exampleStore)))
    ∧ Level r = Some (Z.of_nat (3 - 1 - j)).
Proof.
  destruct (Rescale_loop (K := exampleKernels) exampleStore 0 0 exampleCt exampleCt
              1024%float 3)
    as (j & r & Hrun & _ & _ & _ & _ & HL & _);
    [reflexivity | reflexivity | exact rowsEl_exampleCt | exact rowsEl_exampleCt
    | simpl; lia | simpl; lia | reflexivity |].
  exists j, r. split; [exact Hrun | exact HL].
Defined.

Lemma Rescale_errors_witness :
  Rescale (K := exampleKernels) (Addr 1) 1024%float (Addr 1) exampleStore
  = Some (ErrNew, exampleStore)
  ∧ RescaleMany (K := exampleKernels) (Addr 0) 3 (Addr 0) exampleStore
    = Some (ErrNew, exampleStore).
Proof.
  destruct (Rescale_errors (K := exampleKernels) exampleStore (Addr 1) (Addr 1)
              exampleCtLevel0 eq_refl) as (HR & _ & _).
  destruct (HR 1024%float) as (H0 & _ & _).
  destruct (Rescale_errors (K := exampleKernels) exampleStore (Addr 0) (Addr 0)
              exampleCt eq_refl) as (_ & HM & _).
  destruct (HM 3) as (Hlow & _).
  split; [apply H0; reflexivity | apply (Hlow 2); [reflexivity | lia]].
Defined.

End CkksProofs.

(** ** Rotations *)

Module RotationProofs.
Import RingPkg Elem Ckks CkksProofs.

(** The power-of-two rotation amounts that make up [k], lowest first: [p], [2p],
    [4p], ... for the set bits of [k] among the low [bits]. *)
Fixpoint pow2From (bits : nat) (k p : Z) : list Z :=
  match bits with
  | O => []
  | S b => (if Z.testbit k 0 then [p] else []) ++ pow2From b (Z.shiftr k 1) (2 * p)
  end.

Definition pow2Decomposition (k : Z) : list Z := pow2From 64 k 1.

(** The full ladder: for every power of two below [half], the left and the
    right rotation keys exist. *)
Definition ladderPresent (rk : RotationKeys) (half : Z) : Prop :=
  ∀ e : Z, 0 <= e → 2 ^ e < half →
    is_Some (evakeyRotColLeft rk !! (2 ^ e)) ∧ is_Some (evakeyRotColRight rk !! (2 ^ e)).

Section WithKernels.
Context `{K : Kernels}.

(** The rotations by the listed amounts, one after the other, in place. *)
Definition rotateSequence (amounts : list Z) (permuteNTTIndex : gmap Z (list Z))
    (evakeyRotCol : gmap Z (list (list (list Z) * list (list Z)))) (ctOut : eptr)
    : M unit :=
  foldr (fun p rest =>
           run permuteNTT ctOut (permuteNTTIndex !! p) (evakeyRotCol !! p) ctOut; rest)
        (ret tt) amounts.

Lemma degreeOf_Addr s a el :
  heap s !! a = Some el → degreeOf (Addr a) s = Some (Degree el, s).
Proof.
  intros H. unfold degreeOf. by rewrite (bind_Some _ _ _ _ _ (getEl_Addr _ _ _ H)).
Qed.

Lemma scaleOf_Addr s a el :
  heap s !! a = Some el → scaleOf (Addr a) s = Some (scale el, s).
Proof.
  intros H. unfold scaleOf. by rewrite (bind_Some _ _ _ _ _ (getEl_Addr _ _ _ H)).
Qed.

Lemma n_pow2 (c : Context) : 0 <= logN c <= 63 → n c = 2 ^ logN c.
Proof.
  intros H. unfold n, wrap64. rewrite Z.shiftl_1_l.
  apply Z.mod_small. split; [apply Z.pow_nonneg; lia|].
  apply Z.pow_lt_mono_r; lia.
Qed.

Lemma half_pow2 (c : Context) :
  1 <= logN c <= 63 → Z.shiftr (n c) 1 = 2 ^ (logN c - 1).
Proof.
  intros H. rewrite n_pow2 by lia. rewrite Z.shiftr_div_pow2 by lia.
  replace (2 ^ logN c) with (2 ^ (logN c - 1) * 2 ^ 1).
  - rewrite Z.div_mul; lia.
  - rewrite <- Z.pow_add_r by lia. f_equal. lia.
Qed.

Lemma reduced_amount (c : Context) (k : Z) :
  1 <= logN c <= 63 →
  Z.land k (wrap64 (Z.shiftr (n c) 1 - 1)) = k mod Z.shiftr (n c) 1.
Proof.
  intros H. rewrite half_pow2 by done.
  assert (Hp : 0 < 2 ^ (logN c - 1) <= 2 ^ 62).
  { split; [apply Z.pow_pos_nonneg; lia|]. apply Z.pow_le_mono_r; lia. }
  unfold wrap64. rewrite Z.mod_small by lia.
  replace (2 ^ (logN c - 1) - 1) with (Z.ones (logN c - 1))
    by (rewrite Z.ones_equiv; lia).
  apply Z.land_ones. lia.
Qed.

(** C10.  For a degree-1 input and a degree-1 receiver, [RotateColumns] reduces
    the rotation amount modulo N/2 (N a power of two, at least 2); when the
    reduced amount is 0 the call returns with the receiver equal to the input
    element (same residues, hence same level and degree, and same scale) and
    everything else in the store as it was, whatever rotation keys are passed,
    even none. *)
Theorem RotateColumns_zero (s : Store) (a0 a1 : nat) (e0 eo : Element) (k : Z)
    (rotKeys : option RotationKeys) :
  let c := ckksContext (ev s) in
  heap s !! a0 = Some e0 → heap s !! a1 = Some eo →
  Degree e0 = 1 → Degree eo = 1 →
  1 <= logN c <= 63 →
  k mod (Z.shiftr (n c) 1) = 0 →
  Z.land k (wrap64 (Z.shiftr (n c) 1 - 1)) = k mod (Z.shiftr (n c) 1)
  ∧ RotateColumns (Addr a0) k rotKeys (Addr a1) s
    = Some (tt, mkStore (ev s) (<[a1 := e0]> (heap s)))
  ∧ RotateColumns (Addr a0) k rotKeys (Addr a1) s
    = RotateColumns (Addr a0) k None (Addr a1) s.
Proof.
  intros c H0 H1 Hd0 Hd1 HlogN Hk.
  assert (Hrun : ∀ rk, RotateColumns (Addr a0) k rk (Addr a1) s
                       = Some (tt, mkStore (ev s) (<[a1 := e0]> (heap s)))).
  { intros rk. unfold RotateColumns.
    rewrite (bind_Some _ _ _ _ _ (degreeOf_Addr _ _ _ H0)).
    rewrite (bind_Some _ _ _ _ _ (degreeOf_Addr _ _ _ H1)).
    rewrite Hd0, Hd1. cbn [Z.eqb Pos.eqb negb orb].
    rewrite (bind_Some getCtx _ s (ckksContext (ev s)) s) by done.
    fold c. rewrite reduced_amount by done.
    rewrite Hk. cbn [Z.eqb].
    rewrite (bind_Some _ _ _ _ _ (getEl_Addr _ _ _ H0)).
    rewrite (bind_Some _ _ _ _ _ (getEl_Addr _ _ _ H1)).
    unfold Copy. by rewrite (putEl_Addr _ _ _ _ H1). }
  split; [by apply reduced_amount|]. split; [apply Hrun|].
  by rewrite !Hrun.
Qed.

(** *** The power-of-two ladder *)

Lemma hasPow2Rotations_spec (rk : RotationKeys) (half : Z) : ∀ (fuel : nat) (e : Z),
  half <= 2 ^ 63 → 0 <= e → Z.of_nat fuel + e = 64 →
  hasPow2Rotations fuel (2 ^ e) half rk = true
  ↔ (∀ e', e <= e' → 2 ^ e' < half →
       is_Some (evakeyRotColLeft rk !! (2 ^ e')) ∧ is_Some (evakeyRotColRight rk !! (2 ^ e'))).
Proof.
  induction fuel as [|fuel IH]; intros e Hhalf He Hsum.
  - simpl. split; [|done]. intros _ e' He' Hlt. exfalso.
    assert (2 ^ 64 <= 2 ^ e') by (apply Z.pow_le_mono_r; lia). lia.
  - simpl. destruct (Z.ltb_spec (2 ^ e) half) as [Hlt|Hge].
    + assert (He63 : e < 63).
      { destruct (Z.lt_ge_cases e 63); [done|].
        assert (2 ^ 63 <= 2 ^ e) by (apply Z.pow_le_mono_r; lia). lia. }
      assert (Hw : wrap64 (Z.shiftl (2 ^ e) 1) = 2 ^ (e + 1)).
      { rewrite Z.shiftl_mul_pow2 by lia. rewrite <- Z.pow_add_r by lia.
        unfold wrap64. apply Z.mod_small. split; [apply Z.pow_nonneg; lia|].
        apply Z.pow_lt_mono_r; lia. }
      rewrite Hw.
      destruct (evakeyRotColLeft rk !! (2 ^ e)) as [kl|] eqn:Hl.
      * destruct (evakeyRotColRight rk !! (2 ^ e)) as [kr|] eqn:Hr.
        -- rewrite IH by lia. split.
           ++ intros H e' He' Hlt'. destruct (Z.eq_dec e' e) as [->|Hne].
              ** rewrite Hl, Hr. by split.
              ** apply H; [lia|done].
           ++ intros H e' He' Hlt'. apply H; [lia|done].
        -- split; [done|]. intros H. destruct (H e) as [_ [? Hs]]; [lia|done|].
           congruence.
      * split; [done|]. intros H. destruct (H e) as [[? Hs] _]; [lia|done|].
        congruence.
    + split; [|done]. intros _ e' He' Hlt'. exfalso.
      assert (2 ^ e <= 2 ^ e') by (apply Z.pow_le_mono_r; lia). lia.
Qed.

Lemma hasPow2Rotations_ladder (rk : RotationKeys) (half : Z) :
  half <= 2 ^ 63 → hasPow2Rotations 64 1 half rk = true ↔ ladderPresent rk half.
Proof.
  intros Hhalf. change 1 with (2 ^ 0) at 1.
  rewrite hasPow2Rotations_spec by (done || lia). unfold ladderPresent.
  split; intros H e He; apply H; lia.
Qed.

(** *** The decomposition into powers of two *)

Lemma land1_testbit (k : Z) : (Z.land k 1 =? 1) = Z.testbit k 0.
Proof.
  change 1 with (Z.ones 1) at 1. rewrite Z.land_ones by lia.
  change (2 ^ 1) with 2. rewrite Z.bit0_odd, Zmod_odd.
  by destruct (Z.odd k).
Qed.

Lemma pow2From_zero (bits : nat) (p : Z) : pow2From bits 0 p = [].
Proof.
  revert p. induction bits as [|b IH]; intros p; [done|].
  simpl. rewrite Z.shiftr_0_l. apply IH.
Qed.

Lemma shiftr1_bound (k : Z) (b : nat) :
  0 <= k < 2 ^ Z.of_nat (S b) → 0 <= Z.shiftr k 1 < 2 ^ Z.of_nat b.
Proof.
  intros Hk. rewrite Z.shiftr_div_pow2 by lia. change (2 ^ 1) with 2.
  rewrite Nat2Z.inj_succ, Z.pow_succ_r in Hk by lia.
  split; [apply Z.div_pos; lia|]. apply Z.div_lt_upper_bound; lia.
Qed.

Lemma pow2Loop_sequence idx keys ctOut : ∀ (bits : nat) (k p : Z) (s : Store),
  0 <= k < 2 ^ Z.of_nat bits → 0 < p → p * 2 ^ Z.of_nat bits <= 2 ^ 64 →
  pow2Loop bits k p idx keys ctOut s
  = rotateSequence (pow2From bits k p) idx keys ctOut s.
Proof.
  induction bits as [|b IH]; intros k p s Hk Hp Hpb.
  - simpl. destruct (Z.ltb_spec 0 k); [change (2 ^ Z.of_nat 0) with 1 in Hk; lia|done].
  - simpl pow2Loop. destruct (Z.ltb_spec 0 k) as [Hpos|Hz].
    + pose proof (shiftr1_bound k b Hk) as Hk'.
      assert (Hnext : ∀ s', pow2Loop b (Z.shiftr k 1) (wrap64 (Z.shiftl p 1)) idx keys ctOut s'
                            = rotateSequence (pow2From b (Z.shiftr k 1) (2 * p)) idx keys ctOut s').
      { intros s'. destruct b as [|b'].
        - simpl. change (2 ^ Z.of_nat 0) with 1 in Hk'.
          destruct (Z.ltb_spec 0 (Z.shiftr k 1)); [lia|done].
        - rewrite Nat2Z.inj_succ, Z.pow_succ_r in Hpb by lia.
          assert (0 < 2 ^ Z.of_nat (S b')) by (apply Z.pow_pos_nonneg; lia).
          assert (Hw : wrap64 (Z.shiftl p 1) = 2 * p).
          { rewrite Z.shiftl_mul_pow2 by lia. change (2 ^ 1) with 2.
            unfold wrap64. rewrite Z.mod_small; [lia|].
            rewrite Nat2Z.inj_succ, Z.pow_succ_r in Hpb by lia.
            assert (0 < 2 ^ Z.of_nat b') by (apply Z.pow_pos_nonneg; lia). nia. }
          rewrite Hw. apply IH; [done|lia|lia]. }
      cbn [pow2From]. rewrite land1_testbit.
      destruct (Z.testbit k 0); cbn [app rotateSequence foldr].
      * unfold bind.
        destruct (permuteNTT ctOut (idx !! p) (keys !! p) ctOut s) as [[[] s']|]; [|done].
        apply Hnext.
      * unfold bind at 1. unfold ret at 1. apply Hnext.
    + assert (k = 0) as -> by lia. by rewrite pow2From_zero.
Qed.

Lemma pow2From_sum : ∀ (bits : nat) (k p : Z),
  0 <= k →
  foldr Z.add 0 (pow2From bits k p) = p * (k mod 2 ^ Z.of_nat bits).
Proof.
  induction bits as [|b IH]; intros k p Hk.
  - simpl. rewrite Z.mod_1_r. lia.
  - cbn [pow2From]. rewrite foldr_app. rewrite IH
      by (rewrite Z.shiftr_div_pow2 by lia; apply Z.div_pos; lia).
    rewrite Z.shiftr_div_pow2 by lia. change (2 ^ 1) with 2.
    rewrite Nat2Z.inj_succ, Z.pow_succ_r by lia.
    rewrite Z.rem_mul_r by (try apply Z.pow_nonzero; lia).
    rewrite Z.bit0_odd. rewrite (Zmod_odd k).
    destruct (Z.odd k); simpl; lia.
Qed.

Lemma pow2From_length : ∀ (bits : nat) (k p : Z),
  length (pow2From bits k p)
  = length (filter (fun i => Is_true (Z.testbit k (Z.of_nat i))) (seq 0 bits)).
Proof.
  induction bits as [|b IH]; intros k p; [done|].
  cbn [pow2From]. rewrite length_app, IH.
  cbn [seq]. rewrite <- (fmap_S_seq 0 b). rewrite filter_cons.
  assert (Hshift : length (filter (fun i => Is_true (Z.testbit (Z.shiftr k 1) (Z.of_nat i))) (seq 0 b))
                   = length (filter (fun i => Is_true (Z.testbit k (Z.of_nat i))) (S <$> seq 0 b))).
  { generalize (seq 0 b) as l. induction l as [|x l IHl]; [done|].
    rewrite fmap_cons, !filter_cons.
    rewrite Z.shiftr_spec by lia.
    replace (Z.of_nat x + 1) with (Z.of_nat (S x)) by lia.
    destruct (decide (Is_true (Z.testbit k (Z.of_nat (S x))))); simpl; by rewrite IHl. }
  rewrite Hshift. simpl Z.of_nat. rewrite ?Z.bit0_odd.
  by destruct (Z.odd k).
Qed.

Lemma pow2From_elements : ∀ (bits : nat) (k p : Z) (e0 : Z),
  0 <= k → 0 <= e0 → p = 2 ^ e0 →
  Forall (fun x => ∃ e, e0 <= e ∧ x = 2 ^ e ∧ 2 ^ (e - e0) <= k) (pow2From bits k p).
Proof.
  induction bits as [|b IH]; intros k p e0 Hk He0 ->; [constructor|].
  cbn [pow2From]. apply Forall_app. split.
  - destruct (Z.testbit k 0) eqn:Hb; constructor; [|constructor].
    exists e0. split; [lia|]. split; [done|]. rewrite Z.sub_diag. simpl.
    destruct (Z.eq_dec k 0) as [->|]; [done|lia].
  - assert (Hk' : 0 <= Z.shiftr k 1) by (apply Z.shiftr_nonneg; lia).
    eapply Forall_impl; [apply (IH (Z.shiftr k 1) (2 * 2 ^ e0) (e0 + 1)); try lia|].
    + rewrite Z.pow_add_r by lia. lia.
    + intros x (e & He & -> & Hle). exists e. split; [lia|]. split; [done|].
      rewrite Z.shiftr_div_pow2 in Hle by lia. change (2 ^ 1) with 2 in Hle.
      replace (e - e0) with ((e - (e0 + 1)) + 1) by lia.
      rewrite Z.pow_add_r by lia. change (2 ^ 1) with 2.
      pose proof (Z.mul_div_le k 2 ltac:(lia)). nia.
Qed.

(** *** Non-zero rotation amounts *)

(** The two copies that open [rotateColumnsPow2]. *)
Definition copyParts (ct0 ctOut : eptr) : M unit :=
  do c <- getCtx;
  do l0 <- levelOf ct0;
  do lo <- levelOf ctOut;
  let level := MinUint64 l0 lo in
  run polyOp1 (CopyLvl (contextQ c) level) (Part ct0 0) (Part ctOut 0);
  polyOp1 (CopyLvl (contextQ c) level) (Part ct0 1) (Part ctOut 1).

Lemma bind_ext {A B} (m : M A) (f g : A → M B) s :
  (∀ a s', f a s' = g a s') → bind m f s = bind m g s.
Proof. intros H. unfold bind. destruct (m s) as [[a s']|]; [apply H|done]. Qed.

Lemma bind_assoc {A B C} (m : M A) (f : A → M B) (g : B → M C) s :
  bind (bind m f) g s = bind m (fun a => bind (f a) g) s.
Proof. unfold bind. by destruct (m s) as [[a s']|]. Qed.

Lemma rotateColumnsPow2_sequence ct0 k idx keys ctOut s :
  0 <= k < 2 ^ 64 →
  rotateColumnsPow2 ct0 k idx keys ctOut s
  = (run copyParts ct0 ctOut; rotateSequence (pow2Decomposition k) idx keys ctOut) s.
Proof.
  intros Hk. unfold rotateColumnsPow2, copyParts.
  rewrite !bind_assoc. apply bind_ext. intros c s1.
  rewrite !bind_assoc. apply bind_ext. intros l0 s2.
  rewrite !bind_assoc. apply bind_ext. intros lo s3.
  rewrite !bind_assoc. apply bind_ext. intros [] s4.
  apply bind_ext. intros [] s5.
  apply pow2Loop_sequence; [done|lia|].
  change (2 ^ Z.of_nat 64) with (2 ^ 64). lia.
Qed.

Lemma setScaleAt_Addr s a el sc :
  heap s !! a = Some el →
  setScaleAt (Addr a) sc s = Some (tt, mkStore (ev s) (<[a := SetScale el sc]> (heap s))).
Proof.
  intros H. unfold setScaleAt.
  rewrite (bind_Some _ _ _ _ _ (getEl_Addr _ _ _ H)). by apply putEl_Addr with el.
Qed.

Lemma pow2Decomposition_facts (amount half : Z) (keys : gmap Z (list (list (list Z) * list (list Z)))) :
  0 < amount < half → half <= 2 ^ 63 →
  (∀ e, 0 <= e → 2 ^ e < half → is_Some (keys !! (2 ^ e))) →
  foldr Z.add 0 (pow2Decomposition amount) = amount
  ∧ Z.of_nat (length (pow2Decomposition amount)) = HammingWeight64 amount
  ∧ Forall (fun p => (∃ e, 0 <= e ∧ p = 2 ^ e) ∧ p < half ∧ is_Some (keys !! p))
           (pow2Decomposition amount).
Proof.
  intros Ha Hh Hkeys. unfold pow2Decomposition. split_and!.
  - rewrite pow2From_sum by lia. change (2 ^ Z.of_nat 64) with (2 ^ 64).
    rewrite Z.mod_small by lia. lia.
  - unfold HammingWeight64. by rewrite pow2From_length.
  - eapply Forall_impl; [apply (pow2From_elements 64 amount 1 0); lia || done|].
    intros x (e & He & -> & Hle). rewrite Z.sub_0_r in Hle.
    split; [by exists e|]. split; [lia|]. apply Hkeys; lia.
Qed.

(** C8.  For a degree-1 input and a degree-1 receiver and a rotation amount
    whose reduction [kk] modulo N/2 is not 0, [RotateColumns] first gives the
    receiver the scale of the input, and then: (1) when the rotation key for
    [kk] exists, it is one [permuteNTT] with that key; (2) when it does not
    exist but the full ladder of power-of-two left and right keys does, it is
    the copy of the input followed by the in-place rotations by the powers of
    two that make up [amount], lowest first, where [amount] is [kk] rotated
    left when the Hamming weight of [kk] is at most that of [N/2 - kk], and
    [N/2 - kk] rotated right otherwise: these powers of two sum to [amount],
    there are as many as the smaller of the two Hamming weights, and each has
    its key in the ladder; (3) when neither exists, or no key set is passed,
    it panics. *)
Theorem RotateColumns_nonzero (s : Store) (a0 a1 : nat) (e0 eo : Element) (k : Z)
    (rk : RotationKeys) :
  let c := ckksContext (ev s) in
  let half := Z.shiftr (n c) 1 in
  let kk := k mod half in
  let s1 := mkStore (ev s) (<[a1 := SetScale eo (scale e0)]> (heap s)) in
  let left := HammingWeight64 kk <=? HammingWeight64 (half - kk) in
  let amount := if left then kk else half - kk in
  let idx := if left then permuteNTTLeftIndex rk else permuteNTTRightIndex rk in
  let keys := if left then evakeyRotColLeft rk else evakeyRotColRight rk in
  heap s !! a0 = Some e0 → heap s !! a1 = Some eo →
  Degree e0 = 1 → Degree eo = 1 →
  1 <= logN c <= 63 → kk ≠ 0 →
  (∀ key, evakeyRotColLeft rk !! kk = Some key →
     RotateColumns (Addr a0) k (Some rk) (Addr a1) s
     = permuteNTT (Addr a0) (permuteNTTLeftIndex rk !! kk) (Some key) (Addr a1) s1)
  ∧ (evakeyRotColLeft rk !! kk = None → ladderPresent rk half →
     RotateColumns (Addr a0) k (Some rk) (Addr a1) s
     = (run copyParts (Addr a0) (Addr a1);
        rotateSequence (pow2Decomposition amount) idx keys (Addr a1)) s1
     ∧ foldr Z.add 0 (pow2Decomposition amount) = amount
     ∧ Z.of_nat (length (pow2Decomposition amount))
       = Z.min (HammingWeight64 kk) (HammingWeight64 (half - kk))
     ∧ Forall (fun p => (∃ e, 0 <= e ∧ p = 2 ^ e) ∧ p < half ∧ is_Some (keys !! p))
              (pow2Decomposition amount))
  ∧ (evakeyRotColLeft rk !! kk = None → ¬ ladderPresent rk half →
     RotateColumns (Addr a0) k (Some rk) (Addr a1) s = None)
  ∧ RotateColumns (Addr a0) k None (Addr a1) s = None.
Proof.
  intros c half kk s1 left amount idx keys H0 H1 Hd0 Hd1 HlogN Hkk.
  assert (Hhalf : half = 2 ^ (logN c - 1)) by (by apply half_pow2).
  assert (Hhpos : 0 < half <= 2 ^ 62).
  { rewrite Hhalf. split; [apply Z.pow_pos_nonneg; lia|]. apply Z.pow_le_mono_r; lia. }
  assert (Hkkr : 0 < kk < half).
  { pose proof (Z.mod_pos_bound k half ltac:(lia)). unfold kk in *. lia. }
  assert (Hstart : ∀ rotKeys,
    RotateColumns (Addr a0) k rotKeys (Addr a1) s
    = (do rk' <- lift rotKeys;
       match evakeyRotColLeft rk' !! kk with
       | Some key => permuteNTT (Addr a0) (permuteNTTLeftIndex rk' !! kk) (Some key) (Addr a1)
       | None =>
           if hasPow2Rotations 64 1 half rk' then
             if HammingWeight64 kk <=? HammingWeight64 (wrap64 (half - kk)) then
               rotateColumnsLPow2 (Addr a0) kk rk' (Addr a1)
             else rotateColumnsRPow2 (Addr a0) (wrap64 (half - kk)) rk' (Addr a1)
           else panic
       end) s1).
  { intros rotKeys. unfold RotateColumns.
    rewrite (bind_Some _ _ _ _ _ (degreeOf_Addr _ _ _ H0)).
    rewrite (bind_Some _ _ _ _ _ (degreeOf_Addr _ _ _ H1)).
    rewrite Hd0, Hd1. cbn [Z.eqb Pos.eqb negb orb].
    rewrite (bind_Some getCtx _ s (ckksContext (ev s)) s) by done.
    fold c. rewrite reduced_amount by done. fold half. fold kk.
    destruct (Z.eqb_spec kk 0) as [|_]; [done|].
    rewrite (bind_Some _ _ _ _ _ (scaleOf_Addr _ _ _ H0)).
    rewrite (bind_Some _ _ _ _ _ (setScaleAt_Addr _ _ _ _ H1)). done. }
  assert (Hw : wrap64 (half - kk) = half - kk).
  { unfold wrap64. apply Z.mod_small. lia. }
  split_and!.
  - intros key Hkey. rewrite (Hstart (Some rk)).
    unfold lift, bind. by rewrite Hkey.
  - intros Hnone Hladder.
    assert (Hkeys : ∀ e, 0 <= e → 2 ^ e < half → is_Some (keys !! (2 ^ e))).
    { intros e He Hlt. unfold keys. destruct (Hladder e He Hlt). by destruct left. }
    assert (Ham : 0 < amount < half) by (unfold amount; destruct left; lia).
    destruct (pow2Decomposition_facts amount half keys) as (Hsum & Hlen & Hall);
      [done|lia|done|].
    split_and!; try done.
    + rewrite (Hstart (Some rk)).
      unfold lift, bind at 1. rewrite Hnone.
      apply hasPow2Rotations_ladder in Hladder; [|lia]. rewrite Hladder.
      rewrite Hw. fold left. unfold amount, idx, keys.
      destruct left.
      * unfold rotateColumnsLPow2. apply rotateColumnsPow2_sequence. lia.
      * unfold rotateColumnsRPow2. apply rotateColumnsPow2_sequence. lia.
    + rewrite Hlen. unfold amount, left.
      destruct (Z.leb_spec (HammingWeight64 kk) (HammingWeight64 (half - kk))); lia.
  - intros Hnone Hno. rewrite (Hstart (Some rk)).
    unfold lift, bind at 1. rewrite Hnone.
    destruct (hasPow2Rotations 64 1 half rk) eqn:Hh; [|done].
    apply hasPow2Rotations_ladder in Hh; [done|lia].
  - by rewrite (Hstart None).
Qed.

End WithKernels.

Lemma RotateColumns_zero_witness :
  RotateColumns (K := exampleKernels) (Addr 0) 4 None (Addr 1) exampleStore
  = Some (tt, mkStore (ev exampleStore) [exampleCt; exampleCt]).
Proof.
  destruct (RotateColumns_zero (K := exampleKernels) exampleStore 0 1
              exampleCt exampleCtLevel0 4 None)
    as (_ & Hrun & _);
    [reflexivity | reflexivity | reflexivity | reflexivity | simpl; lia | reflexivity |].
  exact Hrun.
Defined.


(** A context of degree 8 (four slots), and rotation keys that hold the ladder
    [1, 2] on both sides but no key for the amount 3. *)
Definition rotContext : Context :=
  mkContext 3 1024%float (mkRing 8 [17; 97]) (mkRing 8 [257]) 1 2 [1; 1].

Definition ladderKeys : RotationKeys :=
  mkRotationKeys {[1 := [0; 1]; 2 := [1; 0]]} {[1 := [1; 0]; 2 := [0; 1]]} []
                 {[1 := []; 2 := []]} {[1 := []; 2 := []]} None.

Definition rotStore : Store :=
  mkStore (NewEvaluator rotContext) [exampleCt; exampleCt].

Lemma ladderKeys_present : ladderPresent ladderKeys 4.
Proof.
  intros e He Hlt.
  assert (e = 0 ∨ e = 1) as [-> | ->].
  { destruct (Z.lt_ge_cases e 2) as [|Hge]; [lia|].
    assert (2 ^ 2 <= 2 ^ e) by (apply Z.pow_le_mono_r; lia). lia. }
  - split; by eexists.
  - split; by eexists.
Qed.

Lemma RotateColumns_nonzero_witness :
  RotateColumns (K := exampleKernels) (Addr 0) 3 (Some ladderKeys) (Addr 1) rotStore
  = (run copyParts (Addr 0) (Addr 1);
     rotateSequence (K := exampleKernels) (pow2Decomposition 1)
       (permuteNTTRightIndex ladderKeys) (evakeyRotColRight ladderKeys) (Addr 1))
      (mkStore (ev rotStore) [exampleCt; SetScale exampleCt (scale exampleCt)])
  ∧ foldr Z.add 0 (pow2Decomposition 1) = 1.
Proof.
  destruct (RotateColumns_nonzero (K := exampleKernels) rotStore 0 1 exampleCt exampleCt
              3 ladderKeys)
    as (_ & Hladder & _);
    [reflexivity | reflexivity | reflexivity | reflexivity | simpl; lia
    | vm_compute; discriminate |].
  destruct (Hladder eq_refl ladderKeys_present) as (Hrun & Hsum & _).
  split; [exact Hrun | exact Hsum].
Defined.

End RotationProofs.

(** ** Multiplication *)

Module MulProofs.
Import RingPkg Elem Ckks CkksProofs.

(** A receiver of degree 2 at level 2 whose third part holds old data. *)
Definition degree2Receiver : Element :=
  mkElement [[[0; 0]; [0; 0]; [0; 0]]; [[0; 0]; [0; 0]; [0; 0]];
             [[5; 5]; [6; 6]; [7; 7]]] 1%float true.

(** An evaluation key with one pair per digit (three digits at level 2). *)
Definition keyPoly : list (list Z) := [[1; 1]; [1; 1]; [1; 1]; [1; 1]].
Definition exampleEvk : EvaluationKey :=
  mkEvaluationKey [(keyPoly, keyPoly); (keyPoly, keyPoly); (keyPoly, keyPoly)].

Definition mulStore : Store :=
  mkStore (NewEvaluator exampleContext) [exampleCt; exampleCt; degree2Receiver].


(** C4 (the code departs from the claim).  [MulRelin] with an evaluation key
    stores the relinearized product in parts 0 and 1 of the receiver but, unlike
    [Relinearize] and unlike its own branch without a key, never resizes the
    receiver.  With two degree-1 operands, an evaluation key and a receiver of
    degree 2 (which [getElemAndCheckBinary] accepts) the call returns a
    receiver that still has degree 2, its third part being the old data; the
    scale is the product of the operand scales. *)
Theorem MulRelin_with_key_keeps_degree2_receiver :
  ∃ s' out,
    MulRelin (K := exampleKernels) (Addr 0) (Addr 1) (Some exampleEvk) (Addr 2) mulStore
    = Some (tt, s')
    ∧ heap s' !! 2%nat = Some out
    ∧ Degree out = 2
    ∧ value out !! 2%nat = value degree2Receiver !! 2%nat
    ∧ scale out = (scale exampleCt * scale exampleCt)%float.
Proof.
  eexists _, _. split; [vm_compute; reflexivity|].
  split; [reflexivity|]. split; [reflexivity|]. split; reflexivity.
Qed.

End MulProofs.

(** ** Addition and subtraction *)

Module AddSubProofs.
Import RingPkg Elem Ckks CkksProofs.

(** *** Comparison of scales *)

Lemma SFcompare_antisym (x y : spec_float) :
  SFcompare y x = option_map CompOpp (SFcompare x y).
Proof.
  destruct x as [sx|sx| |sx mx ex], y as [sy|sy| |sy my ey]; simpl; try done;
    try (by destruct sx); try (by destruct sy); try (by destruct sx, sy).
  destruct sx, sy; simpl; try done; f_equal;
    rewrite (Z.compare_antisym ey ex);
    destruct (ey ?= ex)%Z; simpl; try done;
    change (Pos.compare_cont Eq my mx) with (Pos.compare my mx);
    change (Pos.compare_cont Eq mx my) with (Pos.compare mx my);
    by rewrite (Pos.compare_antisym mx my).
Qed.

Lemma ltb_leb (a b : float) : (a <? b)%float = true → (a <=? b)%float = true.
Proof.
  rewrite ltb_spec, leb_spec. unfold SFltb, SFleb.
  by destruct (SFcompare (Prim2SF a) (Prim2SF b)) as [[]|].
Qed.

Lemma ltb_not_leb (a b : float) : (a <? b)%float = true → (b <=? a)%float = false.
Proof.
  rewrite ltb_spec, leb_spec. unfold SFltb, SFleb.
  rewrite (SFcompare_antisym (Prim2SF a) (Prim2SF b)).
  by destruct (SFcompare (Prim2SF a) (Prim2SF b)) as [[]|].
Qed.

Lemma MaxFloat64_lt (a b : float) : (a <? b)%float = true → MaxFloat64 a b = b.
Proof. intros H. unfold MaxFloat64. by rewrite (ltb_leb _ _ H). Qed.

Lemma MaxFloat64_gt (a b : float) : (b <? a)%float = true → MaxFloat64 a b = a.
Proof. intros H. unfold MaxFloat64. by rewrite (ltb_not_leb _ _ H). Qed.

Lemma MaxFloat64_same (a : float) : MaxFloat64 a a = a.
Proof. unfold MaxFloat64. by destruct (a <=? a)%float. Qed.

(** *** The store seen through element pointers *)

Definition sget (s : Store) (p : eptr) : option Element :=
  match p with
  | Addr a => heap s !! a
  | CtxPool => Some (ctxpool (ev s))
  end.

Definition sput (s : Store) (p : eptr) (el : Element) : Store :=
  match p with
  | Addr a => mkStore (ev s) (<[a := el]> (heap s))
  | CtxPool =>
      let e := ev s in
      mkStore (mkEvaluator (ckksContext e) (ringpool e) (keyswitchpool e)
                 (poolQ e) (poolP e) el) (heap s)
  end.

Lemma getEl_sget s p el : sget s p = Some el → getEl p s = Some (el, s).
Proof. destruct p; simpl; unfold lift; [by intros ->|by intros [= ->]]. Qed.

Lemma putEl_sput s p el el0 : sget s p = Some el0 → putEl p el s = Some (tt, sput s p el).
Proof.
  destruct p as [a|]; simpl; [|done]. intros H.
  rewrite decide_True; [done|]. by eapply lookup_lt_Some.
Qed.

Lemma sget_sput_eq s p el el0 : sget s p = Some el0 → sget (sput s p el) p = Some el.
Proof.
  destruct p as [a|]; simpl; [|done]. intros H.
  apply list_lookup_insert_eq. by eapply lookup_lt_Some.
Qed.

Lemma sget_sput_ne s p q el : p ≠ q → sget (sput s p el) q = sget s q.
Proof.
  destruct p as [a|], q as [b|]; simpl; try done.
  intros H. apply list_lookup_insert_ne. congruence.
Qed.

Lemma ctx_sput s p el : ckksContext (ev (sput s p el)) = ckksContext (ev s).
Proof. by destruct p. Qed.

Lemma sput_sput s p a b : sput (sput s p a) p b = sput s p b.
Proof.
  destruct p as [x|]; simpl; [|done]. by rewrite list_insert_insert_eq.
Qed.

Lemma sput_same s p el : sget s p = Some el → sput s p el = s.
Proof.
  destruct p as [a|]; simpl.
  - intros H. rewrite list_insert_id by done. by destruct s.
  - intros [= <-]. by destruct s as [[] ?].
Qed.

(** Part [i] of the element that [p] designates. *)
Definition partOf (s : Store) (p : eptr) (i : nat) : option (list (list Z)) :=
  el ← sget s p; value el !! i.

Lemma readP_Part s p i pl :
  partOf s p i = Some pl → readP (Part p i) s = Some (pl, s).
Proof.
  unfold partOf. destruct (sget s p) as [el|] eqn:Hg; [simpl|done]. intros Hv.
  unfold readP. rewrite (bind_Some _ _ _ _ _ (getEl_sget _ _ _ Hg)).
  unfold lift. by rewrite Hv.
Qed.

Lemma writeP_Part s p i pl el :
  sget s p = Some el → (i < length (value el))%nat →
  writeP (Part p i) pl s = Some (tt, sput s p (setPart el i pl)).
Proof.
  intros Hg Hi. unfold writeP.
  rewrite (bind_Some _ _ _ _ _ (getEl_sget _ _ _ Hg)).
  unfold lift at 1, checkedInsert. rewrite decide_True by done. unfold bind at 1.
  by apply putEl_sput with el.
Qed.

Lemma polyOp2_Part (g : list (list Z) → list (list Z) → list (list Z) → option (list (list Z)))
    s ta tb out i pa pb pd r O :
  partOf s ta i = Some pa → partOf s tb i = Some pb →
  sget s out = Some O → value O !! i = Some pd → g pa pb pd = Some r →
  polyOp2 g (Part ta i) (Part tb i) (Part out i) s
  = Some (tt, sput s out (setPart O i r)).
Proof.
  intros Ha Hb Ho Hd Hg. unfold polyOp2.
  rewrite (bind_Some _ _ _ _ _ (readP_Part _ _ _ _ Ha)).
  rewrite (bind_Some _ _ _ _ _ (readP_Part _ _ _ _ Hb)).
  assert (Hpo : partOf s out i = Some pd) by (unfold partOf; by rewrite Ho).
  rewrite (bind_Some _ _ _ _ _ (readP_Part _ _ _ _ Hpo)).
  unfold lift at 1. rewrite Hg. unfold bind at 1.
  apply writeP_Part; [done|]. by eapply lookup_lt_Some.
Qed.

Lemma polyOp1_Part (g : list (list Z) → list (list Z) → option (list (list Z)))
    s ta out i pa pd r O :
  partOf s ta i = Some pa →
  sget s out = Some O → value O !! i = Some pd → g pa pd = Some r →
  polyOp1 g (Part ta i) (Part out i) s
  = Some (tt, sput s out (setPart O i r)).
Proof.
  intros Ha Ho Hd Hg. unfold polyOp1.
  rewrite (bind_Some _ _ _ _ _ (readP_Part _ _ _ _ Ha)).
  assert (Hpo : partOf s out i = Some pd) by (unfold partOf; by rewrite Ho).
  rewrite (bind_Some _ _ _ _ _ (readP_Part _ _ _ _ Hpo)).
  unfold lift at 1. rewrite Hg. unfold bind at 1.
  apply writeP_Part; [done|]. by eapply lookup_lt_Some.
Qed.

Lemma partOf_sput_other s out t i X :
  t ≠ out → partOf (sput s out X) t i = partOf s t i.
Proof. intros H. unfold partOf. by rewrite sget_sput_ne. Qed.

Lemma partOf_sput_same s out i j r O :
  sget s out = Some O → i ≠ j →
  partOf (sput s out (setPart O j r)) out i = partOf s out i.
Proof.
  intros Ho Hij. unfold partOf. rewrite (sget_sput_eq _ _ _ _ Ho), Ho. simpl.
  apply list_lookup_insert_ne. done.
Qed.

Lemma partOf_after_write s out t i j r O :
  sget s out = Some O → i ≠ j →
  partOf (sput s out (setPart O j r)) t i = partOf s t i.
Proof.
  intros Ho Hij. destruct (decide (t = out)) as [->|Hne].
  - by apply partOf_sput_same.
  - by apply partOf_sput_other.
Qed.

(** A loop that stores, for each [i] of a range, a polynomial computed from
    part [i] of two sources and of the receiver into part [i] of the receiver. *)
Lemma loop2_run (g : list (list Z) → list (list Z) → list (list Z) → option (list (list Z)))
    (ta tb out : eptr) : ∀ (cnt i0 : nat) (s : Store) (O : Element),
  sget s out = Some O →
  (∀ i, (i0 ≤ i < i0 + cnt)%nat →
     ∃ pa pb pd r, partOf s ta i = Some pa ∧ partOf s tb i = Some pb
                   ∧ value O !! i = Some pd ∧ g pa pb pd = Some r) →
  ∃ O',
    forRange cnt (Z.of_nat i0)
      (fun i => polyOp2 g (Part ta (Z.to_nat i)) (Part tb (Z.to_nat i))
                          (Part out (Z.to_nat i))) s
    = Some (tt, sput s out O')
    ∧ length (value O') = length (value O)
    ∧ scale O' = scale O ∧ isNTT O' = isNTT O
    ∧ (∀ i, (i0 ≤ i < i0 + cnt)%nat →
         ∃ pa pb pd, partOf s ta i = Some pa ∧ partOf s tb i = Some pb
                     ∧ value O !! i = Some pd ∧ value O' !! i = g pa pb pd)
    ∧ (∀ i, ¬ (i0 ≤ i < i0 + cnt)%nat → value O' !! i = value O !! i).
Proof.
  induction cnt as [|cnt IH]; intros i0 s O Ho Hall.
  - exists O. simpl. unfold ret. rewrite (sput_same _ _ _ Ho). split_and!; try done.
    intros i Hi. lia.
  - destruct (Hall i0) as (pa & pb & pd & r & Ha & Hb & Hd & Hg); [lia|].
    cbn [forRange]. rewrite Nat2Z.id.
    rewrite (bind_Some _ _ _ _ _ (polyOp2_Part g s ta tb out i0 pa pb pd r O Ha Hb Ho Hd Hg)).
    set (s1 := sput s out (setPart O i0 r)).
    assert (Ho1 : sget s1 out = Some (setPart O i0 r)) by (by eapply sget_sput_eq).
    destruct (IH (S i0) s1 (setPart O i0 r) Ho1) as (O' & Hrun & Hlen & Hsc & Hntt & Hin & Hout).
    { intros i Hi. destruct (Hall i) as (pa' & pb' & pd' & r' & Ha' & Hb' & Hd' & Hg'); [lia|].
      exists pa', pb', pd', r'. unfold s1.
      rewrite !(partOf_after_write s out _ i i0 r O Ho) by lia.
      split_and!; try done. simpl. rewrite list_lookup_insert_ne by lia. done. }
    exists O'. replace (Z.of_nat i0 + 1) with (Z.of_nat (S i0)) by lia.
    rewrite Hrun. unfold s1. rewrite sput_sput. split_and!; try done.
    + rewrite Hlen. simpl. by rewrite length_insert.
    + intros i Hi. destruct (decide (i = i0)) as [->|Hne].
      * exists pa, pb, pd. split_and!; try done.
        rewrite Hout by lia. simpl. rewrite Hg.
        apply list_lookup_insert_eq. by eapply lookup_lt_Some.
      * destruct (Hin i) as (pa' & pb' & pd' & Ha' & Hb' & Hd' & Hv); [lia|].
        unfold s1 in Ha', Hb'.
        rewrite (partOf_after_write s out ta i i0 r O Ho) in Ha' by lia.
        rewrite (partOf_after_write s out tb i i0 r O Ho) in Hb' by lia.
        simpl in Hd'. rewrite list_lookup_insert_ne in Hd' by lia.
        exists pa', pb', pd'. by split_and!.
    + intros i Hi. rewrite Hout by lia. simpl.
      apply list_lookup_insert_ne. lia.
Qed.


Lemma loop1_run (g : list (list Z) → list (list Z) → option (list (list Z)))
    (ta out : eptr) : ∀ (cnt i0 : nat) (s : Store) (O : Element),
  sget s out = Some O →
  (∀ i, (i0 ≤ i < i0 + cnt)%nat →
     ∃ pa pd r, partOf s ta i = Some pa ∧ value O !! i = Some pd ∧ g pa pd = Some r) →
  ∃ O',
    forRange cnt (Z.of_nat i0)
      (fun i => polyOp1 g (Part ta (Z.to_nat i)) (Part out (Z.to_nat i))) s
    = Some (tt, sput s out O')
    ∧ length (value O') = length (value O)
    ∧ scale O' = scale O ∧ isNTT O' = isNTT O
    ∧ (∀ i, (i0 ≤ i < i0 + cnt)%nat →
         ∃ pa pd, partOf s ta i = Some pa ∧ value O !! i = Some pd
                  ∧ value O' !! i = g pa pd)
    ∧ (∀ i, ¬ (i0 ≤ i < i0 + cnt)%nat → value O' !! i = value O !! i).
Proof.
  induction cnt as [|cnt IH]; intros i0 s O Ho Hall.
  - exists O. simpl. unfold ret. rewrite (sput_same _ _ _ Ho). split_and!; try done.
    intros i Hi. lia.
  - destruct (Hall i0) as (pa & pd & r & Ha & Hd & Hg); [lia|].
    cbn [forRange]. rewrite Nat2Z.id.
    rewrite (bind_Some _ _ _ _ _ (polyOp1_Part g s ta out i0 pa pd r O Ha Ho Hd Hg)).
    set (s1 := sput s out (setPart O i0 r)).
    assert (Ho1 : sget s1 out = Some (setPart O i0 r)) by (by eapply sget_sput_eq).
    destruct (IH (S i0) s1 (setPart O i0 r) Ho1) as (O' & Hrun & Hlen & Hsc & Hntt & Hin & Hout).
    { intros i Hi. destruct (Hall i) as (pa' & pd' & r' & Ha' & Hd' & Hg'); [lia|].
      exists pa', pd', r'. unfold s1.
      rewrite (partOf_after_write s out ta i i0 r O Ho) by lia.
      split_and!; try done. simpl. rewrite list_lookup_insert_ne by lia. done. }
    exists O'. replace (Z.of_nat i0 + 1) with (Z.of_nat (S i0)) by lia.
    rewrite Hrun. unfold s1. rewrite sput_sput. split_and!; try done.
    + rewrite Hlen. simpl. by rewrite length_insert.
    + intros i Hi. destruct (decide (i = i0)) as [->|Hne].
      * exists pa, pd. split_and!; try done.
        rewrite Hout by lia. simpl. rewrite Hg.
        apply list_lookup_insert_eq. by eapply lookup_lt_Some.
      * destruct (Hin i) as (pa' & pd' & Ha' & Hd' & Hv); [lia|].
        unfold s1 in Ha'.
        rewrite (partOf_after_write s out ta i i0 r O Ho) in Ha' by lia.
        simpl in Hd'. rewrite list_lookup_insert_ne in Hd' by lia.
        exists pa', pd'. by split_and!.
    + intros i Hi. rewrite Hout by lia. simpl.
      apply list_lookup_insert_ne. lia.
Qed.

(** *** Shapes *)

(** A polynomial of [k] rows of [nn] coefficients; an element of degree [d]
    whose parts all have that shape. *)
Definition shapePoly (k nn : nat) (p : list (list Z)) : Prop :=
  length p = k ∧ Forall (fun row : list Z => length row = nn) p.

Definition shapeEl (k d nn : nat) (el : Element) : Prop :=
  length (value el) = S d ∧ Forall (shapePoly k nn) (value el).

Lemma shapeEl_rowsEl k d nn el : shapeEl k d nn el → rowsEl k el.
Proof.
  intros [Hl Hall]. split.
  - intros E. rewrite E in Hl. done.
  - eapply Forall_impl; [done|]. by intros p [? _].
Qed.

Lemma shapeEl_Level k d nn el :
  shapeEl k d nn el → (1 ≤ k)%nat → Z.of_nat k < 2 ^ 64 →
  Level el = Some (Z.of_nat k - 1).
Proof. intros H H1 Hk. eapply Level_rowsEl_pos; eauto using shapeEl_rowsEl. Qed.

Lemma shapeEl_Degree k d nn el :
  shapeEl k d nn el → Z.of_nat d < 2 ^ 64 - 1 → Degree el = Z.of_nat d.
Proof.
  intros [Hl _] Hd. unfold Degree, wrap64. rewrite Hl.
  rewrite Z.mod_small; lia.
Qed.

Lemma shapeEl_part k d nn el i :
  shapeEl k d nn el → (i ≤ d)%nat → ∃ p, value el !! i = Some p ∧ shapePoly k nn p.
Proof.
  intros [Hl Hall] Hi.
  destruct (lookup_lt_is_Some_2 (value el) i) as [p Hp]; [lia|].
  exists p. split; [done|]. by eapply Forall_lookup_1.
Qed.

(** *** Scaling by the integer ratio of the scales *)

Section WithKernels.
Context `{K : Kernels}.

(** The Montgomery-form constant of the integer [ratio] for the modulus [q]. *)
Definition constFor (ratio q : Z) : option Z :=
  let cReal := float64_of_uint64 ratio in
  re ← (if (cReal =? 0)%float then Some 0 else scaleUpExact cReal 1 q);
  Some (MForm re q).

(** The rows multiplied by [ratio], each modulo its prime. *)
Fixpoint scaledRows (ratio : Z) (moduli : list Z) (rows : list (list Z))
    {struct rows} : option (list (list Z)) :=
  match rows with
  | [] => Some []
  | row :: rows' =>
      match moduli with
      | q :: moduli' =>
          k ← constFor ratio q;
          rest ← scaledRows ratio moduli' rows';
          Some (map (fun x => MRed x k q) row :: rest)
      | [] => None
      end
  end.

Lemma scaledConsts_real ratio q :
  scaledConsts (float64_of_uint64 ratio) 0 1 q
  = (k ← constFor ratio q; Some (k, k)).
Proof.
  unfold scaledConsts, constFor. cbn zeta.
  destruct (if (float64_of_uint64 ratio =? 0)%float then Some 0
            else scaleUpExact (float64_of_uint64 ratio) 1 q) as [re|]; [|done].
  simpl. done.
Qed.

Lemma multRow_full (nn : Z) (k q : Z) (r0 r1 : list Z) :
  length r0 = Z.to_nat nn → length r1 = Z.to_nat nn →
  multRow nn k k q r0 r1 = Some (map (fun x => MRed x k q) r0).
Proof.
  intros H0 H1. unfold multRow. rewrite decide_True by (split; lia). f_equal.
  rewrite (take_ge r0 (Z.to_nat nn)) by lia.
  rewrite (drop_ge r1 (Z.to_nat nn)) by lia.
  rewrite app_nil_r, <- fmap_app. by rewrite take_drop.
Qed.

Lemma multRows_scaled (nn : Z) (ratio : Z) : ∀ (k : nat) (moduli : list Z) (p0 p1 : list (list Z)),
  (k ≤ length p0)%nat → (k ≤ length p1)%nat →
  Forall (fun row : list Z => length row = Z.to_nat nn) (take k p0) →
  Forall (fun row : list Z => length row = Z.to_nat nn) (take k p1) →
  multRows nn (float64_of_uint64 ratio) 0 1 moduli k p0 p1
  = (x ← scaledRows ratio moduli (take k p0); Some (x ++ drop k p1)).
Proof.
  induction k as [|k IH]; intros moduli p0 p1 H0 H1 F0 F1.
  - destruct moduli; simpl; by rewrite ?drop_0.
  - destruct p0 as [|r0 p0]; [simpl in H0; lia|].
    destruct p1 as [|r1 p1]; [simpl in H1; lia|].
    destruct moduli as [|q moduli]; [done|].
    simpl in *. inversion F0; subst. inversion F1; subst.
    rewrite scaledConsts_real.
    destruct (constFor ratio q) as [kq|]; [|done]. simpl.
    rewrite multRow_full by done. simpl.
    rewrite IH by (done || lia).
    destruct (scaledRows ratio moduli (take k p0)); done.
Qed.

Lemma scaledRows_length ratio : ∀ moduli rows x,
  scaledRows ratio moduli rows = Some x → length x = length rows.
Proof.
  intros moduli rows. revert moduli.
  induction rows as [|row rows IH]; intros moduli x; simpl.
  - by intros [= <-].
  - destruct moduli as [|q moduli]; [done|].
    destruct (constFor ratio q); [|done]. simpl.
    destruct (scaledRows ratio moduli rows) eqn:E; [|done]. simpl.
    intros [= <-]. simpl. f_equal. by eapply IH.
Qed.

Lemma scaledRows_shape ratio nn : ∀ moduli rows x,
  scaledRows ratio moduli rows = Some x →
  Forall (fun row : list Z => length row = nn) rows →
  Forall (fun row : list Z => length row = nn) x.
Proof.
  intros moduli rows. revert moduli.
  induction rows as [|row rows IH]; intros moduli x; simpl.
  - by intros [= <-].
  - destruct moduli as [|q moduli]; [done|].
    destruct (constFor ratio q); [|done]. simpl.
    destruct (scaledRows ratio moduli rows) eqn:E; [|done]. simpl.
    intros [= <-] HF. inversion HF; subst.
    constructor; [by rewrite length_map | by eapply IH].
Qed.

Lemma scaledRows_take ratio : ∀ moduli rows x (j : nat),
  scaledRows ratio moduli rows = Some x →
  scaledRows ratio moduli (take j rows) = Some (take j x).
Proof.
  intros moduli rows. revert moduli.
  induction rows as [|row rows IH]; intros moduli x j; simpl.
  - intros [= <-]. by destruct j.
  - destruct moduli as [|q moduli]; [done|].
    destruct (constFor ratio q) eqn:Ek; [|done]. simpl.
    destruct (scaledRows ratio moduli rows) eqn:E; [|done]. simpl.
    intros [= <-]. destruct j as [|j]; [done|]. simpl. rewrite Ek. simpl.
    by rewrite (IH _ _ j E).
Qed.

End WithKernels.

End AddSubProofs.

(** ** Helpers of package ckks (ckks/utils.go) *)

Module UtilsProofs.
Import RingPkg Ckks Utils.

(** *** [scaleUpExact] *)

(** [scaleUpExact] on a finite product: a non-negative [value] yields a residue
    below [q]; a negative one yields [q - res], which lies in [(0, q]] and is
    [q] itself, not 0, when the magnitude is a multiple of [q]. *)
Theorem scaleUpExact_range (v nn : float) (q r : Z) :
  0 < q < 2 ^ 64 →
  scaleUpExact v nn q = Some r →
  if (v <? 0)%float
  then 0 < r <= q ∧ (truncFloat (- nn * v) mod q = 0 → r = q)
  else 0 <= r < q.
Proof.
  intros Hq. unfold scaleUpExact. cbn zeta.
  destruct (v <? 0)%float.
  - set (x := (- nn * v)%float).
    pose proof (Z.mod_pos_bound (truncFloat x) q ltac:(lia)) as Hm.
    assert (Hw : wrap64 (truncFloat x mod q) = truncFloat x mod q)
      by (unfold wrap64; apply Z.mod_small; lia).
    destruct (Prim2SF x); try discriminate;
      (intros [= <-]; rewrite Hw; unfold wrap64;
       rewrite (Z.mod_small (q - _)) by lia; split; [lia|intros ->; lia]).
  - set (x := (nn * v)%float).
    pose proof (Z.mod_pos_bound (truncFloat x) q ltac:(lia)) as Hm.
    assert (Hw : wrap64 (truncFloat x mod q) = truncFloat x mod q)
      by (unfold wrap64; apply Z.mod_small; lia).
    destruct (Prim2SF x); try discriminate; (intros [= <-]; rewrite Hw; lia).
Qed.

(** The value -17 scaled by 1 modulo 17 comes out as 17. *)
Lemma scaleUpExact_range_witness :
  scaleUpExact (-17)%float 1%float 17 = Some 17
  ∧ 0 < 17 <= 17.
Proof.
  split; [reflexivity|].
  pose proof (scaleUpExact_range (-17)%float 1%float 17 17 ltac:(lia) eq_refl) as H.
  change ((-17 <? 0)%float) with true in H. cbv iota in H. exact (proj1 H).
Defined.

(** *** [genBigIntChain] *)

(** The product of the first [k] moduli. *)
Definition prodTo (Q : list Z) (k : nat) : Z := foldr Z.mul 1 (take k Q).

Lemma prodTo_S (Q : list Z) (k : nat) (q : Z) :
  Q !! k = Some q → prodTo Q (S k) = q * prodTo Q k.
Proof.
  intros H. unfold prodTo. rewrite (take_S_r _ _ _ H).
  rewrite foldr_app. simpl.
  generalize (take k Q) as l. induction l as [|a l IH]; simpl; [lia|].
  rewrite IH. lia.
Qed.

Lemma chainLoop_spec (Q : list Z) : ∀ (count i : nat),
  (1 ≤ i)%nat → (i + count = length Q)%nat →
  chainLoop Q count i
    (map (fun k => Some (prodTo Q (S k))) (seq 0 i) ++ replicate count None)
  = Some (map (fun k => Some (prodTo Q (S k))) (seq 0 (length Q))).
Proof.
  induction count as [|count IH]; intros i Hi Hlen.
  - simpl. rewrite app_nil_r. by replace i with (length Q) by lia.
  - cbn [chainLoop].
    destruct (lookup_lt_is_Some_2 Q i ltac:(lia)) as [qi Hqi]. rewrite Hqi. simpl.
    rewrite lookup_app_l by (rewrite length_map, length_seq; lia).
    rewrite list_lookup_fmap, lookup_seq_lt by lia. simpl.
    rewrite decide_True
      by (rewrite length_app, length_map, length_seq; simpl; lia).
    replace (<[i:=Some (qi * prodTo Q (S (i - 1)))]>
               (map (λ k : nat, Some (prodTo Q (S k))) (seq 0 i)
                ++ None :: replicate count None))
      with (map (λ k : nat, Some (prodTo Q (S k))) (seq 0 (S i))
            ++ replicate count (@None Z)).
    + apply IH; lia.
    + rewrite seq_S, map_app. simpl. rewrite <- app_assoc. simpl.
      rewrite insert_app_r_alt by (rewrite length_map, length_seq; lia).
      rewrite length_map, length_seq, Nat.sub_diag. simpl.
      do 3 f_equal. replace (S (i - 1)) with i by lia.
      by apply prodTo_S.
Qed.

(** [genBigIntChain] panics on an empty list; otherwise entry [i] of the chain
    is allocated and holds the product of the moduli [Q[0] .. Q[i]]. *)
Theorem genBigIntChain_products (Q : list Z) :
  (Q = [] → genBigIntChain Q = None)
  ∧ (Q ≠ [] →
     genBigIntChain Q
     = Some (map (fun k => Some (foldr Z.mul 1 (take (S k) Q))) (seq 0 (length Q)))).
Proof.
  split; [by intros ->|]. intros HQ.
  destruct Q as [|q0 Q']; [done|]. unfold genBigIntChain.
  cbn [lookup list_lookup mbind option_bind].
  rewrite decide_True by (rewrite length_replicate; simpl; lia).
  cbn [length]. replace (S (length Q') - 1)%nat with (length Q') by lia.
  pose proof (chainLoop_spec (q0 :: Q') (length Q') 1 ltac:(lia) ltac:(simpl; lia)) as H.
  cbn [length] in H. unfold prodTo in H. etrans; [|exact H].
  f_equal. simpl. by rewrite ?take_0, ?Z.mul_1_r.
Qed.

Lemma genBigIntChain_products_witness :
  genBigIntChain [3; 5; 7] = Some [Some 3; Some 15; Some 105].
Proof.
  exact (proj2 (genBigIntChain_products [3; 5; 7]) ltac:(discriminate)).
Defined.

(** *** [generateCKKSPrimes] *)

Section Primes.
Variable IsPrime : Z → bool.

Lemma primesLoop_prefix (levels _2N : Z) : ∀ (fuel : nat) (x y : Z) (primes l : list Z),
  primesLoop IsPrime fuel levels _2N x y primes = Some l → ∃ t, l = primes ++ t.
Proof.
  induction fuel as [|fuel IH]; intros x y primes l; [done|]. cbn [primesLoop]. cbn zeta.
  destruct (IsPrime y && _) eqn:E1.
  { intros [= <-]. destruct (IsPrime y); [by eexists|done]. }
  destruct (IsPrime x && _) eqn:E2.
  { intros [= <-]. destruct (IsPrime x); [|by destruct (IsPrime y)].
    destruct (IsPrime y); rewrite <- ?app_assoc; by eexists. }
  intros H. apply IH in H as [t ->].
  destruct (IsPrime y), (IsPrime x); rewrite <- ?app_assoc; by eexists.
Qed.

Lemma pow2_start (logQ : Z) :
  0 <= logQ <= 60 → wrap64 (wrap64 (Z.shiftl 1 logQ) + 1) = 2 ^ logQ + 1.
Proof.
  intros H. rewrite Z.shiftl_1_l. unfold wrap64.
  assert (2 ^ logQ <= 2 ^ 60) by (apply Z.pow_le_mono_r; lia).
  assert (0 < 2 ^ logQ) by (apply Z.pow_pos_nonneg; lia).
  rewrite (Z.mod_small (2 ^ logQ)) by lia. apply Z.mod_small. lia.
Qed.

(** [generateCKKSPrimes] tests the first candidate [2^logQ + 1] twice, once as
    [y] and once as [x]: when it is prime and two primes are asked for, the
    result is that prime twice; when more are asked for, every returned list
    starts with it twice. *)
Theorem generateCKKSPrimes_first_candidate_twice (fuel : nat) (logQ logN : Z) :
  0 <= logQ <= 60 →
  IsPrime (2 ^ logQ + 1) = true →
  generateCKKSPrimes IsPrime (S fuel) logQ logN 2
    = Returns [2 ^ logQ + 1; 2 ^ logQ + 1]
  ∧ ∀ (levels : Z) (l : list Z), 2 <= levels < 2 ^ 64 →
      generateCKKSPrimes IsPrime (S fuel) logQ logN levels = Returns l →
      take 2 l = [2 ^ logQ + 1; 2 ^ logQ + 1].
Proof.
  intros HQ Hp. unfold generateCKKSPrimes.
  replace (60 <? logQ) with false by (symmetry; apply Z.ltb_ge; lia).
  cbn zeta. rewrite (pow2_start logQ HQ). split.
  - cbn [primesLoop]. cbn zeta. rewrite Hp. reflexivity.
  - intros levels l Hl. cbn [primesLoop]. cbn zeta. rewrite Hp.
    cbn [app length andb].
    change (wrap64 (Z.of_nat 1)) with 1. change (wrap64 (Z.of_nat 2)) with 2.
    replace (1 =? levels) with false by (symmetry; apply Z.eqb_neq; lia).
    destruct (2 =? levels) eqn:E2; [by intros [= <-]|].
    destruct (primesLoop _ _ _ _ _ _ _) as [l'|] eqn:E; [|done].
    intros [= <-]. apply primesLoop_prefix in E as [t ->]. done.
Qed.

(** Every candidate stays congruent to 1 modulo [2N]. *)
Lemma wrap64_cong (m a b : Z) :
  0 <= m <= 64 → a mod 2 ^ m = 1 mod 2 ^ m → b mod 2 ^ m = 0 →
  wrap64 (a + b) mod 2 ^ m = 1 mod 2 ^ m ∧ wrap64 (a - b) mod 2 ^ m = 1 mod 2 ^ m.
Proof.
  intros Hm Ha Hb. unfold wrap64.
  assert (Hd : (2 ^ m | 2 ^ 64)).
  { exists (2 ^ (64 - m)). rewrite <- Z.pow_add_r by lia. f_equal. lia. }
  assert (0 < 2 ^ m) by (apply Z.pow_pos_nonneg; lia).
  rewrite !(Z.mod_mod_divide _ (2 ^ 64) (2 ^ m)) by done.
  split.
  - rewrite Z.add_mod, Ha, Hb, Z.add_0_r, Z.mod_mod by lia. done.
  - rewrite Zminus_mod, Ha, Hb, Z.sub_0_r, Z.mod_mod by lia. done.
Qed.

Lemma primesLoop_sound (levels _2N : Z) (P : Z → Prop) :
  (∀ x, P x → P (wrap64 (x + _2N)) ∧ P (wrap64 (x - _2N))) →
  ∀ (fuel : nat) (x y : Z) (primes l : list Z),
    P x → P y →
    Forall (fun p => IsPrime p = true ∧ P p) primes →
    primesLoop IsPrime fuel levels _2N x y primes = Some l →
    wrap64 (Z.of_nat (length l)) = levels
    ∧ Forall (fun p => IsPrime p = true ∧ P p) l.
Proof.
  intros Hstep. induction fuel as [|fuel IH]; intros x y primes l Hx Hy Hall; [done|].
  cbn [primesLoop]. cbn zeta.
  assert (H1 : Forall (fun p => IsPrime p = true ∧ P p)
                 (if IsPrime y then primes ++ [y] else primes)).
  { destruct (IsPrime y) eqn:E; [|done]. apply Forall_app. split; [done|].
    by repeat constructor. }
  destruct (IsPrime y && _) eqn:E1.
  { apply andb_true_iff in E1 as [_ E1%Z.eqb_eq]. by intros [= <-]. }
  assert (H2 : Forall (fun p => IsPrime p = true ∧ P p)
                 (if IsPrime x
                  then (if IsPrime y then primes ++ [y] else primes) ++ [x]
                  else (if IsPrime y then primes ++ [y] else primes))).
  { destruct (IsPrime x) eqn:E; [|done]. apply Forall_app. split; [done|].
    by repeat constructor. }
  destruct (IsPrime x && _) eqn:E2.
  { apply andb_true_iff in E2 as [_ E2%Z.eqb_eq]. by intros [= <-]. }
  apply IH; try done; by apply Hstep.
Qed.

(** Whenever [generateCKKSPrimes] returns, it returns exactly [levels] numbers,
    each accepted by [ring.IsPrime]; when [2N] divides [2^logQ], each of them is
    congruent to 1 modulo [2N], also across the wrap-around of [y -= 2N]. *)
Theorem generateCKKSPrimes_sound (fuel : nat) (logQ logN levels : Z) (l : list Z) :
  generateCKKSPrimes IsPrime fuel logQ logN levels = Returns l →
  wrap64 (Z.of_nat (length l)) = levels
  ∧ Forall (fun p => IsPrime p = true) l
  ∧ (0 <= logN → logN + 1 <= logQ →
     Forall (fun p => p mod 2 ^ (logN + 1) = 1) l).
Proof.
  unfold generateCKKSPrimes. destruct (60 <? logQ) eqn:E60; [done|].
  apply Z.ltb_ge in E60. cbn zeta.
  destruct (primesLoop _ _ _ _ _ _ _) as [l'|] eqn:E; [|done]. intros [= <-].
  split; [|split].
  - eapply (primesLoop_sound _ _ (fun _ => True)) in E; try done. by destruct E.
  - eapply (primesLoop_sound _ _ (fun _ => True)) in E; try done.
    destruct E as [_ E]. eapply Forall_impl; [exact E|]. by intros ? [? _].
  - intros HN HNQ.
    assert (H1 : 1 mod 2 ^ (logN + 1) = 1).
    { apply Z.mod_small. split; [lia|]. apply Z.pow_gt_1; lia. }
    assert (H2N : wrap64 (Z.shiftl 2 logN) = 2 ^ (logN + 1)).
    { rewrite Z.shiftl_mul_pow2 by lia. unfold wrap64.
      replace (2 * 2 ^ logN) with (2 ^ (logN + 1)) by (rewrite Z.pow_add_r; lia).
      apply Z.mod_small. split; [apply Z.pow_nonneg; lia|].
      apply Z.pow_lt_mono_r; lia. }
    rewrite H2N in E. rewrite (pow2_start logQ ltac:(lia)) in E.
    eapply (primesLoop_sound _ _ (fun x => x mod 2 ^ (logN + 1) = 1 mod 2 ^ (logN + 1)))
      in E; try done.
    + destruct E as [_ E]. eapply Forall_impl; [exact E|].
      intros p [_ Hp]. by rewrite Hp.
    + intros x Hx. apply wrap64_cong; [lia|done|]. apply Z.mod_same.
      apply Z.pow_nonzero; lia.
    + replace (2 ^ logQ) with (2 ^ (logQ - (logN + 1)) * 2 ^ (logN + 1))
        by (rewrite <- Z.pow_add_r by lia; f_equal; lia).
      rewrite Z.add_comm. apply Z.mod_add. apply Z.pow_nonzero; lia.
    + replace (2 ^ logQ) with (2 ^ (logQ - (logN + 1)) * 2 ^ (logN + 1))
        by (rewrite <- Z.pow_add_r by lia; f_equal; lia).
      rewrite Z.add_comm. apply Z.mod_add. apply Z.pow_nonzero; lia.
Qed.

Lemma primesLoop_zero_levels (_2N : Z) : ∀ (fuel : nat) (x y : Z) (primes : list Z),
  Z.of_nat (length primes) + 2 * Z.of_nat fuel < 2 ^ 64 →
  primesLoop IsPrime fuel 0 _2N x y primes = None.
Proof.
  induction fuel as [|fuel IH]; intros x y primes Hlen; [done|].
  cbn [primesLoop]. cbn zeta.
  assert (Hnz : ∀ l : list Z, (0 < length l)%nat → Z.of_nat (length l) < 2 ^ 64 →
                  (wrap64 (Z.of_nat (length l)) =? 0) = false).
  { intros l H0 H1. apply Z.eqb_neq. unfold wrap64. rewrite Z.mod_small; lia. }
  destruct (IsPrime y) eqn:Ey; cbn [andb].
  - rewrite Hnz by (rewrite length_app; simpl; lia).
    destruct (IsPrime x) eqn:Ex; cbn [andb].
    + rewrite Hnz by (rewrite !length_app; simpl; lia).
      apply IH. rewrite !length_app. simpl. lia.
    + apply IH. rewrite !length_app. simpl. lia.
  - destruct (IsPrime x) eqn:Ex; cbn [andb].
    + rewrite Hnz by (rewrite !length_app; simpl; lia).
      apply IH. rewrite !length_app. simpl. lia.
    + apply IH. lia.
Qed.

(** Asked for zero primes, [generateCKKSPrimes] never returns: the length test
    comes after an [append], so it never sees length 0. *)
Theorem generateCKKSPrimes_zero_levels_loops (fuel : nat) (logQ logN : Z) :
  logQ <= 60 → 2 * Z.of_nat fuel < 2 ^ 64 →
  generateCKKSPrimes IsPrime fuel logQ logN 0 = OutOfFuel.
Proof.
  intros HQ Hf. unfold generateCKKSPrimes.
  replace (60 <? logQ) with false by (symmetry; apply Z.ltb_ge; lia).
  cbn zeta. rewrite primesLoop_zero_levels; [done|]. simpl. lia.
Qed.

End Primes.

(** Primality by trial division, for the examples. *)
Definition trialPrime (p : Z) : bool :=
  (1 <? p) && forallb (fun d => negb (p mod Z.of_nat d =? 0))
                      (seq 2 (Z.to_nat (Z.sqrt p) - 1)).

Lemma generateCKKSPrimes_first_candidate_twice_witness :
  generateCKKSPrimes trialPrime 1 16 10 2 = Returns [65537; 65537].
Proof.
  exact (proj1 (generateCKKSPrimes_first_candidate_twice trialPrime 0 16 10
                  ltac:(lia) ltac:(vm_compute; reflexivity))).
Defined.

Lemma generateCKKSPrimes_sound_witness :
  Forall (fun p => p mod 2 ^ (2 + 1) = 1) [41; 17].
Proof.
  exact (proj2 (proj2 (generateCKKSPrimes_sound trialPrime 10 5 2 2 [41; 17]
                         ltac:(vm_compute; reflexivity)))
           ltac:(lia) ltac:(lia)).
Defined.

Lemma generateCKKSPrimes_zero_levels_loops_witness :
  generateCKKSPrimes trialPrime 20 5 2 0 = OutOfFuel.
Proof.
  exact (generateCKKSPrimes_zero_levels_loops trialPrime 20 5 2 ltac:(lia) ltac:(lia)).
Defined.

(** *** [sliceBitReverseInPlaceComplex128] *)

(** The [k]-bit reversal of [x]. *)
Fixpoint bitrev (k : nat) (x : Z) : Z :=
  match k with
  | O => 0
  | S k' => (x mod 2) * 2 ^ Z.of_nat k' + bitrev k' (x / 2)
  end.

Lemma bitrev_range (k : nat) : ∀ x, 0 <= bitrev k x < 2 ^ Z.of_nat k.
Proof.
  induction k as [|k IH]; intros x; [simpl; lia|].
  cbn [bitrev]. specialize (IH (x / 2)).
  pose proof (Z.mod_pos_bound x 2 ltac:(lia)).
  replace (2 ^ Z.of_nat (S k)) with (2 * 2 ^ Z.of_nat k)
    by (rewrite Nat2Z.inj_succ, Z.pow_succ_r; lia).
  nia.
Qed.

(** Peeling the top bit instead of the bottom one. *)
Lemma bitrev_top (k : nat) : ∀ x, 0 <= x < 2 ^ Z.of_nat (S k) →
  bitrev (S k) x = 2 * bitrev k (x mod 2 ^ Z.of_nat k) + x / 2 ^ Z.of_nat k.
Proof.
  induction k as [|k IH]; intros x Hx.
  - cbn [bitrev]. change (2 ^ Z.of_nat 0) with 1. change (2 ^ Z.of_nat 1) with 2 in Hx.
    rewrite Z.div_1_r, Z.mod_small by lia. lia.
  - assert (Hp : 2 ^ Z.of_nat (S k) = 2 * 2 ^ Z.of_nat k)
      by (rewrite Nat2Z.inj_succ, Z.pow_succ_r; lia).
    assert (Hp2 : 2 ^ Z.of_nat (S (S k)) = 2 * 2 ^ Z.of_nat (S k))
      by (rewrite (Nat2Z.inj_succ (S k)), Z.pow_succ_r; lia).
    assert (Hk : 0 < 2 ^ Z.of_nat k) by (apply Z.pow_pos_nonneg; lia).
    change (bitrev (S (S k)) x)
      with ((x mod 2) * 2 ^ Z.of_nat (S k) + bitrev (S k) (x / 2)).
    rewrite (IH (x / 2)) by (split; [apply Z.div_pos; lia|apply Z.div_lt_upper_bound; lia]).
    change (bitrev (S k) (x mod 2 ^ Z.of_nat (S k)))
      with (((x mod 2 ^ Z.of_nat (S k)) mod 2) * 2 ^ Z.of_nat k
            + bitrev k ((x mod 2 ^ Z.of_nat (S k)) / 2)).
    assert (E1 : (x mod 2 ^ Z.of_nat (S k)) mod 2 = x mod 2).
    { apply Z.mod_mod_divide. exists (2 ^ Z.of_nat k). lia. }
    assert (E2 : (x mod 2 ^ Z.of_nat (S k)) / 2 = (x / 2) mod 2 ^ Z.of_nat k).
    { rewrite Hp. rewrite Z.rem_mul_r by lia.
      rewrite (Z.mul_comm 2 (_ mod _)), Z.div_add by lia.
      rewrite (Z.div_small (x mod 2) 2) by (apply Z.mod_pos_bound; lia). lia. }
    assert (E3 : x / 2 / 2 ^ Z.of_nat k = x / 2 ^ Z.of_nat (S k)).
    { rewrite Z.div_div by lia. by rewrite Hp. }
    rewrite E1, E2, E3, Hp. lia.
Qed.

Lemma bitrev_involutive (k : nat) : ∀ x, 0 <= x < 2 ^ Z.of_nat k →
  bitrev k (bitrev k x) = x.
Proof.
  induction k as [|k IH]; intros x Hx.
  - change (2 ^ Z.of_nat 0) with 1 in Hx. simpl. lia.
  - assert (Hp : 2 ^ Z.of_nat (S k) = 2 * 2 ^ Z.of_nat k)
      by (rewrite Nat2Z.inj_succ, Z.pow_succ_r; lia).
    assert (Hk : 0 < 2 ^ Z.of_nat k) by (apply Z.pow_pos_nonneg; lia).
    rewrite bitrev_top by apply bitrev_range.
    cbn [bitrev].
    pose proof (bitrev_range k (x / 2)) as Hr.
    pose proof (Z.mod_pos_bound x 2 ltac:(lia)) as Hm.
    assert (E1 : (x mod 2 * 2 ^ Z.of_nat k + bitrev k (x / 2)) mod 2 ^ Z.of_nat k
                 = bitrev k (x / 2)).
    { symmetry. apply (Z.mod_unique _ _ (x mod 2)); lia. }
    assert (E2 : (x mod 2 * 2 ^ Z.of_nat k + bitrev k (x / 2)) / 2 ^ Z.of_nat k
                 = x mod 2).
    { symmetry. apply (Z.div_unique _ _ _ (bitrev k (x / 2))); lia. }
    rewrite E1, E2.
    rewrite IH by (split; [apply Z.div_pos; lia|apply Z.div_lt_upper_bound; lia]).
    pose proof (Z.div_mod x 2 ltac:(lia)). lia.
Qed.

(** The inner loop turns the reversal of [x] into the reversal of [x + 1]. *)
Lemma revIncLoop_spec (k : nat) : ∀ (x : Z) (fuel : nat),
  0 <= x → x + 1 < 2 ^ Z.of_nat (S k) → (k < fuel)%nat →
  ∃ j1 bit, revIncLoop fuel (bitrev (S k) x) (2 ^ Z.of_nat k) = Some (j1, bit)
            ∧ j1 + bit = bitrev (S k) (x + 1).
Proof.
  induction k as [|k IH]; intros x fuel Hx0 Hx Hf.
  - change (2 ^ Z.of_nat 1) with 2 in Hx. assert (x = 0) as -> by lia.
    destruct fuel as [|fuel]; [lia|]. exists 0, 1. by vm_compute.
  - assert (Hp : 2 ^ Z.of_nat (S k) = 2 * 2 ^ Z.of_nat k)
      by (rewrite Nat2Z.inj_succ, Z.pow_succ_r; lia).
    assert (Hp2 : 2 ^ Z.of_nat (S (S k)) = 2 * 2 ^ Z.of_nat (S k))
      by (rewrite (Nat2Z.inj_succ (S k)), Z.pow_succ_r; lia).
    assert (Hk : 0 < 2 ^ Z.of_nat k) by (apply Z.pow_pos_nonneg; lia).
    destruct fuel as [|fuel]; [lia|].
    change (bitrev (S (S k)) x)
      with ((x mod 2) * 2 ^ Z.of_nat (S k) + bitrev (S k) (x / 2)).
    change (bitrev (S (S k)) (x + 1))
      with (((x + 1) mod 2) * 2 ^ Z.of_nat (S k) + bitrev (S k) ((x + 1) / 2)).
    pose proof (bitrev_range (S k) (x / 2)) as Hr.
    pose proof (Z.mod_pos_bound x 2 ltac:(lia)) as Hm.
    pose proof (Z.div_mod x 2 ltac:(lia)) as Hdm.
    cbn [revIncLoop].
    destruct (decide (x mod 2 = 0)) as [He|Ho].
    + rewrite He, Z.mul_0_l, Z.add_0_l.
      replace (2 ^ Z.of_nat (S k) <=? bitrev (S k) (x / 2)) with false
        by (symmetry; apply Z.leb_gt; lia).
      eexists _, _. split; [reflexivity|].
      assert (E1 : (x + 1) mod 2 = 1)
        by (symmetry; apply (Z.mod_unique _ _ (x / 2)); lia).
      assert (E2 : (x + 1) / 2 = x / 2)
        by (symmetry; apply (Z.div_unique _ _ _ 1); lia).
      rewrite E1, E2. lia.
    + assert (Hx1 : x mod 2 = 1) by lia. rewrite Hx1, Z.mul_1_l.
      replace (2 ^ Z.of_nat (S k) <=? 2 ^ Z.of_nat (S k) + bitrev (S k) (x / 2))
        with true by (symmetry; apply Z.leb_le; lia).
      replace (2 ^ Z.of_nat (S k) + bitrev (S k) (x / 2) - 2 ^ Z.of_nat (S k))
        with (bitrev (S k) (x / 2)) by lia.
      replace (Z.shiftr (2 ^ Z.of_nat (S k)) 1) with (2 ^ Z.of_nat k)
        by (rewrite Z.shiftr_div_pow2, Hp by lia; change (2 ^ 1) with 2;
            rewrite Z.mul_comm, Z.div_mul; lia).
      destruct (IH (x / 2) fuel) as (j1 & bit & Hrun & Hsum); [lia|lia|lia|].
      exists j1, bit. split; [exact Hrun|]. rewrite Hsum.
      assert (E1 : (x + 1) mod 2 = 0)
        by (symmetry; apply (Z.mod_unique _ _ (x / 2 + 1)); lia).
      assert (E2 : (x + 1) / 2 = x / 2 + 1)
        by (symmetry; apply (Z.div_unique _ _ _ 0); lia).
      rewrite E1, E2. lia.
Qed.

(** Where position [x] comes from once the pairs whose smaller member is
    below [i] have been exchanged. *)
Definition sigma (k : nat) (i x : Z) : Z :=
  if (x <? 2 ^ Z.of_nat k) && ((x <? i) || (bitrev k x <? i)) then bitrev k x else x.

Lemma sigma_step (k : nat) (i x : Z) :
  0 <= x < 2 ^ Z.of_nat k → x ≠ i → x ≠ bitrev k i → 0 <= i < 2 ^ Z.of_nat k →
  sigma k (i + 1) x = sigma k i x.
Proof.
  intros Hx Hxi Hxj Hi. unfold sigma.
  replace (x <? 2 ^ Z.of_nat k) with true by (symmetry; apply Z.ltb_lt; lia).
  cbn [andb].
  assert (bitrev k x ≠ i).
  { intros E. apply Hxj. rewrite <- E. symmetry. by apply bitrev_involutive. }
  destruct (Z.ltb_spec x (i + 1)), (Z.ltb_spec x i),
    (Z.ltb_spec (bitrev k x) (i + 1)), (Z.ltb_spec (bitrev k x) i);
    cbn [orb]; try done; lia.
Qed.

Lemma sigma_high (k : nat) (i x : Z) : 2 ^ Z.of_nat k <= x → sigma k i x = x.
Proof.
  intros Hx. unfold sigma.
  by replace (x <? 2 ^ Z.of_nat k) with false by (symmetry; apply Z.ltb_ge; lia).
Qed.

Lemma bitRevLoop_spec {A} (k : nat) (slice : list A) :
  (k ≤ 62)%nat → 2 ^ Z.of_nat (S k) <= Z.of_nat (length slice) →
  ∀ (count : nat) (i : Z) (arr : list A),
    1 <= i → i + Z.of_nat count = 2 ^ Z.of_nat (S k) →
    length arr = length slice →
    (∀ x : nat, arr !! x = slice !! Z.to_nat (sigma (S k) i (Z.of_nat x))) →
    ∃ l, bitRevLoop count i (bitrev (S k) (i - 1)) (2 ^ Z.of_nat (S k)) arr = Returns l
         ∧ length l = length slice
         ∧ ∀ x : nat, l !! x
             = slice !! Z.to_nat (sigma (S k) (2 ^ Z.of_nat (S k)) (Z.of_nat x)).
Proof.
  intros Hk Hlen.
  assert (Hp : 2 ^ Z.of_nat (S k) = 2 * 2 ^ Z.of_nat k)
    by (rewrite Nat2Z.inj_succ, Z.pow_succ_r; lia).
  assert (Hk0 : 0 < 2 ^ Z.of_nat k) by (apply Z.pow_pos_nonneg; lia).
  assert (Hk63 : 2 ^ Z.of_nat (S k) <= 2 ^ 63) by (apply Z.pow_le_mono_r; lia).
  induction count as [|count IH]; intros i arr Hi Hsum Hla Hinv.
  - exists arr. replace i with (2 ^ Z.of_nat (S k)) in Hinv by lia. by split_and!.
  - cbn [bitRevLoop].
    replace (Z.shiftr (2 ^ Z.of_nat (S k)) 1) with (2 ^ Z.of_nat k)
      by (rewrite Z.shiftr_div_pow2, Hp by lia; change (2 ^ 1) with 2;
          rewrite Z.mul_comm, Z.div_mul; lia).
    destruct (revIncLoop_spec k (i - 1) 65) as (j1 & bit & Hrun & Hj); [lia|lia|lia|].
    rewrite Hrun. replace (i - 1 + 1) with i in Hj by lia.
    pose proof (bitrev_range (S k) i) as Hjr.
    assert (Hw : wrap64 (j1 + bit) = bitrev (S k) i).
    { rewrite Hj. unfold wrap64. apply Z.mod_small. lia. }
    cbv zeta. rewrite Hw.
    assert (Hinvol : bitrev (S k) (bitrev (S k) i) = i) by (apply bitrev_involutive; lia).
    assert (IH' := IH (i + 1)). replace (i + 1 - 1) with i in IH' by lia.
    remember (bitrev (S k) i) as j2 eqn:Ej2.
    destruct (Z.ltb_spec i j2) as [Hlt|Hge].
    + destruct (lookup_lt_is_Some_2 arr (Z.to_nat i) ltac:(lia)) as [a Ha].
      destruct (lookup_lt_is_Some_2 arr (Z.to_nat j2) ltac:(lia)) as [b Hb].
      unfold swap. rewrite Ha, Hb. cbn [mbind option_bind].
      apply IH'; [lia|lia|by rewrite !length_insert|].
      intros x.
      destruct (decide (x = Z.to_nat j2)) as [->|Hxj].
      { rewrite list_lookup_insert_eq by (rewrite length_insert; lia).
        rewrite <- Ha, Hinv. rewrite !Z2Nat.id by lia. f_equal. f_equal.
        unfold sigma. rewrite Hinvol, <- Ej2.
        replace (i <? 2 ^ Z.of_nat (S k)) with true by (symmetry; apply Z.ltb_lt; lia).
        replace (j2 <? 2 ^ Z.of_nat (S k)) with true by (symmetry; apply Z.ltb_lt; lia).
        replace (i <? i) with false by (symmetry; apply Z.ltb_ge; lia).
        replace (j2 <? i) with false by (symmetry; apply Z.ltb_ge; lia).
        replace (j2 <? i + 1) with false by (symmetry; apply Z.ltb_ge; lia).
        replace (i <? i + 1) with true by (symmetry; apply Z.ltb_lt; lia).
        done. }
      rewrite list_lookup_insert_ne by done.
      destruct (decide (x = Z.to_nat i)) as [->|Hxi].
      { rewrite list_lookup_insert_eq by lia.
        rewrite <- Hb, Hinv. rewrite !Z2Nat.id by lia. f_equal. f_equal.
        unfold sigma. rewrite Hinvol, <- Ej2.
        replace (i <? 2 ^ Z.of_nat (S k)) with true by (symmetry; apply Z.ltb_lt; lia).
        replace (j2 <? 2 ^ Z.of_nat (S k)) with true by (symmetry; apply Z.ltb_lt; lia).
        replace (j2 <? i) with false by (symmetry; apply Z.ltb_ge; lia).
        replace (i <? i) with false by (symmetry; apply Z.ltb_ge; lia).
        replace (i <? i + 1) with true by (symmetry; apply Z.ltb_lt; lia).
        done. }
      rewrite list_lookup_insert_ne by done. rewrite Hinv. f_equal. f_equal.
      destruct (Z.lt_ge_cases (Z.of_nat x) (2 ^ Z.of_nat (S k))).
      * symmetry. apply sigma_step; [lia|lia|rewrite <- Ej2; lia|lia].
      * by rewrite !sigma_high.
    + apply IH'; [lia|lia|done|].
      intros x. rewrite Hinv. f_equal. f_equal.
      destruct (Z.lt_ge_cases (Z.of_nat x) (2 ^ Z.of_nat (S k))); [|by rewrite !sigma_high].
      destruct (decide (Z.of_nat x = i)) as [Hxi|Hxi].
      * rewrite Hxi. unfold sigma. rewrite <- Ej2.
        replace (i <? 2 ^ Z.of_nat (S k)) with true by (symmetry; apply Z.ltb_lt; lia).
        replace (i <? i + 1) with true by (symmetry; apply Z.ltb_lt; lia).
        replace (i <? i) with false by (symmetry; apply Z.ltb_ge; lia).
        cbn [andb orb]. destruct (Z.ltb_spec j2 i); [done|lia].
      * destruct (decide (Z.of_nat x = j2)) as [Hxj|Hxj].
        -- assert (j2 < i) by lia. unfold sigma. rewrite Hxj, Hinvol.
           replace (j2 <? 2 ^ Z.of_nat (S k)) with true by (symmetry; apply Z.ltb_lt; lia).
           replace (j2 <? i) with true by (symmetry; apply Z.ltb_lt; lia).
           replace (j2 <? i + 1) with true by (symmetry; apply Z.ltb_lt; lia).
           done.
        -- symmetry. apply sigma_step; [lia|lia|rewrite <- Ej2; lia|lia].
Qed.

(** The run of the whole routine on a power of two. *)
Lemma sliceBitReverse_run {A} (k : nat) (slice : list A) :
  (k ≤ 63)%nat → 2 ^ Z.of_nat k <= Z.of_nat (length slice) →
  ∃ l, sliceBitReverseInPlace slice (2 ^ Z.of_nat k) = Returns l
       ∧ length l = length slice
       ∧ (∀ x : nat, Z.of_nat x < 2 ^ Z.of_nat k →
            l !! x = slice !! Z.to_nat (bitrev k (Z.of_nat x)))
       ∧ (∀ x : nat, 2 ^ Z.of_nat k <= Z.of_nat x → l !! x = slice !! x).
Proof.
  intros Hk Hlen. unfold sliceBitReverseInPlace.
  destruct k as [|k].
  - exists slice. change (2 ^ Z.of_nat 0) with 1. simpl. split_and!; try done.
    intros x Hx. f_equal. lia.
  - assert (Hk0 : 0 < 2 ^ Z.of_nat (S k)) by (apply Z.pow_pos_nonneg; lia).
    destruct (bitRevLoop_spec k slice ltac:(lia) Hlen
                (Z.to_nat (2 ^ Z.of_nat (S k) - 1)) 1 slice)
      as (l & Hrun & Hl & Hperm); [lia|lia|done| |].
    { intros x. f_equal. unfold sigma.
      destruct (Z.ltb_spec (Z.of_nat x) (2 ^ Z.of_nat (S k))); cbn [andb]; [|lia].
      destruct (Z.ltb_spec (Z.of_nat x) 1); cbn [orb].
      - assert (x = 0%nat) as -> by lia.
        change (Z.of_nat 0) with 0.
        assert (E0 : ∀ m, bitrev m 0 = 0).
        { induction m as [|m IHm]; [done|]. cbn [bitrev].
          change (0 mod 2) with 0. change (0 / 2) with 0. rewrite IHm. lia. }
        by rewrite E0.
      - destruct (Z.ltb_spec (bitrev (S k) (Z.of_nat x)) 1) as [Hb|Hb]; [|lia].
        pose proof (bitrev_range (S k) (Z.of_nat x)).
        assert (Hz : bitrev (S k) (Z.of_nat x) = 0) by lia.
        assert (Hinv := bitrev_involutive (S k) (Z.of_nat x) ltac:(lia)).
        rewrite Hz in Hinv.
        assert (E0 : ∀ m, bitrev m 0 = 0).
        { induction m as [|m IHm]; [done|]. cbn [bitrev].
          change (0 mod 2) with 0. change (0 / 2) with 0. rewrite IHm. lia. }
        rewrite E0 in Hinv. lia. }
    change (bitrev (S k) (1 - 1)) with (bitrev (S k) 0) in Hrun.
    assert (E0 : ∀ m, bitrev m 0 = 0).
    { induction m as [|m IHm]; [done|]. cbn [bitrev].
      change (0 mod 2) with 0. change (0 / 2) with 0. rewrite IHm. lia. }
    rewrite E0 in Hrun. exists l. split_and!; try done.
    + intros x Hx. rewrite Hperm. f_equal. f_equal. unfold sigma.
      replace (Z.of_nat x <? 2 ^ Z.of_nat (S k)) with true
        by (symmetry; apply Z.ltb_lt; lia).
      done.
    + intros x Hx. rewrite Hperm. f_equal. rewrite sigma_high by done. lia.
Qed.

(** For a power of two [N = 2^k] that fits a [uint64] and a slice of at least
    [N] elements, [sliceBitReverseInPlaceComplex128] returns without a panic,
    and position [x < N] of the result holds the element that was at the
    [k]-bit reversal of [x]; the length and the positions from [N] on are
    unchanged. *)
Theorem sliceBitReverse_permutes {A} (k : nat) (slice : list A) :
  (k ≤ 63)%nat → 2 ^ Z.of_nat k <= Z.of_nat (length slice) →
  ∃ l, sliceBitReverseInPlace slice (2 ^ Z.of_nat k) = Returns l
       ∧ length l = length slice
       ∧ (∀ x : nat, Z.of_nat x < 2 ^ Z.of_nat k →
            l !! x = slice !! Z.to_nat (bitrev k (Z.of_nat x)))
       ∧ (∀ x : nat, 2 ^ Z.of_nat k <= Z.of_nat x → l !! x = slice !! x).
Proof. apply sliceBitReverse_run. Qed.

(** Reversing twice gives the slice back. *)
Theorem sliceBitReverse_twice {A} (k : nat) (slice : list A) :
  (k ≤ 63)%nat → 2 ^ Z.of_nat k <= Z.of_nat (length slice) →
  ∃ l, sliceBitReverseInPlace slice (2 ^ Z.of_nat k) = Returns l
       ∧ sliceBitReverseInPlace l (2 ^ Z.of_nat k) = Returns slice.
Proof.
  intros Hk Hlen.
  destruct (sliceBitReverse_run k slice Hk Hlen) as (l & Hrun & Hl & Hlow & Hhigh).
  destruct (sliceBitReverse_run k l Hk ltac:(lia)) as (l2 & Hrun2 & Hl2 & Hlow2 & Hhigh2).
  exists l. split; [done|]. rewrite Hrun2. f_equal.
  apply list_eq. intros x.
  destruct (Z.lt_ge_cases (Z.of_nat x) (2 ^ Z.of_nat k)) as [Hx|Hx].
  - pose proof (bitrev_range k (Z.of_nat x)) as Hr.
    rewrite Hlow2 by done. rewrite Hlow by (rewrite Z2Nat.id; lia).
    rewrite Z2Nat.id by lia. rewrite bitrev_involutive by lia. f_equal. lia.
  - rewrite Hhigh2 by done. by apply Hhigh.
Qed.

Lemma sliceBitReverse_permutes_witness :
  sliceBitReverseInPlace [0; 1; 2; 3; 4; 5; 6; 7; 8] (2 ^ Z.of_nat 3)
  = Returns [0; 4; 2; 6; 1; 5; 3; 7; 8].
Proof.
  destruct (sliceBitReverse_permutes 3 [0; 1; 2; 3; 4; 5; 6; 7; 8]
              ltac:(lia) ltac:(simpl; lia)) as (l & Hrun & _).
  rewrite Hrun. vm_compute in Hrun. congruence.
Defined.

Lemma sliceBitReverse_twice_witness :
  ∃ l, sliceBitReverseInPlace [10; 11; 12; 13] (2 ^ Z.of_nat 2) = Returns l
       ∧ sliceBitReverseInPlace l (2 ^ Z.of_nat 2) = Returns [10; 11; 12; 13].
Proof.
  exact (sliceBitReverse_twice 2 [10; 11; 12; 13] ltac:(lia) ltac:(simpl; lia)).
Defined.

(** *** [modVec] *)

Lemma modVec_loop (values : list Z) (q : Z) : 0 < q →
  ∀ (k : nat) (coeffs : list Z),
    (k ≤ length values)%nat → (k ≤ length coeffs)%nat →
    foldl (fun acc i =>
             cs ← acc;
             v ← values !! i;
             if q =? 0 then None
             else if decide (i < length cs)%nat
                  then Some (<[i := wrap64 (v mod q)]> cs) else None)
          (Some coeffs) (seq 0 k)
    = Some (map (fun v => wrap64 (v mod q)) (take k values) ++ drop k coeffs).
Proof.
  intros Hq. induction k as [|k IH]; intros coeffs Hk Hlen.
  - simpl. by rewrite drop_0.
  - rewrite seq_S, foldl_app, IH by lia. cbn [foldl mbind option_bind Nat.add].
    destruct (lookup_lt_is_Some_2 values k ltac:(lia)) as [v Hv]. rewrite Hv.
    cbn [mbind option_bind].
    replace (q =? 0) with false by (symmetry; apply Z.eqb_neq; lia).
    rewrite decide_True
      by (rewrite length_app, length_map, length_take, length_drop; lia).
    f_equal. rewrite (take_S_r _ _ _ Hv), map_app. cbn [map].
    rewrite <- app_assoc. cbn [app].
    rewrite insert_app_r_alt by (rewrite length_map, length_take; lia).
    rewrite length_map, length_take.
    replace (k - k `min` length values)%nat with 0%nat by lia.
    f_equal. destruct (drop k coeffs) as [|c cs] eqn:Ed.
    { apply (f_equal length) in Ed. rewrite length_drop in Ed. simpl in Ed. lia. }
    cbn [insert list_insert]. f_equal.
    replace (S k) with (k + 1)%nat by lia. by rewrite <- drop_drop, Ed.
Qed.

(** Once the accumulator has panicked, the remaining rounds keep it so. *)
Ltac fold_none :=
  match goal with
  | |- foldl _ None ?l = None =>
      generalize l; let l' := fresh "l" in
      intros l'; induction l' as [|? ? ?]; [reflexivity|assumption]
  end.

(** [modVec] stores the canonical residue of every value, leaves the receiver
    beyond [len(values)] as it was, and panics when the modulus is zero or the
    receiver is shorter than the values. *)
Theorem modVec_residues (values : list Z) (q : Z) (coeffs : list Z) :
  (0 < q < 2 ^ 64 → (length values ≤ length coeffs)%nat →
   ∃ res, modVec values q coeffs = Some res
          ∧ length res = length coeffs
          ∧ (∀ i v, values !! i = Some v →
               ∃ r, res !! i = Some r ∧ 0 <= r < q ∧ (v - r) mod q = 0)
          ∧ drop (length values) res = drop (length values) coeffs)
  ∧ (values ≠ [] → q = 0 → modVec values q coeffs = None)
  ∧ (0 < q → (length coeffs < length values)%nat → modVec values q coeffs = None).
Proof.
  split; [|split].
  - intros Hq Hlen. unfold modVec. rewrite modVec_loop by lia.
    eexists. split; [reflexivity|]. split_and!.
    + rewrite length_app, length_map, length_take, length_drop. lia.
    + intros i v Hv. pose proof (lookup_lt_Some _ _ _ Hv) as Hi.
      pose proof (Z.mod_pos_bound v q ltac:(lia)) as Hm.
      exists (v mod q). rewrite lookup_app_l by (rewrite length_map, length_take; lia).
      rewrite list_lookup_fmap, lookup_take_lt, Hv by lia. cbn [fmap option_fmap option_map].
      unfold wrap64. rewrite (Z.mod_small (v mod q)) by lia. split_and!; try done; try lia.
      rewrite Zminus_mod, Z.mod_mod, Z.sub_diag by lia. done.
    + rewrite drop_app_length'; [done|]. rewrite length_map, length_take. lia.
  - intros Hne ->. unfold modVec. destruct values as [|v vs]; [done|].
    cbn [length seq foldl lookup list_lookup mbind option_bind].
    change (0 =? 0) with true. cbv iota.
    fold_none.
  - intros Hq Hlen. unfold modVec.
    replace (length values) with (length coeffs + S (length values - length coeffs - 1))%nat
      by lia.
    rewrite seq_app, foldl_app, modVec_loop by lia.
    cbn [seq foldl Nat.add].
    destruct (lookup_lt_is_Some_2 values (length coeffs) ltac:(lia)) as [v Hv].
    cbn [mbind option_bind]. rewrite Hv. cbn [mbind option_bind].
    replace (q =? 0) with false by (symmetry; apply Z.eqb_neq; lia).
    rewrite decide_False.
    + fold_none.
    + rewrite length_app, length_map, length_take, length_drop. lia.
Qed.

Lemma modVec_residues_witness :
  ∃ res, modVec [20; -3] 7 [0; 0; 9] = Some res ∧ length res = 3%nat.
Proof.
  destruct (proj1 (modVec_residues [20; -3] 7 [0; 0; 9]) ltac:(lia) ltac:(simpl; lia))
    as (res & Hres & Hlen & _).
  exists res. split; [exact Hres|exact Hlen].
Defined.

End UtilsProofs.

(** ** More on the collective key-switching protocol *)

Module DckksMore.
Import RingPkg Elem Dckks DckksProofs.

(** *** [AllocateShare] and [AggregateShares] *)

(** A freshly allocated share is neutral for [AggregateShares]: aggregating it
    with a full-level share of reduced rows, on either side, returns that
    share. *)
Theorem AggregateShares_allocated_neutral (cks : CKSProtocol) (s out : CKSShare) :
  wfRing (ringQ cks) → wfShare (ringQ cks) s →
  length out = length (Modulus (ringQ cks)) →
  AggregateShares cks (AllocateShare cks) s out = Some s
  ∧ AggregateShares cks s (AllocateShare cks) out = Some s.
Proof.
  intros Hr Hs Ho. unfold AllocateShare.
  rewrite !AggregateShares_full by (done || by apply NewPoly_wf).
  rewrite (polyAdd_comm _ s), polyAdd_zero_l by done. done.
Qed.

Lemma exampleCKS_wfRing : wfRing (ringQ exampleCKS).
Proof.
  split; [|split]; [|vm_compute; reflexivity|vm_compute; discriminate].
  repeat constructor.
Qed.

Lemma AggregateShares_allocated_neutral_witness :
  AggregateShares exampleCKS (AllocateShare exampleCKS) [[3]; [4]] [[0]; [0]]
  = Some [[3]; [4]].
Proof.
  refine (proj1 (AggregateShares_allocated_neutral exampleCKS [[3]; [4]] [[0]; [0]]
                   exampleCKS_wfRing _ eq_refl)).
  repeat (constructor; [repeat (constructor || split || lia)|]). constructor.
Defined.

(** *** [GenShare] and the scratch polynomials *)

Section WithKernels.
Context `{K : Kernels}.

Lemma zip_with_const_r {A B C} (h : A → C) (l1 : list A) (l2 : list B) :
  zip_with (fun q _ => h q) l1 l2 = map h (take (length l2) l1).
Proof.
  revert l2. induction l1 as [|a l1 IH]; intros [|b l2]; simpl; try done.
  by rewrite IH.
Qed.

(** A routine over rows [0..level] that covers the whole destination does not
    read it. *)
Lemma lvl2_full_dst (f : Z → Row → Row → Row) (r : Ring) (level : Z)
    (p1 p2 d1 d2 : Poly) :
  length d1 = rowsOf level → length d2 = rowsOf level →
  lvl2 f r level p1 p2 d1 = lvl2 f r level p1 p2 d2.
Proof.
  intros H1 H2. unfold lvl2. rewrite H1, H2.
  destruct (decide _); [|done]. by rewrite !drop_ge by lia.
Qed.

(** Two states of the protocol that differ at most in the contents of [tmp]
    and [tmpDelta]. *)
Definition sameUpToScratch (c1 c2 : CKSProtocol) : Prop :=
  ringQ c1 = ringQ c2 ∧ ringP c1 = ringP c2 ∧ ringQP c1 = ringQP c2
  ∧ hP c1 = hP c2 ∧ gaussianSampler c1 = gaussianSampler c2
  ∧ length (tmp c1) = length (Modulus (ringQP c1))
  ∧ length (tmp c2) = length (Modulus (ringQP c1))
  ∧ length (tmpDelta c1) = length (Modulus (ringQ c1))
  ∧ length (tmpDelta c2) = length (Modulus (ringQ c1)).

Lemma rowsOf_topLevel (r : Ring) :
  Z.of_nat (length (Modulus r)) < 2 ^ 64 → rowsOf (topLevel r) = length (Modulus r).
Proof.
  intros H. unfold rowsOf, topLevel, wrap64.
  replace (Z.of_nat (length (Modulus r)) - 1 + 1) with (Z.of_nat (length (Modulus r))) by lia.
  rewrite Z.mod_small by lia. lia.
Qed.

(** [GenShare] does not depend on what earlier calls left in [tmp] and
    [tmpDelta]: from two states that agree on everything else it panics in
    both or returns the same share and the same state in both. *)
Theorem GenShare_ignores_scratch (c1 c2 : CKSProtocol) (skInput skOutput : Poly)
    (ct : Element) (shareOut : CKSShare) :
  sameUpToScratch c1 c2 →
  Z.of_nat (length (Modulus (ringQP c1))) < 2 ^ 64 →
  Z.of_nat (length (Modulus (ringQ c1))) < 2 ^ 64 →
  GenShare c1 skInput skOutput ct shareOut = GenShare c2 skInput skOutput ct shareOut.
Proof.
  intros (HQ & HP & HQP & HhP & Hg & Lt1 & Lt2 & Ld1 & Ld2) HlQP HlQ.
  unfold GenShare, SubLvl. rewrite <- HQ.
  rewrite (lvl2_full_dst subRow (ringQ c1) (topLevel (ringQ c1)) skInput skOutput
             (tmpDelta c1) (tmpDelta c2))
    by (rewrite rowsOf_topLevel by done; done).
  destruct (lvl2 subRow (ringQ c1) (topLevel (ringQ c1)) skInput skOutput (tmpDelta c2))
    as [delta|]; [|done].
  cbn [mbind option_bind].
  unfold genShareDelta. cbn zeta. rewrite <- HQ, <- HP, <- HQP, <- HhP, <- Hg.
  destruct (Level ct) as [lvl|]; [|done]. cbn [mbind option_bind].
  destruct (value ct !! 1%nat) as [ct1|]; [|done]. cbn [mbind option_bind].
  destruct (lvl2 mulMontRow (ringQ c1) lvl ct1 delta shareOut) as [s1|]; [|done].
  cbn [mbind option_bind].
  destruct (lvl1 _ (ringQ c1) lvl s1 s1) as [s2|]; [|done].
  cbn [mbind option_bind].
  assert (Ht : lvl1 (fun q _ => gaussianRow (gaussianSampler c1) q) (ringQP c1)
                 (topLevel (ringQP c1)) (tmp c1) (tmp c1)
               = lvl1 (fun q _ => gaussianRow (gaussianSampler c1) q) (ringQP c1)
                   (topLevel (ringQP c1)) (tmp c2) (tmp c2)).
  { unfold lvl1. rewrite rowsOf_topLevel by done. rewrite Lt1, Lt2.
    destruct (decide _); [|done].
    rewrite !zip_with_const_r, !length_take, Lt1, Lt2.
    by rewrite !drop_ge by lia. }
  rewrite Ht.
  destruct (lvl1 _ (ringQP c1) _ (tmp c2) (tmp c2)) as [tmp1|]; [|done].
  cbn [mbind option_bind].
  destruct (lvl1 nttRow _ _ tmp1 tmp1) as [tmp2|]; [|done].
  cbn [mbind option_bind].
  destruct (AddLvl _ _ _ _ _) as [s3|]; [|done]. cbn [mbind option_bind].
  destruct (accumulateP _ _ _ _ _) as [hP1|]; [|done]. done.
Qed.

Lemma Zero_zeros (p : Poly) : Forall (Forall (fun x => x = 0)) (Zero p).
Proof.
  unfold Zero. apply Forall_fmap, Forall_true. intros row. simpl.
  apply Forall_fmap, Forall_true. done.
Qed.

(** A call of [GenShare] that returns leaves only zeros in [tmp] and in the
    accumulator [hP], keeps the rings and advances the Gaussian sampler once:
    the next call starts from a zero accumulator. *)
Theorem GenShare_leaves_scratch_zero (cks cks' : CKSProtocol)
    (skInput skOutput : Poly) (ct : Element) (shareOut share : CKSShare) :
  GenShare cks skInput skOutput ct shareOut = Some (share, cks') →
  Forall (Forall (fun x => x = 0)) (tmp cks')
  ∧ Forall (Forall (fun x => x = 0)) (hP cks')
  ∧ ringQ cks' = ringQ cks ∧ ringP cks' = ringP cks ∧ ringQP cks' = ringQP cks
  ∧ gaussianSampler cks' = gaussianNext (gaussianSampler cks).
Proof.
  unfold GenShare.
  destruct (SubLvl _ _ _ _ _) as [delta|]; [|done]. cbn [mbind option_bind].
  destruct (genShareDelta cks delta ct shareOut) as [[sh c']|] eqn:E; [|done].
  cbn [mbind option_bind]. intros [= <- <-]. cbn.
  unfold genShareDelta in E. cbn zeta in E.
  repeat match type of E with
  | (?m ≫= _) = Some _ => destruct m; [cbn [mbind option_bind] in E|done]
  end.
  injection E as <- <-. cbn. split_and!; try done; apply Zero_zeros.
Qed.

End WithKernels.

(** The example protocol after some use: stale rows in [tmp] and [tmpDelta]. *)
Definition usedCKS : CKSProtocol :=
  mkCKS (ringQ exampleCKS) (ringP exampleCKS) (ringQP exampleCKS)
        [[9]; [9]; [9]] [[8]; [8]] (hP exampleCKS) 0.

Lemma GenShare_ignores_scratch_witness :
  GenShare (K := CkksProofs.exampleKernels) exampleCKS [[1]; [1]] [[0]; [0]] exampleCt [[0]; [0]]
  = GenShare (K := CkksProofs.exampleKernels) usedCKS [[1]; [1]] [[0]; [0]] exampleCt [[0]; [0]].
Proof.
  apply (GenShare_ignores_scratch (K := CkksProofs.exampleKernels) exampleCKS usedCKS).
  - repeat split.
  - simpl. lia.
  - simpl. lia.
Defined.

Lemma GenShare_leaves_scratch_zero_witness :
  ∃ share cks',
    GenShare (K := CkksProofs.exampleKernels) usedCKS [[1]; [1]] [[0]; [0]] exampleCt [[0]; [0]]
    = Some (share, cks')
    ∧ Forall (Forall (fun x => x = 0)) (hP cks').
Proof.
  eexists _, _. split; [vm_compute; reflexivity|].
  refine (proj1 (proj2 (GenShare_leaves_scratch_zero (K := CkksProofs.exampleKernels)
                          usedCKS _ [[1]; [1]] [[0]; [0]] exampleCt [[0]; [0]] _ _))).
  vm_compute. reflexivity.
Defined.

(** *** [KeySwitch] after [AggregateShares] *)




End DckksMore.

(** ** What the evaluator's routines change, and when they refuse *)

Module EvalFrame.
Import RingPkg Elem Ckks CkksProofs AddSubProofs.

(** [pres R m]: every run of [m] that returns relates the store before to the
    store after by [R]. *)
Definition pres {A} (R : Store → Store → Prop) (m : M A) : Prop :=
  ∀ s a s', m s = Some (a, s') → R s s'.

(** [reader m]: a run of [m] leaves the store as it is. *)
Definition reader {A} (m : M A) : Prop :=
  ∀ s a s', m s = Some (a, s') → s' = s.

(** Besides the pools, only the element [out] may differ. *)
Record onlyEl (out : eptr) (s s' : Store) : Prop := mkOnlyEl {
  oe_ctx : ckksContext (ev s') = ckksContext (ev s);
  oe_len : length (heap s') = length (heap s);
  oe_other : ∀ p, p ≠ out → sget s' p = sget s p;
  oe_some : is_Some (sget s out) → is_Some (sget s' out)
}.

(** Besides the pools, only the residues of [out] may differ: its scale, its
    domain flag and its number of parts stay. *)
Record onlyValue (out : eptr) (s s' : Store) : Prop := mkOnlyValue {
  ov_el : onlyEl out s s';
  ov_meta : ∀ el, sget s out = Some el →
            ∃ el', sget s' out = Some el' ∧ scale el' = scale el
                   ∧ isNTT el' = isNTT el ∧ length (value el') = length (value el)
}.

Lemma onlyEl_refl out s : onlyEl out s s.
Proof. by split. Qed.

Lemma onlyEl_trans out s1 s2 s3 : onlyEl out s1 s2 → onlyEl out s2 s3 → onlyEl out s1 s3.
Proof.
  intros [C1 L1 O1 S1] [C2 L2 O2 S2]. split.
  - by rewrite C2.
  - by rewrite L2.
  - intros p Hp. by rewrite O2, O1.
  - auto.
Qed.

Lemma onlyValue_refl out s : onlyValue out s s.
Proof. split; [apply onlyEl_refl|]. intros el H. by exists el. Qed.

Lemma onlyValue_trans out s1 s2 s3 :
  onlyValue out s1 s2 → onlyValue out s2 s3 → onlyValue out s1 s3.
Proof.
  intros [E1 M1] [E2 M2]. split; [by eapply onlyEl_trans|].
  intros el H. destruct (M1 el H) as (el1 & H1 & Hs1 & Hn1 & Hl1).
  destruct (M2 el1 H1) as (el2 & H2 & Hs2 & Hn2 & Hl2).
  exists el2. split_and!; [done|congruence..].
Qed.

Lemma onlyValue_onlyEl out s s' : onlyValue out s s' → onlyEl out s s'.
Proof. by intros []. Qed.

(** *** Rules *)

Section Rules.
Context {R : Store → Store → Prop}.
Hypothesis R_refl : ∀ s, R s s.
Hypothesis R_trans : ∀ s1 s2 s3, R s1 s2 → R s2 s3 → R s1 s3.

Lemma pres_reader {A} (m : M A) : reader m → pres R m.
Proof. intros H s a s' E. apply H in E as ->. apply R_refl. Qed.

Lemma pres_bind {A B} (m : M A) (f : A → M B) :
  pres R m → (∀ a, pres R (f a)) → pres R (bind m f).
Proof.
  intros Hm Hf s b s' E. unfold bind in E.
  destruct (m s) as [[a s1]|] eqn:Em; [|done].
  eapply R_trans; [by eapply Hm|by eapply Hf].
Qed.

Lemma pres_panic {A} : pres R (@panic A).
Proof. by intros s a s' E. Qed.

Lemma pres_forRange (body : Z → M unit) :
  (∀ i, pres R (body i)) → ∀ count from, pres R (forRange count from body).
Proof.
  intros Hb. induction count as [|count IH]; intros from; simpl.
  - intros s a s' [= _ <-]. apply R_refl.
  - apply pres_bind; [apply Hb|]. intros _. apply IH.
Qed.

End Rules.

Lemma reader_ret {A} (a : A) : reader (ret a).
Proof. by intros s b s' [= _ <-]. Qed.

Lemma reader_lift {A} (o : option A) : reader (lift o).
Proof. intros s b s'. unfold lift. destruct o; [by intros [= _ <-]|done]. Qed.

Lemma reader_getEl p : reader (getEl p).
Proof. intros s a s' E. by eapply getEl_state. Qed.

Lemma reader_getCtx : reader getCtx.
Proof. by intros s a s' [= _ <-]. Qed.

Lemma reader_bind {A B} (m : M A) (f : A → M B) :
  reader m → (∀ a, reader (f a)) → reader (bind m f).
Proof.
  intros Hm Hf s b s' E. unfold bind in E.
  destruct (m s) as [[a s1]|] eqn:Em; [|done].
  apply Hm in Em as ->. by eapply Hf.
Qed.

Lemma reader_readP r : reader (readP r).
Proof.
  destruct r; simpl;
    try (intros s a s'; unfold lift;
         match goal with |- context [?l !! ?i] => destruct (l !! i) end;
         [by intros [= _ <-]|done]).
  - apply reader_bind; [apply reader_getEl|]. intros el. apply reader_lift.
  - apply reader_ret.
Qed.

Lemma reader_levelOf p : reader (levelOf p).
Proof. apply reader_bind; [apply reader_getEl|]. intros. apply reader_lift. Qed.

Lemma reader_degreeOf p : reader (degreeOf p).
Proof. apply reader_bind; [apply reader_getEl|]. intros. apply reader_ret. Qed.

Lemma reader_scaleOf p : reader (scaleOf p).
Proof. apply reader_bind; [apply reader_getEl|]. intros. apply reader_ret. Qed.

(** A destination that a routine working for [out] may write: a part of [out]
    or an entry of a pool. *)
Definition dstOf (out : eptr) (dst : pref) : Prop :=
  match dst with
  | Part e _ => e = out
  | _ => True
  end.

Lemma putEl_inv p el s s' :
  putEl p el s = Some (tt, s') → is_Some (sget s p) ∧ s' = sput s p el.
Proof.
  destruct p as [a|]; simpl.
  - destruct (decide _) as [Hlt|]; [|done]. intros [= <-].
    split; [by apply lookup_lt_is_Some_2|done].
  - intros [= <-]. split; [by eexists|done].
Qed.

Lemma onlyEl_sput out s el : is_Some (sget s out) → onlyEl out s (sput s out el).
Proof.
  intros [el0 H]. split.
  - apply ctx_sput.
  - destruct out; simpl; [by rewrite length_insert|done].
  - intros p Hp. by apply sget_sput_ne.
  - intros _. exists el. by eapply sget_sput_eq.
Qed.

Lemma onlyValue_sput out s el0 el :
  sget s out = Some el0 → scale el = scale el0 → isNTT el = isNTT el0 →
  length (value el) = length (value el0) →
  onlyValue out s (sput s out el).
Proof.
  intros H Hs Hn Hl. split; [by apply onlyEl_sput|].
  intros el1 H1. exists el. rewrite (sget_sput_eq _ _ _ _ H).
  rewrite H in H1. injection H1 as <-. done.
Qed.

Lemma onlyValue_pools out s e' :
  ckksContext e' = ckksContext (ev s) → ctxpool e' = ctxpool (ev s) →
  onlyValue out s (setEv s e').
Proof.
  intros Hc Hp. split; [split|]; try done.
  - intros p _. destruct p; simpl; [done|by rewrite Hp].
  - intros [el H]. exists el. destruct out; simpl in *; [done|by rewrite Hp].
  - intros el H. exists el. destruct out; simpl in *; [done|by rewrite Hp].
Qed.

Lemma pres_writeP out dst p : dstOf out dst → pres (onlyValue out) (writeP dst p).
Proof.
  destruct dst as [e i|i|i|i|i|q]; simpl; intros Hd s a s' E.
  - subst e. unfold bind in E.
    destruct (getEl out s) as [[el s1]|] eqn:Eg; [|done].
    pose proof (getEl_state _ _ _ _ Eg) as ->.
    unfold lift, checkedInsert in E.
    destruct (decide _) as [Hi|]; [|done].
    destruct a. apply putEl_inv in E as [[el0 H0] ->].
    assert (sget s out = Some el).
    { destruct out; simpl in *; unfold lift in Eg.
      - destruct (heap s !! a); [by injection Eg as ->|done].
      - by injection Eg as ->. }
    eapply onlyValue_sput; [done|done|done|]. simpl. by rewrite length_insert.
  - unfold checkedInsert in E. destruct (decide _); [|done]. destruct a.
    injection E as <-. by apply onlyValue_pools.
  - unfold checkedInsert in E. destruct (decide _); [|done]. destruct a.
    injection E as <-. by apply onlyValue_pools.
  - unfold checkedInsert in E. destruct (decide _); [|done]. destruct a.
    injection E as <-. by apply onlyValue_pools.
  - unfold checkedInsert in E. destruct (decide _); [|done]. destruct a.
    injection E as <-. by apply onlyValue_pools.
  - done.
Qed.


Ltac reader_go :=
  repeat first
    [ apply reader_ret | apply reader_lift | apply reader_getEl | apply reader_getCtx
    | apply reader_readP | apply reader_levelOf | apply reader_degreeOf
    | apply reader_scaleOf | apply reader_bind; [|intros ?] ].

Lemma pv_reader out {A} (m : M A) : reader m → pres (onlyValue out) m.
Proof. apply pres_reader, onlyValue_refl. Qed.

Lemma pv_bind out {A B} (m : M A) (f : A → M B) :
  pres (onlyValue out) m → (∀ a, pres (onlyValue out) (f a)) →
  pres (onlyValue out) (bind m f).
Proof. apply pres_bind, onlyValue_trans. Qed.

Lemma pv_forRange out (body : Z → M unit) count from :
  (∀ i, pres (onlyValue out) (body i)) → pres (onlyValue out) (forRange count from body).
Proof.
  intros H. apply pres_forRange; [apply onlyValue_refl|apply onlyValue_trans|done].
Qed.

Lemma pe_reader out {A} (m : M A) : reader m → pres (onlyEl out) m.
Proof. apply pres_reader, onlyEl_refl. Qed.

Lemma pe_bind out {A B} (m : M A) (f : A → M B) :
  pres (onlyEl out) m → (∀ a, pres (onlyEl out) (f a)) →
  pres (onlyEl out) (bind m f).
Proof. apply pres_bind, onlyEl_trans. Qed.

Lemma pe_of_pv out {A} (m : M A) : pres (onlyValue out) m → pres (onlyEl out) m.
Proof. intros H s a s' E. by apply onlyValue_onlyEl, (H s a s'). Qed.

(** One step of the bookkeeping: readers, writes to allowed destinations,
    sequencing, loops and case distinctions. *)
Ltac pv_step :=
  first
    [ apply pv_reader; solve [reader_go]
    | apply pres_panic
    | apply pres_writeP; solve [simpl; auto]
    | apply pv_forRange; intros ?
    | apply pv_bind; [|intros ?]
    | match goal with
      | |- pres _ (if ?b then _ else _) => destruct b
      | |- pres _ (match ?x with _ => _ end) => destruct x
      end ].

Ltac pv := repeat pv_step.

Section WithKernels.
Context `{K : Kernels}.

Lemma pv_polyOp1 out f a dst : dstOf out dst → pres (onlyValue out) (polyOp1 f a dst).
Proof. intros Hd. unfold polyOp1. pv. Qed.

Lemma pv_polyOp2 out f a b dst : dstOf out dst → pres (onlyValue out) (polyOp2 f a b dst).
Proof. intros Hd. unfold polyOp2. pv. Qed.

Lemma pv_zeroAt out r : dstOf out r → pres (onlyValue out) (zeroAt r).
Proof. intros Hd. unfold zeroAt. pv. Qed.

Lemma pv_decomposeAndSplitNTT out level digit c2NTT c2InvNTT c2QiQ c2QiP :
  dstOf out c2QiQ → dstOf out c2QiP →
  pres (onlyValue out) (decomposeAndSplitNTT level digit c2NTT c2InvNTT c2QiQ c2QiP).
Proof. intros H1 H2. unfold decomposeAndSplitNTT. pv. Qed.

Lemma pv_reducePools out level : pres (onlyValue out) (reducePools level).
Proof.
  unfold reducePools. apply pv_bind; [pv|]. intros c.
  repeat (apply pv_bind; [by apply pv_polyOp1|intros _]). by apply pv_polyOp1.
Qed.

Lemma pv_switchDigit out level cx key i reduce :
  pres (onlyValue out) (switchDigit level cx key i reduce).
Proof.
  unfold switchDigit. apply pv_bind; [pv|]. intros c.
  apply pv_bind; [by apply pv_decomposeAndSplitNTT|intros _].
  apply pv_bind; [pv|]. intros k. apply pv_bind; [pv|]. intros kp.
  repeat (apply pv_bind; [by apply pv_polyOp2|intros _]).
  destruct (_ =? _); [apply pv_reducePools|pv].
Qed.

Lemma pv_ModDownSplitedNTT out level pQ pP dst scratch :
  dstOf out dst → pres (onlyValue out) (ModDownSplitedNTT level pQ pP dst scratch).
Proof. intros Hd. unfold ModDownSplitedNTT. pv. Qed.

Lemma pv_switchKeysInPlace cx key ctOut :
  pres (onlyValue ctOut) (switchKeysInPlace cx key ctOut).
Proof.
  unfold switchKeysInPlace. apply pv_bind; [pv|]. intros c.
  apply pv_bind; [pv|]. intros level.
  apply pv_bind; [apply pv_forRange; intros; by apply pv_zeroAt|intros _].
  apply pv_bind; [apply pv_forRange; intros; by apply pv_zeroAt|intros _].
  apply pv_bind; [by apply pv_polyOp1|intros _].
  cbv zeta.
  apply pv_bind; [apply pv_forRange; intros; apply pv_switchDigit|intros _].
  apply pv_bind; [destruct (_ =? _); [pv|apply pv_reducePools]|intros _].
  apply pv_bind; [by apply pv_ModDownSplitedNTT|intros _].
  apply pv_bind; [by apply pv_ModDownSplitedNTT|intros _].
  apply pv_bind; [by apply pv_polyOp2|intros _].
  by apply pv_polyOp2.
Qed.

Lemma pv_SwitchKeys ct0 key ctOut : pres (onlyValue ctOut) (SwitchKeys ct0 key ctOut).
Proof.
  unfold SwitchKeys. apply pv_bind; [pv|]. intros d0. apply pv_bind; [pv|]. intros dOut.
  destruct (_ || _); [pv|].
  apply pv_bind; [pv|]. intros c. apply pv_bind; [pv|]. intros l0.
  apply pv_bind; [pv|]. intros lo. cbv zeta.
  apply pv_bind; [by apply pv_polyOp1|intros _].
  apply pv_bind; [by apply pv_polyOp1|intros _].
  apply pv_switchKeysInPlace.
Qed.


Lemma pv_tensor out level op0 op1 c00 c01 c0 c1 c2 :
  dstOf out c00 → dstOf out c01 → dstOf out c0 → dstOf out c1 → dstOf out c2 →
  pres (onlyValue out) (tensor level op0 op1 c00 c01 c0 c1 c2).
Proof.
  intros H00 H01 H0 H1 H2. unfold tensor. apply pv_bind; [pv|]. intros c. cbv zeta.
  apply pv_bind; [by apply pv_polyOp1|intros _].
  apply pv_bind; [by apply pv_polyOp1|intros _].
  destruct (decide _);
    repeat (apply pv_bind; [by apply pv_polyOp2|intros _]); by apply pv_polyOp2.
Qed.

Lemma pv_DropLevel p lvls : pres (onlyValue p) (DropLevel p lvls).
Proof.
  unfold DropLevel. intros s a s' E. unfold bind in E.
  destruct (getEl p s) as [[el s1]|] eqn:Eg; [|done].
  pose proof (getEl_state _ _ _ _ Eg) as ->.
  unfold lift in E. destruct (Level el) as [lvl|]; [|done].
  destruct (lvl =? 0).
  - injection E as _ <-. apply onlyValue_refl.
  - cbv zeta in E. destruct (decide _); [|done].
    unfold bind in E.
    destruct (putEl p _ s) as [[[] s2]|] eqn:Ep; [|done].
    injection E as _ <-. apply putEl_inv in Ep as [[el0 H0] ->].
    assert (sget s p = Some el).
    { destruct p; simpl in *; unfold lift in Eg.
      - destruct (heap s !! a0); [by injection Eg as ->|done].
      - by injection Eg as ->. }
    eapply onlyValue_sput; [done|done|done|]. simpl. by rewrite length_map.
Qed.

End WithKernels.

(** *** Inversion of runs *)

Lemma bind_inv {A B} (m : M A) (f : A → M B) s r :
  bind m f s = Some r → ∃ a s1, m s = Some (a, s1) ∧ f a s1 = Some r.
Proof.
  unfold bind. destruct (m s) as [[a s1]|]; [|done]. intros H. by exists a, s1.
Qed.

Lemma getEl_inv p s el s' : getEl p s = Some (el, s') → sget s p = Some el ∧ s' = s.
Proof.
  destruct p as [a|]; simpl; unfold lift.
  - destruct (heap s !! a); [by intros [= -> ->]|done].
  - by intros [= -> ->].
Qed.

Lemma degreeOf_inv p s d s' :
  degreeOf p s = Some (d, s') → ∃ el, sget s p = Some el ∧ d = Degree el ∧ s' = s.
Proof.
  intros H. apply bind_inv in H as (el & s1 & Hg & Hr).
  apply getEl_inv in Hg as [Hg ->]. injection Hr as <- <-. by exists el.
Qed.

Lemma scaleOf_inv p s d s' :
  scaleOf p s = Some (d, s') → ∃ el, sget s p = Some el ∧ d = scale el ∧ s' = s.
Proof.
  intros H. apply bind_inv in H as (el & s1 & Hg & Hr).
  apply getEl_inv in Hg as [Hg ->]. injection Hr as <- <-. by exists el.
Qed.

Lemma levelOf_inv' p s l s' :
  levelOf p s = Some (l, s') → ∃ el, sget s p = Some el ∧ Level el = Some l ∧ s' = s.
Proof.
  intros H. apply bind_inv in H as (el & s1 & Hg & Hr).
  apply getEl_inv in Hg as [Hg ->]. unfold lift in Hr.
  destruct (Level el) as [l'|] eqn:HL; [|done]. injection Hr as <- <-. by exists el.
Qed.

Lemma setScaleAt_inv p sc s s' :
  setScaleAt p sc s = Some (tt, s') →
  ∃ el, sget s p = Some el ∧ s' = sput s p (SetScale el sc).
Proof.
  intros H. apply bind_inv in H as (el & s1 & Hg & Hr).
  apply getEl_inv in Hg as [Hg ->]. apply putEl_inv in Hr as [_ ->]. by exists el.
Qed.

Lemma resizeAt_inv p d s s' :
  resizeAt p d s = Some (tt, s') →
  ∃ el el', sget s p = Some el ∧ Resize (n (ckksContext (ev s))) el d = Some el'
            ∧ s' = sput s p el'.
Proof.
  intros H. apply bind_inv in H as (c & s1 & Hc & H). injection Hc as <- <-.
  apply bind_inv in H as (el & s1 & Hg & H). apply getEl_inv in Hg as [Hg ->].
  apply bind_inv in H as (el' & s1 & Hl & H). unfold lift in Hl.
  destruct (Resize _ el d) as [r|] eqn:Er; [|done]. injection Hl as <- <-.
  apply putEl_inv in H as [_ ->]. by exists el, r.
Qed.

Lemma Resize_meta nn el d el' :
  Resize nn el d = Some el' →
  scale el' = scale el ∧ isNTT el' = isNTT el
  ∧ length (value el') = Z.to_nat (d + 1).
Proof.
  unfold Resize. destruct (Level el) as [lvl|]; [|done]. cbn [mbind option_bind].
  intros [= <-]. simpl. split_and!; try done.
  rewrite length_app, length_take, length_replicate. lia.
Qed.

(** The element that [p] designates keeps its scale, flag and degree across a
    change of residues. *)
Lemma onlyValue_meta out s s' p el :
  onlyValue out s s' → sget s p = Some el →
  ∃ el', sget s' p = Some el' ∧ scale el' = scale el ∧ isNTT el' = isNTT el
         ∧ Degree el' = Degree el.
Proof.
  intros [HE HM] H. destruct (decide (p = out)) as [->|Hne].
  - destruct (HM el H) as (el' & H' & Hs & Hn & Hl). exists el'.
    split_and!; try done. unfold Degree. by rewrite Hl.
  - exists el. split_and!; try done. by rewrite (oe_other _ _ _ HE).
Qed.


Lemma degreeOf_sget p s el : sget s p = Some el → degreeOf p s = Some (Degree el, s).
Proof. intros H. unfold degreeOf. by rewrite (bind_Some _ _ _ _ _ (getEl_sget _ _ _ H)). Qed.

Lemma getElemAndCheckBinary_inv op0 op1 opOut m s s' :
  getElemAndCheckBinary op0 op1 opOut m s = Some (tt, s') →
  s' = s ∧ ∃ e0 e1 eo, sget s op0 = Some e0 ∧ sget s op1 = Some e1
      ∧ sget s opOut = Some eo
      ∧ wrap64 (Degree e0 + Degree e1) ≠ 0 ∧ m <= Degree eo.
Proof.
  intros H. unfold getElemAndCheckBinary in H.
  apply bind_inv in H as (e0 & s1 & Hg0 & H). apply getEl_inv in Hg0 as [Hg0 ->].
  apply bind_inv in H as (e1 & s1 & Hg1 & H). apply getEl_inv in Hg1 as [Hg1 ->].
  apply bind_inv in H as (eo & s1 & Hgo & H). apply getEl_inv in Hgo as [Hgo ->].
  destruct (Z.eqb_spec (wrap64 (Degree e0 + Degree e1)) 0); [done|].
  destruct (Z.ltb_spec (Degree eo) m); [done|].
  injection H as <-. split; [done|]. by exists e0, e1, eo.
Qed.

(** Besides the pools, only the parts of [out] may differ: its scale and its
    domain flag stay, its degree may change. *)
Record onlyParts (out : eptr) (s s' : Store) : Prop := mkOnlyParts {
  op_el : onlyEl out s s';
  op_meta : ∀ el, sget s out = Some el →
            ∃ el', sget s' out = Some el' ∧ scale el' = scale el
                   ∧ isNTT el' = isNTT el
}.

Lemma onlyParts_refl out s : onlyParts out s s.
Proof. split; [apply onlyEl_refl|]. intros el H. by exists el. Qed.

Lemma onlyParts_trans out s1 s2 s3 :
  onlyParts out s1 s2 → onlyParts out s2 s3 → onlyParts out s1 s3.
Proof.
  intros [E1 M1] [E2 M2]. split; [by eapply onlyEl_trans|].
  intros el H. destruct (M1 el H) as (el1 & H1 & Hs1 & Hn1).
  destruct (M2 el1 H1) as (el2 & H2 & Hs2 & Hn2).
  exists el2. split_and!; [done|congruence..].
Qed.

Lemma onlyValue_onlyParts out s s' : onlyValue out s s' → onlyParts out s s'.
Proof.
  intros [HE HM]. split; [done|]. intros el H.
  destruct (HM el H) as (el' & ? & ? & ? & _). by exists el'.
Qed.

Lemma pp_of_pv out {A} (m : M A) : pres (onlyValue out) m → pres (onlyParts out) m.
Proof. intros H s a s' E. by apply onlyValue_onlyParts, (H s a s'). Qed.

Lemma pp_bind out {A B} (m : M A) (f : A → M B) :
  pres (onlyParts out) m → (∀ a, pres (onlyParts out) (f a)) →
  pres (onlyParts out) (bind m f).
Proof. apply pres_bind, onlyParts_trans. Qed.

Lemma pe_of_pp out {A} (m : M A) : pres (onlyParts out) m → pres (onlyEl out) m.
Proof. intros H s a s' E. by apply (H s a s'). Qed.

Lemma pp_resizeAt out d : pres (onlyParts out) (resizeAt out d).
Proof.
  intros s [] s' E. apply resizeAt_inv in E as (el & el' & H & Hr & ->).
  apply Resize_meta in Hr as (Hs & Hn & _).
  split; [apply onlyEl_sput; by eexists|].
  intros el1 H1. exists el'. rewrite (sget_sput_eq _ _ _ _ H).
  rewrite H in H1. by injection H1 as <-.
Qed.

Lemma pe_setScaleAt out sc : pres (onlyEl out) (setScaleAt out sc).
Proof.
  intros s [] s' E. apply setScaleAt_inv in E as (el & H & ->).
  apply onlyEl_sput. by eexists.
Qed.

(** [post Q m]: every run of [m] that returns ends in a store with [Q]. *)
Definition post {A} (Q : Store → Prop) (m : M A) : Prop :=
  ∀ s a s', m s = Some (a, s') → Q s'.

Lemma post_bind_last {A B} Q (m : M A) (f : A → M B) :
  (∀ a, post Q (f a)) → post Q (bind m f).
Proof.
  intros Hf s b s' E. apply bind_inv in E as (a & s1 & _ & E). by eapply Hf.
Qed.

Lemma post_bind_first {A B} (R : Store → Store → Prop) Q (m : M A) (f : A → M B) :
  (∀ s s', R s s' → Q s → Q s') →
  post Q m → (∀ a, pres R (f a)) → post Q (bind m f).
Proof.
  intros HR Hm Hf s b s' E. apply bind_inv in E as (a & s1 & Em & E).
  eapply HR; [by eapply Hf|by eapply Hm].
Qed.

Lemma post_panic {A} Q : post Q (@panic A).
Proof. by intros s a s' E. Qed.

(** The receiver has [k] parts. *)
Definition hasParts (out : eptr) (k : nat) (s : Store) : Prop :=
  ∃ el, sget s out = Some el ∧ length (value el) = k.

Lemma hasParts_onlyValue out k s s' :
  onlyValue out s s' → hasParts out k s → hasParts out k s'.
Proof.
  intros [_ HM] (el & H & Hl). destruct (HM el H) as (el' & H' & _ & _ & Hl').
  exists el'. split; [done|congruence].
Qed.

Lemma post_resizeAt out d : post (hasParts out (Z.to_nat (d + 1))) (resizeAt out d).
Proof.
  intros s [] s' E. apply resizeAt_inv in E as (el & el' & H & Hr & ->).
  apply Resize_meta in Hr as (_ & _ & Hl).
  exists el'. split; [by eapply sget_sput_eq|done].
Qed.

(** The bookkeeping with the routines above as single steps. *)
Ltac pv2 :=
  repeat first
    [ apply pv_polyOp1; solve [simpl; auto]
    | apply pv_polyOp2; solve [simpl; auto]
    | apply pv_zeroAt; solve [simpl; auto]
    | apply pv_tensor; solve [simpl; auto]
    | apply pv_switchKeysInPlace
    | apply pv_SwitchKeys
    | apply pv_DropLevel
    | pv_step ].

Section Theorems.
Context `{K : Kernels}.

(** *** [SwitchKeys] *)

(** [SwitchKeys] panics unless the input and the receiver both have degree 1.
    When it returns, it has changed nothing but the residues of the receiver
    (and the pools): every other element is as before, and the receiver keeps
    its own scale, domain flag and degree; in particular the scale of the
    input is not copied to the receiver. *)
Theorem SwitchKeys_guard_and_frame (s : Store) (ct0 ctOut : eptr)
    (key : option SwitchingKey) (e0 eo : Element) :
  sget s ct0 = Some e0 → sget s ctOut = Some eo →
  (Degree e0 ≠ 1 ∨ Degree eo ≠ 1 → SwitchKeys ct0 key ctOut s = None)
  ∧ (∀ s', SwitchKeys ct0 key ctOut s = Some (tt, s') →
       ckksContext (ev s') = ckksContext (ev s)
       ∧ (∀ p, p ≠ ctOut → sget s' p = sget s p)
       ∧ ∃ eo', sget s' ctOut = Some eo' ∧ scale eo' = scale eo
                ∧ isNTT eo' = isNTT eo ∧ Degree eo' = Degree eo).
Proof.
  intros H0 Ho. split.
  - intros Hd. unfold SwitchKeys.
    rewrite (bind_Some _ _ _ _ _ (degreeOf_sget _ _ _ H0)).
    rewrite (bind_Some _ _ _ _ _ (degreeOf_sget _ _ _ Ho)).
    destruct (Z.eqb_spec (Degree e0) 1), (Z.eqb_spec (Degree eo) 1); try done.
    by destruct Hd.
  - intros s' H. pose proof (pv_SwitchKeys _ _ _ _ _ _ H) as Hpv.
    split; [apply Hpv|]. split; [apply Hpv|].
    by apply (onlyValue_meta _ _ _ _ _ Hpv).
Qed.


(** *** [Relinearize] *)

Lemma pp_Relinearize_tail ct0 evk ctOut :
  pres (onlyParts ctOut)
    (do c <- getCtx;
     do l0 <- levelOf ct0;
     do lo <- levelOf ctOut;
     let level := MinUint64 l0 lo in
     run polyOp1 (CopyLvl (contextQ c) level) (Part ct0 0) (Part ctOut 0);
     run polyOp1 (CopyLvl (contextQ c) level) (Part ct0 1) (Part ctOut 1);
     do k <- lift evk;
     run switchKeysInPlace (Part ct0 2) (Some (evakey k)) ctOut;
     resizeAt ctOut 1).
Proof.
  apply pp_bind; [apply pp_of_pv; pv|]. intros c.
  apply pp_bind; [apply pp_of_pv; pv|]. intros l0.
  apply pp_bind; [apply pp_of_pv; pv|]. intros lo. cbv zeta.
  apply pp_bind; [apply pp_of_pv; pv2|]. intros _.
  apply pp_bind; [apply pp_of_pv; pv2|]. intros _.
  apply pp_bind; [apply pp_of_pv; pv|]. intros k.
  apply pp_bind; [apply pp_of_pv; pv2|]. intros _.
  apply pp_resizeAt.
Qed.

Lemma post_Relinearize ct0 evk ctOut :
  post (hasParts ctOut 2) (Relinearize ct0 evk ctOut).
Proof.
  unfold Relinearize. apply post_bind_last. intros d0.
  destruct (negb _); [apply post_panic|].
  do 4 (apply post_bind_last; intros ?). cbv zeta.
  do 4 (apply post_bind_last; intros ?).
  apply (post_resizeAt ctOut 1).
Qed.

(** [Relinearize] panics unless the input has degree 2, and panics without an
    evaluation key.  When it returns, the receiver has degree 1, the scale of
    the input and its own domain flag, and no other element has changed. *)
Theorem Relinearize_guard_and_result (s : Store) (ct0 ctOut : eptr)
    (evk : option EvaluationKey) (e0 eo : Element) :
  sget s ct0 = Some e0 → sget s ctOut = Some eo →
  (Degree e0 ≠ 2 → Relinearize ct0 evk ctOut s = None)
  ∧ (evk = None → Relinearize ct0 evk ctOut s = None)
  ∧ (∀ s', Relinearize ct0 evk ctOut s = Some (tt, s') →
       ckksContext (ev s') = ckksContext (ev s)
       ∧ (∀ p, p ≠ ctOut → sget s' p = sget s p)
       ∧ ∃ eo', sget s' ctOut = Some eo' ∧ Degree eo' = 1
                ∧ scale eo' = scale e0 ∧ isNTT eo' = isNTT eo).
Proof.
  intros H0 Ho.
  assert (Hmain : ∀ s', Relinearize ct0 evk ctOut s = Some (tt, s') →
            Degree e0 = 2 ∧ evk ≠ None
            ∧ ckksContext (ev s') = ckksContext (ev s)
            ∧ (∀ p, p ≠ ctOut → sget s' p = sget s p)
            ∧ ∃ eo', sget s' ctOut = Some eo' ∧ Degree eo' = 1
                     ∧ scale eo' = scale e0 ∧ isNTT eo' = isNTT eo).
  { intros s' H. pose proof (post_Relinearize _ _ _ _ _ _ H) as (eo' & Ho' & Hl').
    unfold Relinearize in H.
    rewrite (bind_Some _ _ _ _ _ (degreeOf_sget _ _ _ H0)) in H.
    destruct (Z.eqb_spec (Degree e0) 2) as [Hd|]; [|done]. cbn [negb] in H.
    apply bind_inv in H as ([] & s1 & E1 & H).
    assert (H1 : onlyEl ctOut s s1
                 ∧ ∃ eo1, sget s1 ctOut = Some eo1 ∧ scale eo1 = scale e0
                          ∧ isNTT eo1 = isNTT eo).
    { destruct (decide (ctOut ≠ ct0)) as [Hne|Heq].
      - apply bind_inv in E1 as (s0 & s2 & Es & E1).
        apply scaleOf_inv in Es as (el & Hel & -> & ->).
        rewrite H0 in Hel. injection Hel as <-.
        apply setScaleAt_inv in E1 as (el & Hel & ->).
        rewrite Ho in Hel. injection Hel as <-.
        split; [apply onlyEl_sput; by eexists|].
        eexists. split; [by eapply sget_sput_eq|done].
      - injection E1 as <-. split; [apply onlyEl_refl|].
        assert (ctOut = ct0) as -> by (by destruct (decide (ctOut = ct0)); [|exfalso; auto]).
        exists e0. rewrite Ho in H0. by injection H0 as ->. }
    destruct H1 as (HE1 & eo1 & Ho1 & Hs1 & Hn1).
    assert (Hk : evk ≠ None).
    { intros ->. clear -H.
      repeat (apply bind_inv in H as (? & ? & ? & H)).
      match goal with E : lift None _ = Some _ |- _ => discriminate E end. }
    pose proof (pp_Relinearize_tail _ _ _ _ _ _ H) as [HE2 HM2].
    destruct (HM2 _ Ho1) as (eo2 & Ho2 & Hs2 & Hn2).
    pose proof (onlyEl_trans _ _ _ _ HE1 HE2) as HE.
    split; [done|]. split; [done|]. split; [apply HE|]. split; [apply HE|].
    rewrite Ho' in Ho2. injection Ho2 as <-.
    exists eo'. split_and!; [done| |congruence|congruence].
    unfold Degree. rewrite Hl'. reflexivity. }
  split; [|split].
  - intros Hd. destruct (Relinearize ct0 evk ctOut s) as [[[] s']|]; [|done].
    by destruct (Hmain _ eq_refl) as (? & _).
  - intros Hk. destruct (Relinearize ct0 evk ctOut s) as [[[] s']|]; [|done].
    by destruct (Hmain _ eq_refl) as (_ & ? & _).
  - intros s' H. by destruct (Hmain _ H) as (_ & _ & ?).
Qed.


(** *** [MulRelin] *)

Lemma pres_apply {A} (R : Store → Store → Prop) (m : M A) s a s' :
  m s = Some (a, s') → pres R m → R s s'.
Proof. intros E H. by eapply H. Qed.

Lemma MulRelin_inv (s s' : Store) (op0 op1 ctOut : eptr)
    (evk : option EvaluationKey) (e0 e1 eo : Element) :
  sget s op0 = Some e0 → sget s op1 = Some e1 → sget s ctOut = Some eo →
  MulRelin op0 op1 evk ctOut s = Some (tt, s') →
  (Degree e0 <= 1 ∧ Degree e1 <= 1 ∧ wrap64 (Degree e0 + Degree e1) ≠ 0
   ∧ isNTT e0 = true ∧ isNTT e1 = true
   ∧ MaxUint64 (Degree e0) (Degree e1) <= Degree eo)
  ∧ ckksContext (ev s') = ckksContext (ev s)
  ∧ (∀ p, p ≠ ctOut → sget s' p = sget s p)
  ∧ ∃ eo', sget s' ctOut = Some eo'
      ∧ scale eo' = (scale e0 * scale e1)%float ∧ isNTT eo' = isNTT eo
      ∧ length (value eo')
        = (if wrap64 (Degree e0 + Degree e1) =? 2
           then match evk with None => 3%nat | Some _ => length (value eo) end
           else length (value eo)).
Proof.
  intros H0 H1 Ho H. unfold MulRelin in H.
  rewrite (bind_Some _ _ _ _ _ (degreeOf_sget _ _ _ H0)) in H.
  rewrite (bind_Some _ _ _ _ _ (degreeOf_sget _ _ _ H1)) in H.
  apply bind_inv in H as ([] & s1 & E & H).
  apply getElemAndCheckBinary_inv in E as (-> & e0' & e1' & eo' & G0 & G1 & Go & Hnz & Hmax).
  rewrite H0 in G0. rewrite H1 in G1. rewrite Ho in Go.
  injection G0 as <-. injection G1 as <-. injection Go as <-.
  apply bind_inv in H as (l0 & s1 & E & H). apply levelOf_inv' in E as (? & _ & _ & ->).
  apply bind_inv in H as (l1 & s1 & E & H). apply levelOf_inv' in E as (? & _ & _ & ->).
  apply bind_inv in H as (lo & s1 & E & H). apply levelOf_inv' in E as (? & _ & _ & ->).
  cbv zeta in H.
  apply bind_inv in H as ([] & s1 & E1 & H).
  assert (Hpv1 : onlyValue ctOut s s1).
  { apply (pres_apply _ _ _ _ _ E1). pv2. }
  destruct (onlyValue_meta _ _ _ _ _ Hpv1 H0) as (f0 & F0 & Fs0 & Fn0 & Fd0).
  destruct (onlyValue_meta _ _ _ _ _ Hpv1 H1) as (f1 & F1 & Fs1 & Fn1 & Fd1).
  destruct (ov_meta _ _ _ Hpv1 _ Ho) as (fo & Fo & Fso & Fno & Flo).
  rewrite (bind_Some _ _ _ _ _ (getEl_sget _ _ _ F0)) in H.
  rewrite (bind_Some _ _ _ _ _ (getEl_sget _ _ _ F1)) in H.
  rewrite Fd0, Fd1, Fn0, Fn1, Fs0, Fs1 in H.
  destruct (Z.ltb_spec 1 (Degree e0)); [done|].
  destruct (Z.ltb_spec 1 (Degree e1)); [done|]. cbn [orb] in H.
  destruct (isNTT e0) eqn:N0; [|done]. destruct (isNTT e1) eqn:N1; [|done].
  cbn [negb] in H.
  apply bind_inv in H as ([] & s2 & E2 & H).
  apply setScaleAt_inv in E2 as (fo' & Fo' & ->). rewrite Fo in Fo'. injection Fo' as <-.
  set (s2 := sput s1 ctOut (SetScale fo (scale e0 * scale e1))) in *.
  assert (Ho2 : sget s2 ctOut = Some (SetScale fo (scale e0 * scale e1)))
    by (by eapply sget_sput_eq).
  assert (HE12 : onlyEl ctOut s1 s2) by (apply onlyEl_sput; by eexists).
  split; [done|].
  (* the rest keeps the scale and the flag *)
  assert (Htail : onlyParts ctOut s2 s'
                  ∧ hasParts ctOut
                      (if wrap64 (Degree e0 + Degree e1) =? 2
                       then match evk with None => 3%nat | Some _ => length (value eo) end
                       else length (value eo)) s').
  { apply bind_inv in H as (c & s3 & E & H). injection E as <- <-. cbv zeta in H.
    assert (Hp2 : hasParts ctOut (length (value eo)) s2).
    { eexists. split; [exact Ho2|]. simpl. done. }
    destruct (wrap64 (Degree e0 + Degree e1) =? 2).
    - apply bind_inv in H as (dst & s3 & E & H).
      destruct evk as [k|].
      + (* with a key: only residues change *)
        assert (onlyValue ctOut s2 s').
        { eapply onlyValue_trans.
          - instantiate (1 := s3). revert E. clear.
            destruct (decide _); intros [= _ <-]; apply onlyValue_refl.
          - assert (Hd : ∃ c0 c1 c2, dst = (c0, c1, c2) ∧ dstOf ctOut c0
                           ∧ dstOf ctOut c1 ∧ dstOf ctOut c2).
            { revert E. clear. destruct (decide _); intros [= <- _];
                eexists _, _, _; split; try reflexivity; simpl; auto. }
            destruct Hd as (c0 & c1 & c2 & -> & D0 & D1 & D2).
            apply (pres_apply _ _ _ _ _ H). pv2. }
        split; [by apply onlyValue_onlyParts|by eapply hasParts_onlyValue].
      + (* without a key: the receiver is resized to degree 2 *)
        destruct (decide (ctOut ≠ op0 ∧ ctOut ≠ op1)) as [Hne|Heq].
        * apply bind_inv in E as ([] & s4 & E & E'). injection E' as <- <-.
          pose proof (pp_resizeAt _ _ _ _ _ E) as Hpp.
          pose proof (post_resizeAt _ _ _ _ _ E) as Hpost.
          apply bind_inv in H as ([] & s5 & Et & H).
          assert (Hpt : onlyValue ctOut s4 s5)
            by (apply (pres_apply _ _ _ _ _ Et); pv2).
          rewrite decide_False in H by (intros [?|?]; destruct Hne; congruence).
          injection H as <-.
          split; [eapply onlyParts_trans; [exact Hpp|by apply onlyValue_onlyParts]|].
          by eapply hasParts_onlyValue.
        * injection E as <- <-.
          apply bind_inv in H as ([] & s5 & Et & H).
          assert (Hpt : onlyValue ctOut s2 s5)
            by (apply (pres_apply _ _ _ _ _ Et); pv2).
          destruct (decide (ctOut = op0 ∨ ctOut = op1)) as [_|Hn].
          2:{ exfalso. apply Heq. split; intros ->; apply Hn; auto. }
          apply bind_inv in H as ([] & s6 & Er & H).
          pose proof (pp_resizeAt _ _ _ _ _ Er) as Hpp.
          pose proof (post_resizeAt _ _ _ _ _ Er) as Hpost.
          assert (Hpc : onlyValue ctOut s6 s').
          { apply (pres_apply _ _ _ _ _ H). pv2. }
          split.
          -- eapply onlyParts_trans; [by apply onlyValue_onlyParts|].
             eapply onlyParts_trans; [exact Hpp|by apply onlyValue_onlyParts].
          -- by eapply hasParts_onlyValue.
    - (* a plaintext operand: only residues change *)
      assert (onlyValue ctOut s2 s').
      { destruct (Degree e0 =? 1); apply (pres_apply _ _ _ _ _ H); pv2. }
      split; [by apply onlyValue_onlyParts|by eapply hasParts_onlyValue]. }
  destruct Htail as ([HEt HMt] & eo' & Ho' & Hl').
  destruct (HMt _ Ho2) as (eo2 & Ho2' & Hs2 & Hn2).
  rewrite Ho' in Ho2'. injection Ho2' as <-.
  pose proof (onlyEl_trans _ _ _ _ (onlyValue_onlyEl _ _ _ Hpv1)
                (onlyEl_trans _ _ _ _ HE12 HEt)) as HE.
  split; [apply HE|]. split; [apply HE|].
  exists eo'. split_and!; [done|by rewrite Hs2| |done].
  rewrite Hn2. simpl. done.
Qed.


(** [MulRelin] panics when an operand is not in the NTT domain, when an
    operand has degree above 1, when both operands are plaintexts, and when
    the receiver has a smaller degree than an operand. *)
Theorem MulRelin_rejects (s : Store) (op0 op1 ctOut : eptr)
    (evk : option EvaluationKey) (e0 e1 eo : Element) :
  sget s op0 = Some e0 → sget s op1 = Some e1 → sget s ctOut = Some eo →
  isNTT e0 = false ∨ isNTT e1 = false ∨ 1 < Degree e0 ∨ 1 < Degree e1
  ∨ (Degree e0 = 0 ∧ Degree e1 = 0)
  ∨ Degree eo < MaxUint64 (Degree e0) (Degree e1) →
  MulRelin op0 op1 evk ctOut s = None.
Proof.
  intros H0 H1 Ho Hbad.
  destruct (MulRelin op0 op1 evk ctOut s) as [[[] s']|] eqn:E; [|done].
  destruct (MulRelin_inv _ _ _ _ _ _ _ _ _ H0 H1 Ho E)
    as ((D0 & D1 & Hnz & N0 & N1 & Hmax) & _).
  destruct Hbad as [?|[?|[?|[?|[[Z0 Z1]|?]]]]]; try congruence; try lia.
  rewrite Z0, Z1 in Hnz. done.
Qed.

(** When [MulRelin] returns, the receiver carries the product of the operand
    scales and its own domain flag; it has degree 2 when both operands have
    degree 1 and no evaluation key is given, and keeps the degree it had in
    every other case, also with an evaluation key; no other element has
    changed. *)
Theorem MulRelin_result (s s' : Store) (op0 op1 ctOut : eptr)
    (evk : option EvaluationKey) (e0 e1 eo : Element) :
  sget s op0 = Some e0 → sget s op1 = Some e1 → sget s ctOut = Some eo →
  MulRelin op0 op1 evk ctOut s = Some (tt, s') →
  ckksContext (ev s') = ckksContext (ev s)
  ∧ (∀ p, p ≠ ctOut → sget s' p = sget s p)
  ∧ ∃ eo', sget s' ctOut = Some eo'
      ∧ scale eo' = (scale e0 * scale e1)%float ∧ isNTT eo' = isNTT eo
      ∧ Degree eo'
        = (if (Degree e0 =? 1) && (Degree e1 =? 1)
           then match evk with None => 2 | Some _ => Degree eo end
           else Degree eo).
Proof.
  intros H0 H1 Ho H.
  destruct (MulRelin_inv _ _ _ _ _ _ _ _ _ H0 H1 Ho H)
    as ((D0 & D1 & Hnz & N0 & N1 & Hmax) & Hc & Hf & eo' & Ho' & Hs & Hn & Hl).
  split; [done|]. split; [done|]. exists eo'. split_and!; try done.
  unfold Degree at 1. rewrite Hl.
  assert (B0 : 0 <= Degree e0) by (unfold Degree, wrap64; apply Z.mod_pos_bound; lia).
  assert (B1 : 0 <= Degree e1) by (unfold Degree, wrap64; apply Z.mod_pos_bound; lia).
  assert (Hw : wrap64 (Degree e0 + Degree e1) = Degree e0 + Degree e1)
    by (unfold wrap64; apply Z.mod_small; lia).
  rewrite Hw.
  destruct (Z.eqb_spec (Degree e0) 1), (Z.eqb_spec (Degree e1) 1),
    (Z.eqb_spec (Degree e0 + Degree e1) 2); cbn [andb]; try lia; try done.
  by destruct evk.
Qed.

End Theorems.

(** *** Examples *)

Import MulProofs.

(** A second degree-1 ciphertext, at another scale. *)
Definition otherCt : Element :=
  mkElement [[[1; 1]; [1; 1]; [1; 1]]; [[2; 2]; [2; 2]; [2; 2]]] 32%float true.

Definition frameStore : Store :=
  mkStore (NewEvaluator exampleContext) [exampleCt; otherCt; degree2Receiver].

Lemma SwitchKeys_guard_and_frame_witness :
  ∃ s' eo',
    SwitchKeys (K := exampleKernels) (Addr 0) (Some (evakey exampleEvk)) (Addr 1) frameStore
    = Some (tt, s')
    ∧ sget s' (Addr 1) = Some eo' ∧ scale eo' = 32%float
    ∧ sget s' (Addr 0) = Some exampleCt.
Proof.
  assert (Hrun : ∃ s', SwitchKeys (K := exampleKernels) (Addr 0)
                         (Some (evakey exampleEvk)) (Addr 1) frameStore = Some (tt, s'))
    by (eexists; vm_compute; reflexivity).
  destruct Hrun as [s' Hrun].
  destruct (SwitchKeys_guard_and_frame (K := exampleKernels) frameStore (Addr 0) (Addr 1)
              (Some (evakey exampleEvk)) exampleCt otherCt eq_refl eq_refl)
    as (_ & Hres).
  destruct (Hres s' Hrun) as (_ & Hother & eo' & Ho' & Hs & _).
  exists s', eo'. split; [exact Hrun|]. split; [exact Ho'|]. split; [exact Hs|].
  rewrite Hother; [reflexivity|discriminate].
Defined.

Lemma Relinearize_guard_and_result_witness :
  ∃ s' eo',
    Relinearize (K := exampleKernels) (Addr 2) (Some exampleEvk) (Addr 1) frameStore
    = Some (tt, s')
    ∧ sget s' (Addr 1) = Some eo' ∧ Degree eo' = 1 ∧ scale eo' = 1%float.
Proof.
  assert (Hrun : ∃ s', Relinearize (K := exampleKernels) (Addr 2)
                         (Some exampleEvk) (Addr 1) frameStore = Some (tt, s'))
    by (eexists; vm_compute; reflexivity).
  destruct Hrun as [s' Hrun].
  destruct (Relinearize_guard_and_result (K := exampleKernels) frameStore (Addr 2) (Addr 1)
              (Some exampleEvk) degree2Receiver otherCt eq_refl eq_refl)
    as (_ & _ & Hres).
  destruct (Hres s' Hrun) as (_ & _ & eo' & Ho' & Hd & Hs & _).
  exists s', eo'. split; [exact Hrun|]. split; [exact Ho'|]. split; [exact Hd|exact Hs].
Defined.

Lemma MulRelin_rejects_witness :
  MulRelin (K := exampleKernels) (Addr 2) (Addr 0) (Some exampleEvk) (Addr 2) frameStore
  = None.
Proof.
  apply (MulRelin_rejects (K := exampleKernels) frameStore (Addr 2) (Addr 0) (Addr 2)
           (Some exampleEvk) degree2Receiver exampleCt degree2Receiver
           eq_refl eq_refl eq_refl).
  right. right. left. reflexivity.
Defined.

Lemma MulRelin_result_witness :
  ∃ s' eo',
    MulRelin (K := exampleKernels) (Addr 0) (Addr 1) None (Addr 1) frameStore
    = Some (tt, s')
    ∧ sget s' (Addr 1) = Some eo' ∧ Degree eo' = 2
    ∧ scale eo' = (scale exampleCt * scale otherCt)%float.
Proof.
  assert (Hrun : ∃ s', MulRelin (K := exampleKernels) (Addr 0) (Addr 1) None (Addr 1)
                         frameStore = Some (tt, s'))
    by (eexists; vm_compute; reflexivity).
  destruct Hrun as [s' Hrun].
  destruct (MulRelin_result (K := exampleKernels) frameStore s' (Addr 0) (Addr 1) (Addr 1)
              None exampleCt otherCt otherCt eq_refl eq_refl eq_refl Hrun)
    as (_ & _ & eo' & Ho' & Hs & _ & Hd).
  exists s', eo'. split; [exact Hrun|]. split; [exact Ho'|]. split; [exact Hd|exact Hs].
Defined.

End EvalFrame.

(** ** Levels, constants and conjugation *)

Module EvalMore.
Import RingPkg Elem Ckks CkksMore CkksProofs AddSubProofs EvalFrame.

(** *** [DropLevel] *)

(** The element with every part cut down to its first [k] rows. *)
Definition truncated (k : nat) (el : Element) : Element :=
  mkElement (map (take k) (value el)) (scale el) (isNTT el).

Lemma DropLevel_run (s : Store) (p : eptr) (el : Element) (k : nat) (lvls : Z) :
  sget s p = Some el → rowsEl k el → (2 ≤ k)%nat → Z.of_nat k < 2 ^ 64 →
  0 <= lvls <= Z.of_nat k →
  DropLevel p lvls s
  = Some (ErrNil, sput s p (truncated (k - Z.to_nat lvls) el)).
Proof.
  intros Hg Hrows Hk Hlt Hl. unfold DropLevel.
  rewrite (bind_Some _ _ _ _ _ (getEl_sget _ _ _ Hg)).
  rewrite (Level_rowsEl_pos k el) by (done || lia). unfold lift at 1, bind at 1.
  replace (Z.of_nat k - 1 =? 0) with false by (symmetry; apply Z.eqb_neq; lia).
  cbv zeta.
  replace (Z.to_nat (wrap64 (Z.of_nat k - 1 + 1 - lvls))) with (k - Z.to_nat lvls)%nat
    by (unfold wrap64; rewrite Z.mod_small by lia; lia).
  rewrite decide_True.
  - by rewrite (bind_Some _ _ _ _ _ (putEl_sput _ _ _ _ Hg)).
  - destruct Hrows as [_ Hall]. eapply Forall_impl; [exact Hall|].
    intros part Hp. simpl in Hp. lia.
Qed.

Lemma truncated_rowsEl k j el : rowsEl k el → (j ≤ k)%nat → rowsEl j (truncated j el).
Proof.
  intros [Hne Hall] Hj. split; simpl.
  - by destruct (value el).
  - apply Forall_fmap. eapply Forall_impl; [exact Hall|].
    intros part Hp. simpl in *. rewrite length_take. lia.
Qed.

Lemma truncated_truncated i j el :
  truncated i (truncated j el) = truncated (i `min` j) el.
Proof.
  unfold truncated. simpl. f_equal. rewrite <- list_fmap_compose.
  apply list_fmap_ext. intros _ part _. simpl. by rewrite take_take.
Qed.

(** [DropLevel] on an element whose parts all have [k] rows (level [k-1]).
    At level 0 it returns the error and changes nothing, even when asked to
    drop no level at all.  At a higher level, dropping [lvls <= k] levels
    returns no error and cuts every part down to its first [k - lvls] rows,
    keeping the scale, the domain flag and the number of parts; for
    [lvls < k] the new level is [k - 1 - lvls]. *)
Theorem DropLevel_spec (s : Store) (p : eptr) (el : Element) (k : nat) (lvls : Z) :
  sget s p = Some el → rowsEl k el → (1 ≤ k)%nat → Z.of_nat k < 2 ^ 64 →
  (k = 1%nat → DropLevel p lvls s = Some (ErrNew, s))
  ∧ ((2 ≤ k)%nat → 0 <= lvls <= Z.of_nat k →
     DropLevel p lvls s = Some (ErrNil, sput s p (truncated (k - Z.to_nat lvls) el))
     ∧ (lvls < Z.of_nat k →
        Level (truncated (k - Z.to_nat lvls) el) = Some (Z.of_nat k - 1 - lvls))).
Proof.
  intros Hg Hrows Hk Hlt. split.
  - intros ->. unfold DropLevel.
    rewrite (bind_Some _ _ _ _ _ (getEl_sget _ _ _ Hg)).
    rewrite (Level_rowsEl_pos 1 el) by (done || lia). reflexivity.
  - intros Hk2 Hl. split; [by apply DropLevel_run|].
    intros Hl'. rewrite (Level_rowsEl_pos (k - Z.to_nat lvls)).
    + f_equal. lia.
    + apply (truncated_rowsEl k); [done|lia].
    + lia.
    + lia.
Qed.

(** Dropping [a] levels and then [b] levels is dropping [a + b] levels, as
    long as the first drop does not reach level 0 (from level 0 the second
    call would return the error). *)
Theorem DropLevel_twice (s : Store) (p : eptr) (el : Element) (k : nat) (a b : Z) :
  sget s p = Some el → rowsEl k el → Z.of_nat k < 2 ^ 64 →
  0 <= a → 0 <= b → a + b <= Z.of_nat k → a + 2 <= Z.of_nat k →
  (do _ <- DropLevel p a; DropLevel p b) s = DropLevel p (a + b) s.
Proof.
  intros Hg Hrows Hlt Ha Hb Hab Ha2.
  assert (H1 : DropLevel p a s = Some (ErrNil, sput s p (truncated (k - Z.to_nat a) el)))
    by (apply DropLevel_run; (done || lia)).
  rewrite (bind_Some _ _ _ _ _ H1).
  rewrite (DropLevel_run s p el k (a + b)) by (done || lia).
  rewrite (DropLevel_run _ p (truncated (k - Z.to_nat a) el) (k - Z.to_nat a) b).
  - rewrite sput_sput, truncated_truncated.
    replace ((k - Z.to_nat a - Z.to_nat b) `min` (k - Z.to_nat a))%nat
      with (k - Z.to_nat (a + b))%nat by lia.
    reflexivity.
  - by eapply sget_sput_eq.
  - apply (truncated_rowsEl k); [done|lia].
  - lia.
  - lia.
  - lia.
Qed.


Section WithKernels.
Context `{K : Kernels}.

(** *** [MultByConst] *)

Lemma multRows_frame nn cR cI sc : ∀ (k : nat) (moduli : list Z) (p0 p1 r : Poly),
  multRows nn cR cI sc moduli k p0 p1 = Some r →
  length r = length p1 ∧ drop k r = drop k p1.
Proof.
  induction k as [|k IH]; intros moduli p0 p1 r.
  - destruct moduli; simpl; by intros [= <-].
  - destruct moduli as [|q moduli]; [done|].
    destruct p0 as [|r0 p0]; [done|]. destruct p1 as [|r1 p1]; [done|].
    cbn [multRows].
    destruct (scaledConsts cR cI sc q) as [[k1 k2]|]; [|done]. cbn [mbind option_bind].
    destruct (multRow nn k1 k2 q r0 r1) as [row|]; [|done]. cbn [mbind option_bind].
    destruct (multRows nn cR cI sc moduli k p0 p1) as [rest|] eqn:E; [|done].
    cbn [mbind option_bind]. intros [= <-].
    destruct (IH _ _ _ _ E) as [Hl Hd]. simpl. by rewrite Hl, Hd.
Qed.

Lemma multParts_frame nn cR cI sc moduli k : ∀ (v0 vOut v : list Poly),
  multParts nn cR cI sc moduli k v0 vOut = Some v →
  (length v0 ≤ length vOut)%nat ∧ length v = length vOut
  ∧ (∀ i, (length v0 ≤ i)%nat → v !! i = vOut !! i)
  ∧ (∀ i p p', vOut !! i = Some p → v !! i = Some p' →
       length p' = length p ∧ drop k p' = drop k p).
Proof.
  induction v0 as [|p0 v0 IH]; intros vOut v.
  - simpl. intros [= <-]. split_and!; try done; try lia.
    intros i p p' H1 H2. rewrite H1 in H2. by injection H2 as <-.
  - destruct vOut as [|p1 vOut]; [done|]. cbn [multParts].
    destruct (multRows nn cR cI sc moduli k p0 p1) as [p|] eqn:Er; [|done].
    cbn [mbind option_bind].
    destruct (multParts nn cR cI sc moduli k v0 vOut) as [rest|] eqn:E; [|done].
    cbn [mbind option_bind]. intros [= <-].
    destruct (IH _ _ E) as (Hle & Hl & Hhi & Hrows).
    destruct (multRows_frame _ _ _ _ _ _ _ _ _ Er) as [Hpl Hpd].
    split_and!; simpl; try lia.
    + intros [|i] Hi; simpl in *; [lia|]. apply Hhi. lia.
    + intros [|i] q q' H1 H2; simpl in *.
      * injection H1 as <-. injection H2 as <-. done.
      * by eapply Hrows.
Qed.


(** *** [AddConst] *)




(** *** [Conjugate] *)

Lemma pv_permuteNTT ct0 index key ctOut :
  pres (onlyValue ctOut) (permuteNTT ct0 index key ctOut).
Proof.
  unfold permuteNTT. destruct (decide (ct0 ≠ ctOut));
    (apply pv_bind; [pv2|intros _]); (apply pv_bind; [pv2|intros _]);
    (apply pv_bind; [pv|intros c]); (apply pv_bind; [pv|intros l0]);
    (apply pv_bind; [pv|intros lo]); cbv zeta;
    (apply pv_bind; [pv2|intros _]); (apply pv_bind; [pv2|intros _]);
    apply pv_switchKeysInPlace.
Qed.

(** [Conjugate] panics unless the input and the receiver both have degree 1,
    and panics without a key set or without the conjugation key in it.  When
    it returns, the receiver has the scale of the input, its own domain flag
    and degree 1, and no other element has changed. *)
Theorem Conjugate_guard_and_result (s : Store) (ct0 ctOut : eptr)
    (rotKeys : option RotationKeys) (e0 eo : Element) :
  sget s ct0 = Some e0 → sget s ctOut = Some eo →
  (Degree e0 ≠ 1 ∨ Degree eo ≠ 1 → Conjugate ct0 rotKeys ctOut s = None)
  ∧ (rotKeys = None → Conjugate ct0 rotKeys ctOut s = None)
  ∧ (∀ rk, rotKeys = Some rk → evakeyConjugate rk = None →
       Conjugate ct0 rotKeys ctOut s = None)
  ∧ (∀ s', Conjugate ct0 rotKeys ctOut s = Some (tt, s') →
       (∀ p, p ≠ ctOut → sget s' p = sget s p)
       ∧ ∃ eo', sget s' ctOut = Some eo' ∧ scale eo' = scale e0
                ∧ isNTT eo' = isNTT eo ∧ Degree eo' = 1).
Proof.
  intros H0 Ho. unfold Conjugate.
  rewrite (bind_Some _ _ _ _ _ (degreeOf_sget _ _ _ H0)).
  rewrite (bind_Some _ _ _ _ _ (degreeOf_sget _ _ _ Ho)).
  split_and!.
  - intros Hd.
    destruct (Z.eqb_spec (Degree e0) 1), (Z.eqb_spec (Degree eo) 1); try done.
    by destruct Hd.
  - intros ->. by destruct (_ || _).
  - intros rk -> Hk. destruct (_ || _); [done|].
    unfold lift at 1, bind at 1. by rewrite Hk.
  - intros s' H.
    destruct (Z.eqb_spec (Degree e0) 1) as [D0|]; [|done].
    destruct (Z.eqb_spec (Degree eo) 1) as [Do|]; [|done]. cbn [negb orb] in H.
    apply bind_inv in H as (rk & s1 & E & H). unfold lift in E.
    destruct rotKeys as [rk'|]; [|done]. injection E as <- <-.
    destruct (evakeyConjugate rk') as [key|]; [|done].
    apply bind_inv in H as (s0 & s1 & E & H).
    apply scaleOf_inv in E as (el & Hel & -> & ->). rewrite H0 in Hel. injection Hel as <-.
    apply bind_inv in H as ([] & s2 & E & H).
    apply setScaleAt_inv in E as (el & Hel & ->). rewrite Ho in Hel. injection Hel as <-.
    pose proof (pv_permuteNTT _ _ _ _ _ _ _ H) as Hpv.
    assert (Ho2 : sget (sput s ctOut (SetScale eo (scale e0))) ctOut
                  = Some (SetScale eo (scale e0))) by (by eapply sget_sput_eq).
    destruct (onlyValue_meta _ _ _ _ _ Hpv Ho2) as (eo' & Ho' & Hs & Hn & Hd).
    split.
    + intros p Hp. rewrite (oe_other _ _ _ (ov_el _ _ _ Hpv)) by done.
      by apply sget_sput_ne.
    + exists eo'. split_and!; try done. by rewrite Hd.
Qed.

(** *** [Neg] and [Reduce] *)

(** [Neg] panics when the degrees of the input and of the receiver differ.
    When it returns, it has changed nothing but the residues of the receiver:
    the receiver keeps its own scale (the scale of the input is not copied),
    its domain flag and its degree, and every other element is unchanged. *)
Theorem Neg_guard_and_frame (s : Store) (ct0 ctOut : eptr) (e0 eo : Element) :
  sget s ct0 = Some e0 → sget s ctOut = Some eo →
  (Degree e0 ≠ Degree eo → Neg ct0 ctOut s = None)
  ∧ (∀ s', Neg ct0 ctOut s = Some (tt, s') →
       Degree e0 = Degree eo
       ∧ (∀ p, p ≠ ctOut → sget s' p = sget s p)
       ∧ ∃ eo', sget s' ctOut = Some eo' ∧ scale eo' = scale eo
                ∧ isNTT eo' = isNTT eo ∧ Degree eo' = Degree eo).
Proof.
  intros H0 Ho.
  assert (Hmain : ∀ s', Neg ct0 ctOut s = Some (tt, s') →
       Degree e0 = Degree eo
       ∧ (∀ p, p ≠ ctOut → sget s' p = sget s p)
       ∧ ∃ eo', sget s' ctOut = Some eo' ∧ scale eo' = scale eo
                ∧ isNTT eo' = isNTT eo ∧ Degree eo' = Degree eo).
  { intros s' H.
    assert (Hpv : onlyValue ctOut s s').
    { apply (pres_apply _ _ _ _ _ H). unfold Neg. pv2. }
    split; [|split].
    - unfold Neg in H.
      apply bind_inv in H as (c & s1 & E & H). injection E as <- <-.
      apply bind_inv in H as (l0 & s1 & E & H). apply levelOf_inv' in E as (? & _ & _ & ->).
      apply bind_inv in H as (lo & s1 & E & H). apply levelOf_inv' in E as (? & _ & _ & ->).
      rewrite (bind_Some _ _ _ _ _ (degreeOf_sget _ _ _ H0)) in H.
      rewrite (bind_Some _ _ _ _ _ (degreeOf_sget _ _ _ Ho)) in H.
      by destruct (Z.eqb_spec (Degree e0) (Degree eo)).
    - apply Hpv.
    - by apply (onlyValue_meta _ _ _ _ _ Hpv). }
  split; [|done].
  intros Hd. destruct (Neg ct0 ctOut s) as [[[] s']|]; [|done].
  by destruct (Hmain _ eq_refl) as (? & _).
Qed.

(** [Reduce] returns an error, without a panic and without changing the
    store, when the degrees of the input and of the receiver differ.  A call
    that returns without an error has changed nothing but the residues of the
    receiver. *)
Theorem Reduce_error_and_frame (s : Store) (ct0 ctOut : eptr) (e0 eo : Element) :
  sget s ct0 = Some e0 → sget s ctOut = Some eo →
  (Degree e0 ≠ Degree eo → Reduce ct0 ctOut s = Some (ErrNew, s))
  ∧ (∀ err s', Reduce ct0 ctOut s = Some (err, s') →
       (err = ErrNew ↔ Degree e0 ≠ Degree eo)
       ∧ (∀ p, p ≠ ctOut → sget s' p = sget s p)
       ∧ ∃ eo', sget s' ctOut = Some eo' ∧ scale eo' = scale eo
                ∧ isNTT eo' = isNTT eo ∧ Degree eo' = Degree eo).
Proof.
  intros H0 Ho. split.
  - intros Hd. unfold Reduce.
    rewrite (bind_Some _ _ _ _ _ (degreeOf_sget _ _ _ H0)).
    rewrite (bind_Some _ _ _ _ _ (degreeOf_sget _ _ _ Ho)).
    by destruct (Z.eqb_spec (Degree e0) (Degree eo)).
  - intros err s' H.
    assert (Hpv : onlyValue ctOut s s').
    { apply (pres_apply _ _ _ _ _ H). unfold Reduce. pv2. }
    split; [|split].
    + unfold Reduce in H.
      rewrite (bind_Some _ _ _ _ _ (degreeOf_sget _ _ _ H0)) in H.
      rewrite (bind_Some _ _ _ _ _ (degreeOf_sget _ _ _ Ho)) in H.
      destruct (Z.eqb_spec (Degree e0) (Degree eo)) as [Hd|Hd]; cbn [negb] in H.
      * repeat (apply bind_inv in H as (? & ? & _ & H)). injection H as <- _.
        split; [done|]. intros Hne. by destruct Hne.
      * injection H as <- _. done.
    + apply Hpv.
    + by apply (onlyValue_meta _ _ _ _ _ Hpv).
Qed.

(** *** [SwitchKeysNew] *)

Lemma alloc_inv el s p s' :
  alloc el s = Some (p, s') →
  p = Addr (length (heap s)) ∧ sget s' p = Some el
  ∧ ckksContext (ev s') = ckksContext (ev s)
  ∧ (∀ q el', sget s q = Some el' → sget s' q = Some el' ∧ q ≠ p).
Proof.
  unfold alloc. intros [= <- <-]. split_and!; try done.
  - simpl. by rewrite lookup_app_r, Nat.sub_diag by lia.
  - intros [a|] el' H; simpl in *.
    + pose proof (lookup_lt_Some _ _ _ H). split; [by rewrite lookup_app_l by lia|].
      intros [= ->]. lia.
    + done.
Qed.

(** [SwitchKeysNew] puts its result in a new element, which has degree 1, the
    scale of the input and the NTT flag set; the elements that existed before
    the call, the input among them, are unchanged.  It panics unless the
    input has degree 1. *)
Theorem SwitchKeysNew_result (s : Store) (ct0 : eptr) (key : option SwitchingKey)
    (e0 : Element) :
  sget s ct0 = Some e0 →
  (Degree e0 ≠ 1 → SwitchKeysNew ct0 key s = None)
  ∧ (∀ p s', SwitchKeysNew ct0 key s = Some (p, s') →
       p = Addr (length (heap s))
       ∧ (∀ q el, sget s q = Some el → sget s' q = Some el)
       ∧ ∃ eo', sget s' p = Some eo' ∧ scale eo' = scale e0
                ∧ isNTT eo' = true ∧ Degree eo' = 1).
Proof.
  intros H0.
  assert (Hmain : ∀ p s', SwitchKeysNew ct0 key s = Some (p, s') →
       Degree e0 = 1 ∧ p = Addr (length (heap s))
       ∧ (∀ q el, sget s q = Some el → sget s' q = Some el)
       ∧ ∃ eo', sget s' p = Some eo' ∧ scale eo' = scale e0
                ∧ isNTT eo' = true ∧ Degree eo' = 1).
  { intros p s' H. unfold SwitchKeysNew in H.
    apply bind_inv in H as (c & s1 & E & H). injection E as <- <-.
    rewrite (bind_Some _ _ _ _ _ (getEl_sget _ _ _ H0)) in H.
    apply bind_inv in H as (l0 & s1 & E & H). unfold lift in E.
    destruct (Level e0) as [l0'|]; [|done]. injection E as <- <-.
    apply bind_inv in H as (ctOut & s1 & E & H).
    apply alloc_inv in E as (-> & Hnew & Hc & Hold).
    apply bind_inv in H as ([] & s2 & E & H). injection H as <- <-.
    destruct (Hold _ _ H0) as [H0' Hne].
    destruct (SwitchKeys_guard_and_frame s1 ct0 (Addr (length (heap s))) key _ _ H0' Hnew)
      as [Hguard Hres].
    destruct (Hres _ E) as (_ & Hother & eo' & Ho' & Hs & Hn & Hd).
    assert (D0 : Degree e0 = 1).
    { destruct (Z.eq_dec (Degree e0) 1) as [|Hd0]; [done|].
      rewrite Hguard in E by auto. done. }
    split; [done|]. split; [done|]. split.
    - intros q el Hq. destruct (Hold _ _ Hq) as [Hq' Hqne]. by rewrite Hother.
    - exists eo'. split; [done|]. split; [by rewrite Hs|]. split; [by rewrite Hn|].
      rewrite Hd. unfold Degree at 1. unfold NewCiphertextFromParams. cbn [value].
      rewrite length_replicate, D0. reflexivity. }
  split.
  - intros Hd. destruct (SwitchKeysNew ct0 key s) as [[p s']|]; [|done].
    by destruct (Hmain _ _ eq_refl) as (? & _).
  - intros p s' H. by destruct (Hmain _ _ H) as (_ & ?).
Qed.

End WithKernels.

Import MulProofs.

(** *** Examples *)

Lemma DropLevel_spec_witness :
  DropLevel (Addr 0) 1 frameStore
  = Some (ErrNil, sput frameStore (Addr 0) (truncated 2 exampleCt)).
Proof.
  refine (proj1 (proj2 (DropLevel_spec frameStore (Addr 0) exampleCt 3 1
                          eq_refl rowsEl_exampleCt _ _) _ _)); lia.
Defined.

Lemma DropLevel_twice_witness :
  (do _ <- DropLevel (Addr 0) 1; DropLevel (Addr 0) 1) frameStore
  = DropLevel (Addr 0) 2 frameStore.
Proof.
  apply (DropLevel_twice frameStore (Addr 0) exampleCt 3 1 1 eq_refl rowsEl_exampleCt);
    lia.
Defined.



(** A key set that holds the conjugation key only. *)
Definition conjugateKeys : RotationKeys :=
  mkRotationKeys ∅ ∅ [0; 1] ∅ ∅ (Some (evakey exampleEvk)).

Lemma Conjugate_guard_and_result_witness :
  ∃ s' eo',
    Conjugate (K := exampleKernels) (Addr 0) (Some conjugateKeys) (Addr 1) frameStore
    = Some (tt, s')
    ∧ sget s' (Addr 1) = Some eo' ∧ scale eo' = scale exampleCt.
Proof.
  assert (Hrun : ∃ s', Conjugate (K := exampleKernels) (Addr 0) (Some conjugateKeys)
                         (Addr 1) frameStore = Some (tt, s'))
    by (eexists; vm_compute; reflexivity).
  destruct Hrun as [s' Hrun].
  destruct (Conjugate_guard_and_result (K := exampleKernels) frameStore (Addr 0) (Addr 1)
              (Some conjugateKeys) exampleCt otherCt eq_refl eq_refl)
    as (_ & _ & _ & Hres).
  destruct (Hres s' Hrun) as (_ & eo' & Ho' & Hs & _).
  exists s', eo'. split; [exact Hrun|]. split; [exact Ho'|exact Hs].
Defined.

Lemma Neg_guard_and_frame_witness :
  ∃ s' eo',
    Neg (Addr 0) (Addr 1) frameStore = Some (tt, s')
    ∧ sget s' (Addr 1) = Some eo' ∧ scale eo' = 32%float.
Proof.
  assert (Hrun : ∃ s', Neg (Addr 0) (Addr 1) frameStore
                       = Some (tt, s'))
    by (eexists; vm_compute; reflexivity).
  destruct Hrun as [s' Hrun].
  destruct (Neg_guard_and_frame frameStore (Addr 0) (Addr 1)
              exampleCt otherCt eq_refl eq_refl) as (_ & Hres).
  destruct (Hres s' Hrun) as (_ & _ & eo' & Ho' & Hs & _).
  exists s', eo'. split; [exact Hrun|]. split; [exact Ho'|exact Hs].
Defined.

Lemma Reduce_error_and_frame_witness :
  CkksMore.Reduce (Addr 0) (Addr 2) frameStore = Some (ErrNew, frameStore).
Proof.
  apply (proj1 (Reduce_error_and_frame frameStore (Addr 0) (Addr 2)
                  exampleCt degree2Receiver eq_refl eq_refl)).
  discriminate.
Defined.

Lemma SwitchKeysNew_result_witness :
  ∃ p s' eo',
    SwitchKeysNew (K := exampleKernels) (Addr 1) (Some (evakey exampleEvk)) frameStore
    = Some (p, s')
    ∧ p = Addr 3 ∧ sget s' p = Some eo' ∧ scale eo' = 32%float.
Proof.
  assert (Hrun : ∃ p s', SwitchKeysNew (K := exampleKernels) (Addr 1)
                           (Some (evakey exampleEvk)) frameStore = Some (p, s'))
    by (eexists _, _; vm_compute; reflexivity).
  destruct Hrun as (p & s' & Hrun).
  destruct (SwitchKeysNew_result (K := exampleKernels) frameStore (Addr 1)
              (Some (evakey exampleEvk)) otherCt eq_refl) as (_ & Hres).
  destruct (Hres p s' Hrun) as (Hp & _ & eo' & Ho' & Hs & _).
  exists p, s', eo'. split; [exact Hrun|]. split; [exact Hp|]. split; [exact Ho'|exact Hs].
Defined.

End EvalMore.

(** ** Addition and subtraction: what they change *)

Module AddSubFrame.
Import RingPkg Elem Ckks CkksMore CkksProofs AddSubProofs EvalFrame EvalMore.

(** Besides the pools, only the elements in [W] may differ; every element
    keeps its domain flag and its number of parts. *)
Record changes (W : eptr → Prop) (s s' : Store) : Prop := mkChanges {
  ch_ctx : ckksContext (ev s') = ckksContext (ev s);
  ch_len : length (heap s') = length (heap s);
  ch_other : ∀ p, ¬ W p → sget s' p = sget s p;
  ch_shape : ∀ p el, sget s p = Some el →
             ∃ el', sget s' p = Some el' ∧ isNTT el' = isNTT el
                    ∧ length (value el') = length (value el)
}.

(** The receiver and the evaluator's scratch element. *)
Definition receiverOrScratch (ctOut : eptr) (p : eptr) : Prop :=
  p = ctOut ∨ p = CtxPool.

(** The element that [p] designates has scale [x]. *)
Definition scaleIs (s : Store) (p : eptr) (x : float) : Prop :=
  ∃ el, sget s p = Some el ∧ scale el = x.

Lemma changes_refl W s : changes W s s.
Proof. split; try done. intros p el H. by exists el. Qed.

Lemma changes_trans W s1 s2 s3 :
  changes W s1 s2 → changes W s2 s3 → changes W s1 s3.
Proof.
  intros [C1 L1 O1 S1] [C2 L2 O2 S2]. split.
  - by rewrite C2.
  - by rewrite L2.
  - intros p Hp. by rewrite O2, O1.
  - intros p el H. destruct (S1 p el H) as (el1 & E1 & ? & ?).
    destruct (S2 p el1 E1) as (el2 & E2 & ? & ?).
    exists el2. split_and!; [done|congruence..].
Qed.

Lemma changes_mono (W W' : eptr → Prop) s s' :
  (∀ p, W p → W' p) → changes W s s' → changes W' s s'.
Proof.
  intros HW [C L O S]. split; try done. intros p Hp. apply O. intros Hw. by apply Hp, HW.
Qed.

Lemma changes_onlyValue out s s' : onlyValue out s s' → changes (λ p, p = out) s s'.
Proof.
  intros [[C L O Sm] HM]. split; try done.
  intros p el H. destruct (decide (p = out)) as [->|Hne].
  - destruct (HM el H) as (el' & ? & _ & ? & ?). by exists el'.
  - exists el. by rewrite O.
Qed.

Lemma changes_sput o s el0 el :
  sget s o = Some el0 → isNTT el = isNTT el0 →
  length (value el) = length (value el0) →
  changes (λ p, p = o) s (sput s o el).
Proof.
  intros H Hn Hl. split.
  - apply ctx_sput.
  - destruct o; simpl; [by rewrite length_insert|done].
  - intros p Hp. apply sget_sput_ne. congruence.
  - intros p el1 H1. destruct (decide (p = o)) as [->|Hne].
    + exists el. rewrite (sget_sput_eq _ _ _ _ H). rewrite H in H1.
      by injection H1 as <-.
    + exists el1. by rewrite sget_sput_ne.
Qed.

Lemma scaleIs_changes W s s' p x :
  changes W s s' → ¬ W p → scaleIs s p x → scaleIs s' p x.
Proof. intros Hc Hp (el & H & Hs). exists el. by rewrite (ch_other _ _ _ Hc). Qed.

Lemma scaleIs_onlyParts out s s' p x :
  onlyParts out s s' → scaleIs s p x → scaleIs s' p x.
Proof.
  intros [HE HM] (el & H & Hs). destruct (decide (p = out)) as [->|Hne].
  - destruct (HM el H) as (el' & H' & Hs' & _). exists el'. split; [done|congruence].
  - exists el. by rewrite (oe_other _ _ _ HE).
Qed.

Lemma scaleIs_onlyValue out s s' p x :
  onlyValue out s s' → scaleIs s p x → scaleIs s' p x.
Proof. intros H. by apply scaleIs_onlyParts with out, onlyValue_onlyParts. Qed.

Lemma scaleIs_fun s p x y : scaleIs s p x → scaleIs s p y → x = y.
Proof. intros (el & H & <-) (el' & H' & <-). congruence. Qed.

Lemma scaleOf_scaleIs p s x s' : scaleOf p s = Some (x, s') → scaleIs s p x ∧ s' = s.
Proof. intros H. apply scaleOf_inv in H as (el & H & -> & ->). split; [by exists el|done]. Qed.

Lemma ltb_irrefl (x : float) : (x <? x)%float = false.
Proof.
  destruct (x <? x)%float eqn:E; [|done].
  pose proof (ltb_leb _ _ E). pose proof (ltb_not_leb _ _ E). congruence.
Qed.

Lemma setScaleAt_changes p x s s' :
  setScaleAt p x s = Some (tt, s') → changes (λ q, q = p) s s' ∧ scaleIs s' p x.
Proof.
  intros E. apply setScaleAt_inv in E as (el & H & ->). split.
  - by eapply changes_sput.
  - exists (SetScale el x). split; [by eapply sget_sput_eq|done].
Qed.

Section WithKernels.
Context `{K : Kernels}.

Lemma ch_MultByConst src c dst : pres (changes (λ p, p = dst)) (MultByConst src c dst).
Proof.
  intros s [] s' H. unfold MultByConst in H.
  apply bind_inv in H as (cx & s1 & E & H). injection E as <- <-.
  apply bind_inv in H as (e0 & s1 & E & H). apply getEl_inv in E as [H0 ->].
  apply bind_inv in H as (eo & s1 & E & H). apply getEl_inv in E as [Ho ->].
  apply bind_inv in H as (r & s1 & E & H). unfold lift in E.
  destruct (multByConst _ e0 c eo) as [r'|] eqn:Em; [|done].
  injection E as <- <-. apply putEl_inv in H as [_ ->].
  unfold multByConst in Em.
  destruct (Level e0) as [l0|]; [|done]. destruct (Level eo) as [lo|]; [|done].
  cbn [mbind option_bind] in Em. cbv zeta in Em.
  destruct (constParts _ c) as [[cReal cImag] sc].
  destruct (decide (rowsOf (MinUint64 l0 lo) = 0%nat)) as [Hz|Hz].
  - cbn [mbind option_bind] in Em. injection Em as <-. by eapply changes_sput.
  - destruct (multParts _ _ _ _ _ _ _ _) as [v|] eqn:Ev; [|done].
    cbn [mbind option_bind] in Em. injection Em as <-.
    destruct (multParts_frame _ _ _ _ _ _ _ _ _ Ev) as (_ & Hl & _).
    by eapply changes_sput.
Qed.

Lemma ch_alignScale hi lo src dst :
  pres (changes (λ p, p = dst)) (alignScale hi lo src dst).
Proof.
  unfold alignScale. destruct (_ =? _); [|apply ch_MultByConst].
  intros s a s' [= _ <-]. apply changes_refl.
Qed.

(** The scale alignment of [evaluateInPlace]: it writes the receiver or the
    scratch element, and it leaves the larger of the two scales as the larger
    of the scales that the operands then have. *)
Lemma align_branch c0 c1 ctOut (s0 s1 : float) s tmps s' :
  c0 ≠ CtxPool → c1 ≠ CtxPool → scaleIs s c0 s0 → scaleIs s c1 s1 →
  (if decide (ctOut = c0) then
     do tmp1 <-
       (if (s1 <? s0)%float then
          run alignScale s0 s1 c1 CtxPool; ret CtxPool
        else if (s0 <? s1)%float then
          run alignScale s1 s0 c0 c0;
          do s1' <- scaleOf c1;
          run setScaleAt c0 s1';
          ret c1
        else ret c1);
     ret (c0, tmp1)
   else if decide (ctOut = c1) then
     do tmp0 <-
       (if (s0 <? s1)%float then
          run alignScale s1 s0 c0 CtxPool; ret CtxPool
        else if (s1 <? s0)%float then
          run alignScale s0 s1 c1 ctOut;
          do s0' <- scaleOf c0;
          run setScaleAt ctOut s0';
          ret c0
        else ret c0);
     ret (tmp0, c1)
   else
     if (s0 <? s1)%float then
       run alignScale s1 s0 c0 CtxPool; ret (CtxPool, c1)
     else if (s1 <? s0)%float then
       run alignScale s0 s1 c1 CtxPool; ret (c0, CtxPool)
     else ret (c0, c1)) s = Some (tmps, s') →
  changes (receiverOrScratch ctOut) s s'
  ∧ ∃ a b, scaleIs s' c0 a ∧ scaleIs s' c1 b ∧ MaxFloat64 a b = MaxFloat64 s0 s1.
Proof.
  intros N0 N1 S0 S1 H.
  assert (Hpool : ∀ hi lo src t t' (u : unit),
            alignScale hi lo src CtxPool t = Some (u, t') →
            scaleIs t c0 s0 → scaleIs t c1 s1 →
            changes (receiverOrScratch ctOut) t t'
            ∧ scaleIs t' c0 s0 ∧ scaleIs t' c1 s1).
  { intros hi lo src t t' u E T0 T1.
    pose proof (pres_apply _ _ _ _ _ E (ch_alignScale _ _ _ _)) as Hc.
    split; [|split].
    - eapply changes_mono; [|exact Hc]. intros p ->. by right.
    - by apply (scaleIs_changes _ _ _ _ _ Hc).
    - by apply (scaleIs_changes _ _ _ _ _ Hc). }
  destruct (decide (ctOut = c0)) as [->|Hn0].
  - apply bind_inv in H as (tmp1 & t & H & Hr). injection Hr as _ <-.
    destruct (s1 <? s0)%float eqn:L10.
    + apply bind_inv in H as (u & t1 & E & Hr). injection Hr as _ <-.
      destruct (Hpool _ _ _ _ _ _ E S0 S1) as (Hc & T0 & T1).
      split; [done|]. by exists s0, s1.
    + destruct (s0 <? s1)%float eqn:L01.
      * apply bind_inv in H as (u & t1 & E & H).
        pose proof (pres_apply _ _ _ _ _ E (ch_alignScale _ _ _ _)) as Hc1.
        apply bind_inv in H as (s1' & t2 & E2 & H).
        apply scaleOf_scaleIs in E2 as [T1 ->].
        apply bind_inv in H as ([] & t3 & E3 & Hr). injection Hr as _ <-.
        apply setScaleAt_changes in E3 as [Hc2 T0].
        assert (Hne : c1 ≠ c0).
        { intros ->. rewrite (scaleIs_fun _ _ _ _ S0 S1), ltb_irrefl in L01. done. }
        assert (s1' = s1) as ->.
        { eapply scaleIs_fun; [exact T1|].
          by apply (scaleIs_changes _ _ _ _ _ Hc1). }
        split.
        -- eapply changes_mono; [|eapply changes_trans; [exact Hc1|exact Hc2]].
           intros p ->. by left.
        -- exists s1, s1. split; [done|]. split.
           ++ by apply (scaleIs_changes _ _ _ _ _ Hc2).
           ++ by rewrite MaxFloat64_same, (MaxFloat64_lt _ _ L01).
      * injection H as _ <-. split; [apply changes_refl|]. by exists s0, s1.
  - destruct (decide (ctOut = c1)) as [->|Hn1].
    + apply bind_inv in H as (tmp1 & t & H & Hr). injection Hr as _ <-.
      destruct (s0 <? s1)%float eqn:L01.
      * apply bind_inv in H as (u & t1 & E & Hr). injection Hr as _ <-.
        destruct (Hpool _ _ _ _ _ _ E S0 S1) as (Hc & T0 & T1).
        split; [done|]. by exists s0, s1.
      * destruct (s1 <? s0)%float eqn:L10.
        -- apply bind_inv in H as (u & t1 & E & H).
           pose proof (pres_apply _ _ _ _ _ E (ch_alignScale _ _ _ _)) as Hc1.
           apply bind_inv in H as (s0' & t2 & E2 & H).
           apply scaleOf_scaleIs in E2 as [T0 ->].
           apply bind_inv in H as ([] & t3 & E3 & Hr). injection Hr as _ <-.
           apply setScaleAt_changes in E3 as [Hc2 T1].
           assert (s0' = s0) as ->.
           { eapply scaleIs_fun; [exact T0|].
             apply (scaleIs_changes _ _ _ _ _ Hc1); [congruence|done]. }
           split.
           ++ eapply changes_mono; [|eapply changes_trans; [exact Hc1|exact Hc2]].
              intros p ->. by left.
           ++ exists s0, s0. split; [|split; [done|]].
              ** apply (scaleIs_changes _ _ _ _ _ Hc2); [congruence|done].
              ** by rewrite MaxFloat64_same, (MaxFloat64_gt _ _ L10).
        -- injection H as _ <-. split; [apply changes_refl|]. by exists s0, s1.
    + destruct (s0 <? s1)%float eqn:L01.
      * apply bind_inv in H as (u & t1 & E & Hr). injection Hr as _ <-.
        destruct (Hpool _ _ _ _ _ _ E S0 S1) as (Hc & T0 & T1).
        split; [done|]. by exists s0, s1.
      * destruct (s1 <? s0)%float eqn:L10.
        -- apply bind_inv in H as (u & t1 & E & Hr). injection Hr as _ <-.
           destruct (Hpool _ _ _ _ _ _ E S0 S1) as (Hc & T0 & T1).
           split; [done|]. by exists s0, s1.
        -- injection H as _ <-. split; [apply changes_refl|]. by exists s0, s1.
Qed.

(** [evaluateInPlace], for operands that are not the scratch element. *)
Lemma evaluateInPlace_meta c0 c1 ctOut f s s' e0 e1 eo :
  c0 ≠ CtxPool → c1 ≠ CtxPool →
  sget s c0 = Some e0 → sget s c1 = Some e1 → sget s ctOut = Some eo →
  evaluateInPlace c0 c1 ctOut f s = Some (tt, s') →
  (∀ p, p ≠ ctOut → p ≠ CtxPool → sget s' p = sget s p)
  ∧ ∃ eo', sget s' ctOut = Some eo'
      ∧ scale eo' = MaxFloat64 (scale e0) (scale e1)
      ∧ isNTT eo' = isNTT eo
      ∧ length (value eo') = Z.to_nat (MaxUint64 (Degree e0) (Degree e1) + 1).
Proof.
  intros N0 N1 H0 H1 Ho H. unfold evaluateInPlace in H.
  apply bind_inv in H as (c & t & E & H). injection E as <- <-.
  apply bind_inv in H as (l0 & t & E & H). apply levelOf_inv' in E as (? & _ & _ & ->).
  apply bind_inv in H as (l1 & t & E & H). apply levelOf_inv' in E as (? & _ & _ & ->).
  apply bind_inv in H as (lo & t & E & H). apply levelOf_inv' in E as (? & _ & _ & ->).
  cbv zeta in H.
  rewrite (bind_Some _ _ _ _ _ (degreeOf_sget _ _ _ H0)) in H.
  rewrite (bind_Some _ _ _ _ _ (degreeOf_sget _ _ _ H1)) in H.
  apply bind_inv in H as ([] & t1 & Er & H).
  pose proof (pres_apply _ _ _ _ _ Er (pp_resizeAt _ _)) as Hpp.
  destruct (post_resizeAt _ _ _ _ _ Er) as (er & Her & Hlr).
  apply bind_inv in H as (lo' & t & E & H). apply levelOf_inv' in E as (? & _ & _ & ->).
  apply bind_inv in H as (l0' & t & E & H). apply levelOf_inv' in E as (? & _ & _ & ->).
  apply bind_inv in H as (l1' & t & E & H). apply levelOf_inv' in E as (? & _ & _ & ->).
  apply bind_inv in H as (err & t2 & Ed & H).
  pose proof (pres_apply _ _ _ _ _ Ed (pv_DropLevel _ _)) as Hpv2.
  assert (S0 : scaleIs t2 c0 (scale e0)).
  { apply (scaleIs_onlyValue _ _ _ _ _ Hpv2), (scaleIs_onlyParts _ _ _ _ _ Hpp).
    by exists e0. }
  assert (S1 : scaleIs t2 c1 (scale e1)).
  { apply (scaleIs_onlyValue _ _ _ _ _ Hpv2), (scaleIs_onlyParts _ _ _ _ _ Hpp).
    by exists e1. }
  apply bind_inv in H as (s0 & t & E & H). apply scaleOf_scaleIs in E as [T0 ->].
  apply bind_inv in H as (s1 & t & E & H). apply scaleOf_scaleIs in E as [T1 ->].
  rewrite (scaleIs_fun _ _ _ _ T0 S0), (scaleIs_fun _ _ _ _ T1 S1) in H.
  clear T0 T1 s0 s1.
  apply bind_inv in H as ([tmp0 tmp1] & t3 & Eb & H).
  apply (align_branch _ _ _ _ _ _ _ _ N0 N1 S0 S1) in Eb
    as (Hc3 & a & b & A0 & A1 & Hmax).
  apply bind_inv in H as ([] & t4 & El & H).
  assert (Hpv4 : onlyValue ctOut t3 t4).
  { apply (pres_apply _ _ _ _ _ El). apply pv_forRange. intros i. by apply pv_polyOp2. }
  apply bind_inv in H as (s0 & t & E & H). apply scaleOf_scaleIs in E as [T0 ->].
  apply bind_inv in H as (s1 & t & E & H). apply scaleOf_scaleIs in E as [T1 ->].
  rewrite (scaleIs_fun _ _ _ _ T0 (scaleIs_onlyValue _ _ _ _ _ Hpv4 A0)) in H.
  rewrite (scaleIs_fun _ _ _ _ T1 (scaleIs_onlyValue _ _ _ _ _ Hpv4 A1)) in H.
  rewrite Hmax in H. clear T0 T1 s0 s1.
  apply bind_inv in H as ([] & t5 & Es & H).
  apply setScaleAt_changes in Es as [Hc5 So].
  apply bind_inv in H as (d0' & t & E & H). apply degreeOf_inv in E as (? & _ & _ & ->).
  apply bind_inv in H as (d1' & t & E & H). apply degreeOf_inv in E as (? & _ & _ & ->).
  assert (Hpv6 : onlyValue ctOut t5 s').
  { apply (pres_apply _ _ _ _ _ H). pv2. }
  assert (Hall : changes (receiverOrScratch ctOut) t1 s').
  { assert (Hout : ∀ p, p = ctOut → receiverOrScratch ctOut p) by (intros p ->; by left).
    eapply changes_trans;
      [eapply changes_mono; [exact Hout|by apply changes_onlyValue]|].
    eapply changes_trans; [exact Hc3|].
    eapply changes_trans;
      [eapply changes_mono; [exact Hout|by apply changes_onlyValue]|].
    eapply changes_trans; [eapply changes_mono; [exact Hout|exact Hc5]|].
    eapply changes_mono; [exact Hout|by apply changes_onlyValue]. }
  split.
  - intros p Hp Hq. rewrite (ch_other _ _ _ Hall).
    + by apply (oe_other _ _ _ (op_el _ _ _ Hpp)).
    + by intros [|].
  - destruct (scaleIs_onlyValue _ _ _ _ _ Hpv6 So) as (eo' & Ho' & Hs').
    exists eo'. split; [done|]. split; [done|].
    destruct (ch_shape _ _ _ Hall _ _ Her) as (eo2 & Ho2 & Hn2 & Hl2).
    rewrite Ho' in Ho2. injection Ho2 as <-.
    destruct (op_meta _ _ _ Hpp _ Ho) as (er' & Her' & _ & Hnr).
    rewrite Her in Her'. injection Her' as <-.
    split; [congruence|]. by rewrite Hl2, Hlr.
Qed.

Lemma Degree_of_length el m :
  0 <= m < 2 ^ 64 → length (value el) = Z.to_nat (m + 1) → Degree el = m.
Proof.
  intros Hm Hl. unfold Degree. rewrite Hl, Z2Nat.id by lia.
  unfold wrap64. rewrite Z.mod_small; lia.
Qed.

Lemma Degree_range el : 0 <= Degree el < 2 ^ 64.
Proof. unfold Degree, wrap64. apply Z.mod_pos_bound. lia. Qed.

Lemma MaxUint64_range a b :
  0 <= a < 2 ^ 64 → 0 <= b < 2 ^ 64 → 0 <= MaxUint64 a b < 2 ^ 64.
Proof. intros. unfold MaxUint64. by destruct (a <=? b). Qed.

(** The guard of [Add] and [Sub]. *)
Lemma checkBinary_rejects op0 op1 ctOut s e0 e1 eo {A} (k : unit → M A) :
  sget s op0 = Some e0 → sget s op1 = Some e1 → sget s ctOut = Some eo →
  wrap64 (Degree e0 + Degree e1) = 0 ∨ Degree eo < MaxUint64 (Degree e0) (Degree e1) →
  (do d0 <- degreeOf op0;
   do d1 <- degreeOf op1;
   do u <- getElemAndCheckBinary op0 op1 ctOut (MaxUint64 d0 d1);
   k u) s = None.
Proof.
  intros H0 H1 Ho Hd.
  rewrite (bind_Some _ _ _ _ _ (degreeOf_sget _ _ _ H0)).
  rewrite (bind_Some _ _ _ _ _ (degreeOf_sget _ _ _ H1)).
  apply bind_None. unfold getElemAndCheckBinary.
  rewrite (bind_Some _ _ _ _ _ (getEl_sget _ _ _ H0)).
  rewrite (bind_Some _ _ _ _ _ (getEl_sget _ _ _ H1)).
  rewrite (bind_Some _ _ _ _ _ (getEl_sget _ _ _ Ho)).
  destruct (Z.eqb_spec (wrap64 (Degree e0 + Degree e1)) 0); [done|].
  destruct (Z.ltb_spec (Degree eo) (MaxUint64 (Degree e0) (Degree e1))); [done|].
  destruct Hd; [done|lia].
Qed.

(** What a binary routine leaves behind when it returns. *)
Definition binaryResult (s : Store) (ctOut : eptr) (e0 e1 eo : Element) (s' : Store)
    : Prop :=
  (∀ p, p ≠ ctOut → p ≠ CtxPool → sget s' p = sget s p)
  ∧ ∃ eo', sget s' ctOut = Some eo'
      ∧ scale eo' = MaxFloat64 (scale e0) (scale e1)
      ∧ isNTT eo' = isNTT eo
      ∧ Degree eo' = MaxUint64 (Degree e0) (Degree e1).

Lemma Add_returns s op0 op1 ctOut e0 e1 eo s' :
  op0 ≠ CtxPool → op1 ≠ CtxPool →
  sget s op0 = Some e0 → sget s op1 = Some e1 → sget s ctOut = Some eo →
  Add op0 op1 ctOut s = Some (tt, s') → binaryResult s ctOut e0 e1 eo s'.
Proof.
  intros N0 N1 H0 H1 Ho H. unfold Add in H.
  rewrite (bind_Some _ _ _ _ _ (degreeOf_sget _ _ _ H0)) in H.
  rewrite (bind_Some _ _ _ _ _ (degreeOf_sget _ _ _ H1)) in H.
  apply bind_inv in H as ([] & t & E & H).
  apply getElemAndCheckBinary_inv in E as [-> _].
  destruct (evaluateInPlace_meta _ _ _ _ _ _ _ _ _ N0 N1 H0 H1 Ho H)
    as (Hf & eo' & Ho' & Hs & Hn & Hl).
  split; [done|]. exists eo'. split_and!; try done.
  apply Degree_of_length; [|done].
  apply MaxUint64_range; apply Degree_range.
Qed.

Lemma Sub_returns s op0 op1 ctOut e0 e1 eo s' :
  op0 ≠ CtxPool → op1 ≠ CtxPool →
  sget s op0 = Some e0 → sget s op1 = Some e1 → sget s ctOut = Some eo →
  Sub op0 op1 ctOut s = Some (tt, s') → binaryResult s ctOut e0 e1 eo s'.
Proof.
  intros N0 N1 H0 H1 Ho H. unfold Sub in H.
  rewrite (bind_Some _ _ _ _ _ (degreeOf_sget _ _ _ H0)) in H.
  rewrite (bind_Some _ _ _ _ _ (degreeOf_sget _ _ _ H1)) in H.
  apply bind_inv in H as ([] & t & E & H).
  apply getElemAndCheckBinary_inv in E as [-> _].
  apply bind_inv in H as ([] & t & E & H).
  destruct (evaluateInPlace_meta _ _ _ _ _ _ _ _ _ N0 N1 H0 H1 Ho E)
    as (Hf & eo1 & Ho1 & Hs & Hn & Hl).
  assert (Hpv : onlyValue ctOut t s').
  { apply (pres_apply _ _ _ _ _ H). pv2. }
  split.
  - intros p Hp Hq. rewrite (oe_other _ _ _ (ov_el _ _ _ Hpv)) by done. by apply Hf.
  - destruct (ov_meta _ _ _ Hpv _ Ho1) as (eo' & Ho' & Hs' & Hn' & Hl').
    exists eo'. split_and!; [done|congruence|congruence|].
    apply Degree_of_length; [|congruence].
    apply MaxUint64_range; apply Degree_range.
Qed.

(** *** [Add] *)


(** *** [Sub] *)


(** *** [AddNew] and [SubNew] *)

Lemma newCiphertextBinary_inv op0 op1 s e0 e1 p t :
  sget s op0 = Some e0 → sget s op1 = Some e1 →
  newCiphertextBinary op0 op1 s = Some (p, t) →
  ∃ l0 l1, Level e0 = Some l0 ∧ Level e1 = Some l1
    ∧ alloc (NewCiphertextFromParams (ckksContext (ev s))
               (MaxUint64 (Degree e0) (Degree e1)) (MinUint64 l0 l1)
               (MaxFloat64 (scale e0) (scale e1))) s = Some (p, t).
Proof.
  intros H0 H1 H. unfold newCiphertextBinary in H.
  apply bind_inv in H as (c & t0 & E & H). injection E as <- <-.
  rewrite (bind_Some _ _ _ _ _ (getEl_sget _ _ _ H0)) in H.
  rewrite (bind_Some _ _ _ _ _ (getEl_sget _ _ _ H1)) in H.
  cbv zeta in H. unfold lift in H.
  destruct (Level e0) as [l0|]; [|done]. destruct (Level e1) as [l1|]; [|done].
  by exists l0, l1.
Qed.

(** [AddNew] and [SubNew] put their result in a new element: it has the
    larger of the two operand scales, the larger of the two operand degrees
    and the NTT flag set, and every element that existed before the call
    (the operands among them) is unchanged; only the evaluator's scratch
    element may differ.  The receiver that they create always passes the
    degree check, so the only guard left is the one on two plaintexts. *)
Theorem AddNew_SubNew_result (s : Store) (op0 op1 : eptr) (e0 e1 : Element) :
  op0 ≠ CtxPool → op1 ≠ CtxPool →
  sget s op0 = Some e0 → sget s op1 = Some e1 →
  (wrap64 (Degree e0 + Degree e1) = 0 →
   AddNew op0 op1 s = None ∧ SubNew op0 op1 s = None)
  ∧ (∀ p s', AddNew op0 op1 s = Some (p, s') ∨ SubNew op0 op1 s = Some (p, s') →
       p = Addr (length (heap s))
       ∧ (∀ q el, q ≠ CtxPool → sget s q = Some el → sget s' q = Some el)
       ∧ ∃ eo', sget s' p = Some eo'
           ∧ scale eo' = MaxFloat64 (scale e0) (scale e1)
           ∧ isNTT eo' = true
           ∧ Degree eo' = MaxUint64 (Degree e0) (Degree e1)).
Proof.
  intros N0 N1 H0 H1.
  assert (Hmain : ∀ (op : eptr → eptr → eptr → M unit) p s',
            (∀ t ctOut eo t', sget t op0 = Some e0 → sget t op1 = Some e1 →
               sget t ctOut = Some eo → op op0 op1 ctOut t = Some (tt, t') →
               binaryResult t ctOut e0 e1 eo t') →
            (do ctOut <- newCiphertextBinary op0 op1;
             run op op0 op1 ctOut; ret ctOut) s = Some (p, s') →
            p = Addr (length (heap s))
            ∧ (∀ q el, q ≠ CtxPool → sget s q = Some el → sget s' q = Some el)
            ∧ ∃ eo', sget s' p = Some eo'
                ∧ scale eo' = MaxFloat64 (scale e0) (scale e1)
                ∧ isNTT eo' = true
                ∧ Degree eo' = MaxUint64 (Degree e0) (Degree e1)).
  { intros op p s' Hop H.
    apply bind_inv in H as (ctOut & t & En & H).
    apply (newCiphertextBinary_inv _ _ _ _ _ _ _ H0 H1) in En as (l0 & l1 & _ & _ & Ea).
    apply alloc_inv in Ea as (-> & Hnew & _ & Hold).
    apply bind_inv in H as ([] & t' & E & Hr). injection Hr as <- <-.
    destruct (Hop _ _ _ _ (proj1 (Hold _ _ H0)) (proj1 (Hold _ _ H1)) Hnew E)
      as (Hf & eo' & Ho' & Hs & Hn & Hd).
    split; [done|]. split.
    - intros q el Hq Hel. destruct (Hold _ _ Hel) as [Hel' Hne].
      by rewrite (Hf q Hne Hq).
    - exists eo'. split_and!; done. }
  split.
  - intros Hz.
    assert (Hrej : ∀ (op : eptr → eptr → eptr → M unit),
              (∀ t ctOut eo, sget t op0 = Some e0 → sget t op1 = Some e1 →
                 sget t ctOut = Some eo → op op0 op1 ctOut t = None) →
              (do ctOut <- newCiphertextBinary op0 op1;
               run op op0 op1 ctOut; ret ctOut) s = None).
    { intros op Hop.
      destruct (newCiphertextBinary op0 op1 s) as [[ctOut t]|] eqn:En;
        [|by apply bind_None].
      rewrite (bind_Some _ _ _ _ _ En).
      apply (newCiphertextBinary_inv _ _ _ _ _ _ _ H0 H1) in En
        as (l0 & l1 & _ & _ & Ea).
      apply alloc_inv in Ea as (-> & Hnew & _ & Hold).
      apply bind_None. eapply Hop; [by apply Hold|by apply Hold|exact Hnew]. }
    split.
    + apply Hrej. intros t ctOut eo T0 T1 To. unfold Add.
      eapply checkBinary_rejects; [done..|by left].
    + apply Hrej. intros t ctOut eo T0 T1 To. unfold Sub.
      eapply checkBinary_rejects; [done..|by left].
  - intros p s' [H|H].
    + apply (Hmain Add); [|exact H]. intros t ctOut eo t' T0 T1 To E.
      by apply (Add_returns _ _ _ _ _ _ _ _ N0 N1 T0 T1 To E).
    + apply (Hmain Sub); [|exact H]. intros t ctOut eo t' T0 T1 To E.
      by apply (Sub_returns _ _ _ _ _ _ _ _ N0 N1 T0 T1 To E).
Qed.

End WithKernels.

Import MulProofs.

(** *** Examples *)



Lemma AddNew_SubNew_result_witness :
  ∃ p s' eo',
    AddNew (K := exampleKernels) (Addr 0) (Addr 1) frameStore = Some (p, s')
    ∧ p = Addr 3
    ∧ sget s' (Addr 0) = Some exampleCt
    ∧ sget s' p = Some eo' ∧ isNTT eo' = true ∧ Degree eo' = 1.
Proof.
  assert (Hrun : ∃ p s', AddNew (K := exampleKernels) (Addr 0) (Addr 1) frameStore
                         = Some (p, s'))
    by (eexists _, _; vm_compute; reflexivity).
  destruct Hrun as (p & s' & Hrun).
  assert (N : Addr 0 ≠ CtxPool ∧ Addr 1 ≠ CtxPool) by (split; discriminate).
  destruct (AddNew_SubNew_result (K := exampleKernels) frameStore (Addr 0) (Addr 1)
              exampleCt otherCt (proj1 N) (proj2 N) eq_refl eq_refl) as (_ & Hres).
  destruct (Hres p s' (or_introl Hrun)) as (Hp & Hold & eo' & Ho' & _ & Hn & Hd).
  exists p, s', eo'. split; [exact Hrun|]. split; [exact Hp|].
  split; [apply Hold; [discriminate|reflexivity]|].
  split; [exact Ho'|]. split; [exact Hn|exact Hd].
Defined.

End AddSubFrame.

(** ** The sparse ternary sampler, for every byte source *)

Module SamplerMore.
Import RingPkg Sampler.

















(** *** Examples *)



End SamplerMore.

(** ** Scaling up *)

Module ScaleUpProofs.
Import RingPkg Elem Ckks CkksMore CkksProofs AddSubProofs EvalFrame EvalMore AddSubFrame.

Section WithKernels.
Context `{K : Kernels}.


End WithKernels.

(** *** Examples *)


End ScaleUpProofs.

(** ** The moduli chain of the parameters *)

Module GenModuliProofs.
Import RingPkg Utils UtilsProofs.

(** The number of entries of [l] equal to [b]. *)
Definition occ (b : Z) (l : list Z) : nat := length (filter (λ x, x = b) l).

(** The outputs that were assigned to the entries of bit size [b], in order. *)
Definition assigned (b : Z) (sizes out : list Z) : list Z :=
  (filter (λ p, p.1 = b) (zip sizes out)).*2.

Lemma occ_cons b q l :
  occ b (q :: l) = if decide (q = b) then S (occ b l) else occ b l.
Proof. unfold occ. rewrite filter_cons. by destruct (decide (q = b)). Qed.

Lemma occ_app b l1 l2 : occ b (l1 ++ l2) = (occ b l1 + occ b l2)%nat.
Proof. unfold occ. by rewrite filter_app, length_app. Qed.

Lemma occ_le_length b l : (occ b l ≤ length l)%nat.
Proof. apply length_filter. Qed.

Lemma occ_pos b l : b ∈ l ↔ (0 < occ b l)%nat.
Proof.
  induction l as [|q l IH].
  - split; [by intros ?%elem_of_nil|unfold occ; simpl; lia].
  - rewrite occ_cons, elem_of_cons. destruct (decide (q = b)) as [->|Hne].
    + split; [lia|by left].
    + rewrite <- IH. split; [intros [->|]; done|by right].
Qed.

Lemma assigned_cons b q x sizes out :
  assigned b (q :: sizes) (x :: out)
  = if decide (q = b) then x :: assigned b sizes out else assigned b sizes out.
Proof.
  unfold assigned. simpl. rewrite filter_cons. simpl. by destruct (decide (q = b)).
Qed.

Lemma assigned_app b s1 s2 o1 o2 :
  length s1 = length o1 →
  assigned b (s1 ++ s2) (o1 ++ o2) = assigned b s1 o1 ++ assigned b s2 o2.
Proof.
  intros Hl. unfold assigned. rewrite zip_with_app by done.
  by rewrite filter_app, fmap_app.
Qed.

Lemma elem_of_assigned x : ∀ sizes out,
  length sizes = length out → x ∈ out → ∃ b, b ∈ sizes ∧ x ∈ assigned b sizes out.
Proof.
  induction sizes as [|q sizes IH]; intros [|y out] Hl Hx; try done.
  - by apply elem_of_nil in Hx.
  - apply elem_of_cons in Hx as [->|Hx].
    + exists q. split; [by left|]. rewrite assigned_cons, decide_True by done. by left.
    + destruct (IH out) as (b & Hb & Hin); [by injection Hl|done|].
      exists b. split; [by right|]. rewrite assigned_cons.
      destruct (decide (q = b)); [by right|done].
Qed.

Section Primes.
Variable IsPrime : Z → bool.

(** *** Counting the bit sizes *)

Lemma countBitLen_spec : ∀ (rest pre : list Z) (m : gmap Z Z),
  (∀ b, m !! b = if decide (b ∈ pre) then Some (Z.of_nat (occ b pre)) else None) →
  Z.of_nat (length (pre ++ rest)) < 2 ^ 64 →
  match countBitLen m rest with
  | Some m' =>
      Forall (λ q, q <= 60) rest
      ∧ ∀ b, m' !! b = if decide (b ∈ pre ++ rest)
                       then Some (Z.of_nat (occ b (pre ++ rest))) else None
  | None => Exists (λ q, 60 < q) rest
  end.
Proof.
  induction rest as [|q rest IH]; intros pre m Hm Hlen.
  - simpl. split; [done|]. intros b. rewrite app_nil_r. apply Hm.
  - unfold countBitLen. cbn [foldl]. cbn [mbind option_bind]. cbv zeta.
    destruct (Z.ltb_spec 60 q) as [Hq|Hq].
    + assert (E : ∀ l : list Z,
                foldl (λ (acc : option (gmap Z Z)) (qi : Z),
                         m0 ← acc;
                         let m' := <[qi := wrap64 (default 0 (m0 !! qi) + 1)]> m0 in
                         if 60 <? qi then None else Some m') None l = None).
      { induction l as [|j l IHl]; [done|]. simpl. apply IHl. }
      rewrite E. by left.
    + fold (countBitLen (<[q := wrap64 (default 0 (m !! q) + 1)]> m) rest).
      specialize (IH (pre ++ [q]) (<[q := wrap64 (default 0 (m !! q) + 1)]> m)).
      rewrite <- app_assoc in IH. simpl in IH.
      assert (Hocc : default 0 (m !! q) = Z.of_nat (occ q pre)).
      { rewrite Hm. destruct (decide (q ∈ pre)) as [|Hn]; [done|]. simpl.
        rewrite occ_pos in Hn. lia. }
      assert (Hm1 : ∀ b, <[q := wrap64 (default 0 (m !! q) + 1)]> m !! b
                = if decide (b ∈ pre ++ [q])
                  then Some (Z.of_nat (occ b (pre ++ [q]))) else None).
      { intros b. destruct (decide (b = q)) as [->|Hne].
        - rewrite lookup_insert_eq, Hocc.
          rewrite decide_True by (apply elem_of_app; right; by left).
          f_equal. rewrite occ_app, occ_cons, decide_True by done.
          pose proof (occ_le_length q pre). rewrite !length_app in Hlen.
          simpl in Hlen. change (occ q []) with 0%nat.
          unfold wrap64. rewrite Z.mod_small; lia.
        - rewrite lookup_insert_ne by done. rewrite Hm.
          rewrite occ_app, occ_cons, (decide_False (P := q = b)) by congruence.
          change (occ b []) with 0%nat. rewrite Nat.add_0_r.
          destruct (decide (b ∈ pre)) as [Hin|Hn].
          + rewrite decide_True; [done|]. apply elem_of_app. by left.
          + rewrite decide_False; [done|]. intros [?|Hq']%elem_of_app; [done|].
            apply elem_of_cons in Hq' as [?|?%elem_of_nil]; done. }
      specialize (IH Hm1 Hlen).
      destruct (countBitLen _ rest) as [m'|].
      * destruct IH as [HF Hb]. split; [by constructor|done].
      * by right.
Qed.

(** *** Generating the primes of every bit size *)

Lemma primesLoop_length (levels _2N : Z) :
  0 < levels < 2 ^ 64 →
  ∀ (fuel : nat) (x y : Z) (primes l : list Z),
    Z.of_nat (length primes) < levels →
    primesLoop IsPrime fuel levels _2N x y primes = Some l →
    Z.of_nat (length l) = levels.
Proof.
  intros Hlv. induction fuel as [|fuel IH]; intros x y primes l Hlen; [done|].
  cbn [primesLoop]. cbn zeta.
  assert (Hstep : ∀ (p : list Z) (c : Z), Z.of_nat (length p) < levels →
            (wrap64 (Z.of_nat (length (p ++ [c]))) =? levels) = true
            ∧ Z.of_nat (length (p ++ [c])) = levels
            ∨ (wrap64 (Z.of_nat (length (p ++ [c]))) =? levels) = false
              ∧ Z.of_nat (length (p ++ [c])) < levels).
  { intros p c Hp. rewrite length_app. simpl. unfold wrap64.
    rewrite Z.mod_small by lia.
    destruct (Z.eqb_spec (Z.of_nat (length p + 1)) levels); [left|right]; lia. }
  destruct (IsPrime y) eqn:Ey; cbn [andb].
  - destruct (Hstep primes y Hlen) as [[-> Hy]|[-> Hy]]; [by intros [= <-]|].
    destruct (IsPrime x) eqn:Ex; cbn [andb].
    + destruct (Hstep (primes ++ [y]) x Hy) as [[-> Hx]|[-> Hx]]; [by intros [= <-]|].
      by apply IH.
    + by apply IH.
  - destruct (IsPrime x) eqn:Ex; cbn [andb].
    + destruct (Hstep primes x Hlen) as [[-> Hx]|[-> Hx]]; [by intros [= <-]|].
      by apply IH.
    + by apply IH.
Qed.

Lemma generateCKKSPrimes_list (fuel : nat) (logQ logN levels : Z) (l : list Z) :
  0 < levels < 2 ^ 64 →
  generateCKKSPrimes IsPrime fuel logQ logN levels = Returns l →
  Z.of_nat (length l) = levels ∧ Forall (λ p, IsPrime p = true) l ∧ logQ <= 60.
Proof.
  intros Hlv. unfold generateCKKSPrimes.
  destruct (Z.ltb_spec 60 logQ) as [|H60]; [done|]. cbn zeta.
  destruct (primesLoop _ _ _ _ _ _ _) as [l'|] eqn:E; [|done]. intros [= <-].
  split; [|split; [|done]].
  - eapply primesLoop_length; [done| |exact E]. simpl. lia.
  - eapply (primesLoop_sound _ _ _ (λ _, True)) in E; try done.
    destruct E as [_ E]. eapply Forall_impl; [exact E|]. by intros ? [? _].
Qed.

Lemma generateCKKSPrimes_repeats (fuel : nat) (logQ logN levels : Z) (l : list Z) :
  0 <= logQ → 2 <= levels < 2 ^ 64 → IsPrime (2 ^ logQ + 1) = true →
  generateCKKSPrimes IsPrime fuel logQ logN levels = Returns l →
  take 2 l = [2 ^ logQ + 1; 2 ^ logQ + 1].
Proof.
  intros H0 Hlv Hp. unfold generateCKKSPrimes.
  destruct (Z.ltb_spec 60 logQ) as [|H60]; [done|]. cbn zeta.
  rewrite (pow2_start logQ) by lia.
  destruct fuel as [|fuel]; [done|]. cbn [primesLoop]. cbn zeta. rewrite Hp.
  cbn [app length andb].
  change (wrap64 (Z.of_nat 1)) with 1. change (wrap64 (Z.of_nat 2)) with 2.
  replace (1 =? levels) with false by (symmetry; apply Z.eqb_neq; lia).
  destruct (2 =? levels) eqn:E2; [by intros [= <-]|].
  destruct (primesLoop _ _ _ _ _ _ _) as [l'|] eqn:E; [|done].
  intros [= <-]. apply primesLoop_prefix in E as [t ->]. done.
Qed.

Lemma genPrimes_fold (fuel : nat) (logN : Z) : ∀ (entries : list (Z * Z))
    (pm0 pm : gmap Z (list Z)),
  NoDup entries.*1 →
  foldl (λ (acc : Outcome (gmap Z (list Z))) (kv : Z * Z),
           match acc with
           | Returns pm =>
               match generateCKKSPrimes IsPrime fuel kv.1 logN kv.2 with
               | Returns l => Returns (<[kv.1 := l]> pm)
               | Panics => Panics
               | OutOfFuel => OutOfFuel
               end
           | o => o
           end) (Returns pm0) entries = Returns pm →
  (∀ b v, (b, v) ∈ entries →
     ∃ l, generateCKKSPrimes IsPrime fuel b logN v = Returns l ∧ pm !! b = Some l)
  ∧ (∀ b, b ∉ entries.*1 → pm !! b = pm0 !! b).
Proof.
  induction entries as [|[k v] entries IH]; intros pm0 pm Hnd H.
  - simpl in H. injection H as <-. split; [|done]. by intros b v ?%elem_of_nil.
  - cbn [foldl fst snd] in H. rewrite fmap_cons in Hnd. cbn [fst] in Hnd.
    apply NoDup_cons in Hnd as [Hk Hnd].
    destruct (generateCKKSPrimes IsPrime fuel k logN v) as [l| |] eqn:Eg.
    + destruct (IH _ _ Hnd H) as [Hin Hout]. split.
      * intros b v' [[= -> ->]|Hb]%elem_of_cons; [|by apply Hin].
        exists l. split; [done|]. by rewrite (Hout _ Hk), lookup_insert_eq.
      * intros b Hb. rewrite fmap_cons in Hb. cbn [fst] in Hb.
        apply not_elem_of_cons in Hb as [Hne Hb].
        by rewrite (Hout _ Hb), lookup_insert_ne.
    + exfalso. clear -H. induction entries as [|e entries IHe]; [done|]. by apply IHe.
    + exfalso. clear -H. induction entries as [|e entries IHe]; [done|]. by apply IHe.
Qed.

Lemma genPrimes_no_panic (fuel : nat) (logN : Z) : ∀ (entries : list (Z * Z))
    (pm0 : gmap Z (list Z)),
  Forall (λ kv, kv.1 <= 60) entries →
  foldl (λ (acc : Outcome (gmap Z (list Z))) (kv : Z * Z),
           match acc with
           | Returns pm =>
               match generateCKKSPrimes IsPrime fuel kv.1 logN kv.2 with
               | Returns l => Returns (<[kv.1 := l]> pm)
               | Panics => Panics
               | OutOfFuel => OutOfFuel
               end
           | o => o
           end) (Returns pm0) entries ≠ Panics.
Proof.
  induction entries as [|[k v] entries IH]; intros pm0 HF; [done|].
  apply Forall_cons in HF as [Hk HF]. cbn [foldl fst snd]. cbn [fst] in Hk.
  unfold generateCKKSPrimes.
  destruct (Z.ltb_spec 60 k) as [|_]; [lia|]. cbn zeta.
  destruct (primesLoop _ _ _ _ _ _ _) as [l|]; [by apply IH|].
  clear. induction entries as [|e entries IHe]; [done|]. apply IHe.
Qed.

(** *** Handing the primes out *)

Lemma assignPrimes_spec : ∀ (sizes : list Z) (pm : gmap Z (list Z)),
  (∀ b, occ b sizes ≤ length (default [] (pm !! b)))%nat →
  ∃ out pm', assignPrimes pm sizes = Some (out, pm')
    ∧ length sizes = length out
    ∧ ∀ b, assigned b sizes out = take (occ b sizes) (default [] (pm !! b))
           ∧ default [] (pm' !! b) = drop (occ b sizes) (default [] (pm !! b)).
Proof.
  induction sizes as [|q sizes IH]; intros pm Hpm.
  - exists [], pm. split; [done|]. split; [done|]. intros b.
    unfold occ, assigned. simpl. by rewrite take_0, drop_0.
  - cbn [assignPrimes]. pose proof (Hpm q) as Hq.
    rewrite occ_cons, decide_True in Hq by done.
    destruct (default [] (pm !! q)) as [|x tl] eqn:El; [simpl in Hq; lia|].
    destruct (IH (<[q := tl]> pm)) as (out & pm' & Ea & Hl & Hb).
    { intros b. destruct (decide (b = q)) as [->|Hne].
      - rewrite lookup_insert_eq. simpl in *. lia.
      - rewrite lookup_insert_ne by done. specialize (Hpm b).
        by rewrite occ_cons, decide_False in Hpm by done. }
    rewrite Ea. cbn [mbind option_bind]. exists (x :: out), pm'.
    split; [done|]. split; [simpl; by rewrite Hl|]. intros b.
    destruct (Hb b) as [Ha Hd]. rewrite assigned_cons, occ_cons.
    destruct (decide (q = b)) as [->|Hne].
    + rewrite lookup_insert_eq in Ha, Hd. simpl in Ha, Hd. rewrite El. simpl.
      by rewrite Ha, Hd.
    + rewrite lookup_insert_ne in Ha, Hd by done. done.
Qed.

(** Once the table holds, for every bit size, as many primes as the size has
    entries, both hand-out loops succeed and use the lists up in order. *)
Lemma assign_both (paramsQ paramsP : list Z) (pm : gmap Z (list Z)) :
  (∀ b, length (default [] (pm !! b)) = occ b (paramsQ ++ paramsP)) →
  ∃ Q pm1 P pm2,
    assignPrimes pm paramsQ = Some (Q, pm1) ∧ assignPrimes pm1 paramsP = Some (P, pm2)
    ∧ length Q = length paramsQ ∧ length P = length paramsP
    ∧ ∀ b, assigned b (paramsQ ++ paramsP) (Q ++ P) = default [] (pm !! b).
Proof.
  intros Hpm.
  destruct (assignPrimes_spec paramsQ pm) as (Q & pm1 & E1 & L1 & H1).
  { intros b. rewrite Hpm, occ_app. lia. }
  destruct (assignPrimes_spec paramsP pm1) as (P & pm2 & E2 & L2 & H2).
  { intros b. destruct (H1 b) as [_ ->]. rewrite length_drop, Hpm, occ_app. lia. }
  exists Q, pm1, P, pm2. split_and!; try done.
  intros b. rewrite assigned_app by done.
  destruct (H1 b) as [-> Hd]. destruct (H2 b) as [-> _]. rewrite Hd.
  rewrite take_take_drop. apply take_ge. rewrite Hpm, occ_app. lia.
Qed.

(** The table after the generation loop, when the counts are those of the
    bit sizes. *)
Lemma table_spec (fuel : nat) (logN : Z) (sizes : list Z) (m : gmap Z Z)
    (pm : gmap Z (list Z)) :
  Z.of_nat (length sizes) < 2 ^ 64 →
  (∀ b, m !! b = if decide (b ∈ sizes) then Some (Z.of_nat (occ b sizes)) else None) →
  genPrimes IsPrime fuel logN (map_to_list m) = Returns pm →
  (∀ b, length (default [] (pm !! b)) = occ b sizes)
  ∧ (∀ b, b ∈ sizes →
       generateCKKSPrimes IsPrime fuel b logN (Z.of_nat (occ b sizes))
       = Returns (default [] (pm !! b))
       ∧ Forall (λ p, IsPrime p = true) (default [] (pm !! b)) ∧ b <= 60).
Proof.
  intros Hlen Hm Hg. unfold genPrimes in Hg.
  apply genPrimes_fold in Hg as [Hin Hout]; [|apply NoDup_fst_map_to_list].
  assert (Hb : ∀ b, b ∈ sizes →
       generateCKKSPrimes IsPrime fuel b logN (Z.of_nat (occ b sizes))
       = Returns (default [] (pm !! b))
       ∧ Z.of_nat (length (default [] (pm !! b))) = Z.of_nat (occ b sizes)
       ∧ Forall (λ p, IsPrime p = true) (default [] (pm !! b)) ∧ b <= 60).
  { intros b Hb. destruct (Hin b (Z.of_nat (occ b sizes))) as (l & Eg & El).
    { apply elem_of_map_to_list. rewrite Hm. by rewrite decide_True. }
    rewrite El. simpl. split; [done|].
    apply generateCKKSPrimes_list in Eg; [done|].
    pose proof (occ_le_length b sizes). apply occ_pos in Hb. lia. }
  split.
  - intros b. destruct (decide (b ∈ sizes)) as [Hi|Hn].
    + destruct (Hb b Hi) as (_ & Hl & _). lia.
    + rewrite Hout.
      * rewrite lookup_empty. simpl. rewrite occ_pos in Hn. lia.
      * intros ((b' & v) & -> & Hel%elem_of_map_to_list)%list_elem_of_fmap.
        simpl in *. rewrite Hm in Hel. by rewrite decide_False in Hel.
  - intros b Hi. destruct (Hb b Hi) as (? & _ & ? & ?). done.
Qed.

(** *** [genModuli] *)

(** [genModuli] panics when a bit size is above 60 and never otherwise: the
    hand-out loops do not run out of primes.  When it returns, [Q] and [P]
    have the lengths of the lists of bit sizes, every output is accepted by
    [ring.IsPrime], and the outputs assigned to the entries of one bit size
    are, in order, the list that [generateCKKSPrimes] returns for that size
    and the number of its entries.  Hence a bit size that occurs twice and
    whose first candidate [2^b + 1] is prime gets the same modulus twice. *)
Theorem genModuli_spec (fuel : nat) (paramsQ paramsP : list Z) (logN : Z) :
  Z.of_nat (length (paramsQ ++ paramsP)) < 2 ^ 64 →
  (Exists (λ q, 60 < q) (paramsQ ++ paramsP) →
   genModuli IsPrime fuel paramsQ paramsP logN = Panics)
  ∧ (Forall (λ q, q <= 60) (paramsQ ++ paramsP) →
     genModuli IsPrime fuel paramsQ paramsP logN ≠ Panics)
  ∧ ∀ Q P, genModuli IsPrime fuel paramsQ paramsP logN = Returns (Q, P) →
      length Q = length paramsQ ∧ length P = length paramsP
      ∧ Forall (λ p, IsPrime p = true) (Q ++ P)
      ∧ (∀ b, b ∈ paramsQ ++ paramsP →
           generateCKKSPrimes IsPrime fuel b logN
             (Z.of_nat (occ b (paramsQ ++ paramsP)))
           = Returns (assigned b (paramsQ ++ paramsP) (Q ++ P)))
      ∧ (∀ b, 0 <= b → (2 ≤ occ b (paramsQ ++ paramsP))%nat →
           IsPrime (2 ^ b + 1) = true →
           take 2 (assigned b (paramsQ ++ paramsP) (Q ++ P))
           = [2 ^ b + 1; 2 ^ b + 1]).
Proof.
  intros Hlen. unfold genModuli.
  pose proof (countBitLen_spec paramsQ [] ∅) as H1. simpl in H1.
  assert (Hlen1 : Z.of_nat (length paramsQ) < 2 ^ 64).
  { rewrite length_app in Hlen. lia. }
  specialize (H1 ltac:(intros b; by rewrite lookup_empty) Hlen1).
  destruct (countBitLen ∅ paramsQ) as [m1|].
  2:{ split; [done|]. split; [|done]. intros HF.
      apply Forall_app in HF as [HF _]. apply Exists_exists in H1 as (q & Hq & Hgt).
      rewrite Forall_forall in HF. specialize (HF q Hq). simpl in HF. lia. }
  destruct H1 as [HFQ Hm1].
  pose proof (countBitLen_spec paramsP paramsQ m1 Hm1 Hlen) as H2.
  destruct (countBitLen m1 paramsP) as [m2|].
  2:{ split; [done|]. split; [|done]. intros HF.
      apply Forall_app in HF as [_ HF]. apply Exists_exists in H2 as (q & Hq & Hgt).
      rewrite Forall_forall in HF. specialize (HF q Hq). simpl in HF. lia. }
  destruct H2 as [HFP Hm2].
  assert (HF : Forall (λ q, q <= 60) (paramsQ ++ paramsP)) by (by apply Forall_app).
  split.
  { intros (q & Hq & Hgt)%Exists_exists. rewrite Forall_forall in HF.
    specialize (HF q Hq). simpl in HF. lia. }
  destruct (genPrimes IsPrime fuel logN (map_to_list m2)) as [pm| |] eqn:Eg.
  - destruct (table_spec _ _ _ _ _ Hlen Hm2 Eg) as [Hcount Hgen].
    destruct (assign_both paramsQ paramsP pm Hcount)
      as (Q & pm1 & P & pm2 & E1 & E2 & L1 & L2 & Hass).
    rewrite E1, E2. split; [done|].
    intros Q' P' [= <- <-]. split; [done|]. split; [done|].
    split; [|split].
    + apply Forall_forall. intros x Hx.
      destruct (elem_of_assigned x (paramsQ ++ paramsP) (Q ++ P)) as (b & Hb & Hin);
        [by rewrite !length_app, L1, L2|done|].
      rewrite Hass in Hin. destruct (Hgen b Hb) as (_ & Hp & _).
      rewrite Forall_forall in Hp. by apply Hp.
    + intros b Hb. rewrite Hass. by destruct (Hgen b Hb) as [-> _].
    + intros b H0 Hocc Hp. rewrite Hass.
      assert (Hb : b ∈ paramsQ ++ paramsP) by (apply occ_pos; lia).
      destruct (Hgen b Hb) as (Eb & _ & _).
      eapply generateCKKSPrimes_repeats; [done| |done|exact Eb].
      pose proof (occ_le_length b (paramsQ ++ paramsP)). lia.
  - exfalso. revert Eg. unfold genPrimes. apply genPrimes_no_panic.
    apply Forall_forall. intros [b v] Hel%elem_of_map_to_list. simpl.
    rewrite Hm2 in Hel. destruct (decide (b ∈ paramsQ ++ paramsP)) as [Hb|]; [|done].
    rewrite Forall_forall in HF. by apply HF.
  - split; [done|]. intros Q' P' HQ. done.
Qed.

End Primes.

(** *** Examples *)

(** Two moduli of 4 bits and a special modulus of 3 bits, for N = 2: the two
    4-bit moduli are the same prime 17. *)
Lemma genModuli_spec_witness :
  genModuli trialPrime 10 [4; 4] [3] 1 = Returns ([17; 17], [5])
  ∧ take 2 (assigned 4 ([4; 4] ++ [3]) ([17; 17] ++ [5])) = [2 ^ 4 + 1; 2 ^ 4 + 1].
Proof.
  assert (Hrun : genModuli trialPrime 10 [4; 4] [3] 1 = Returns ([17; 17], [5]))
    by (vm_compute; reflexivity).
  split; [exact Hrun|].
  assert (Hlen : Z.of_nat (length ([4; 4] ++ [3])) < 2 ^ 64) by (simpl; lia).
  destruct (genModuli_spec trialPrime 10 [4; 4] [3] 1 Hlen) as (_ & _ & Hres).
  destruct (Hres _ _ Hrun) as (_ & _ & _ & _ & Hdup).
  apply Hdup; [lia|vm_compute; lia|vm_compute; reflexivity].
Defined.

End GenModuliProofs.
